(** * html2pdf-skia: the Skia painting pipeline

    A shallow embedding of [src/render/skia/skia-renderer.ts] (class
    [SkiaRenderer] and its helper class [GlobalAlpha]) together with the
    properties of the painting pipeline stated in the specification.

    Conventions of the embedding.
    - A JavaScript [number] that takes part in geometry (lengths, offsets,
      alpha values) is a rational [Q]: the arithmetic of the source is read
      as exact arithmetic, so IEEE rounding is outside the model.  Where the
      source can produce [NaN] (colour parsing), the three-way type
      [number] is used instead.
    - A JavaScript [string] is the list of its UTF-16 code units.
    - The renderer talks to the CanvasKit backend through method calls on
      native objects.  The embedding records those calls, in order, as a
      trace of [Call]s; native objects are identified by the handle they
      receive when they are constructed.
    - [async]/[await] in the source is strictly sequential, so an [async]
      method is an ordinary stateful procedure here. *)

From Stdlib Require Import List ZArith NArith QArith Qround Qabs Bool Lia Lqa.
From Stdlib Require Import Ascii.
From Stdlib Require String.
Import ListNotations.
Import String.StringSyntax.
Delimit Scope string_scope with string.

Local Open Scope Q_scope.

(* ===================================================================== *)
(** * JavaScript strings and numbers                                      *)
(* ===================================================================== *)

Module JS.

(** A string: its UTF-16 code units. *)
Definition JSString := list N.

(** Code units of an ASCII literal, for writing concrete inputs. *)
Definition str (s : String.string) : JSString :=
  map N_of_ascii (String.list_ascii_of_string s).
Arguments str s%_string.

(** A [number] as far as colour parsing needs it. *)
Inductive number :=
| NaN
| Num (q : Q)
| Infinity (negative : bool).

(** [x / d] for a finite non-zero constant [d > 0]. *)
Definition div_const (x : number) (d : Q) : number :=
  match x with
  | NaN => NaN
  | Num q => Num (q / d)
  | Infinity s => Infinity s
  end.

(** [x * d] for a finite constant [d > 0]. *)
Definition mul_const (x : number) (d : Q) : number :=
  match x with
  | NaN => NaN
  | Num q => Num (q * d)
  | Infinity s => Infinity s
  end.

(** ECMAScript [WhiteSpace] and [LineTerminator] code units, the set that
    [String.prototype.trim], [parseInt] and [parseFloat] strip. *)
Definition isWhiteSpace (c : N) : bool :=
  ((9 <=? c) && (c <=? 13) || (c =? 32) || (c =? 160) || (c =? 5760)
   || (8192 <=? c) && (c <=? 8202) || (c =? 8232) || (c =? 8233)
   || (c =? 8239) || (c =? 8287) || (c =? 12288) || (c =? 65279))%N.

Fixpoint trimStart (s : JSString) : JSString :=
  match s with
  | c :: s' => if isWhiteSpace c then trimStart s' else s
  | [] => []
  end.

Definition trimEnd (s : JSString) : JSString := rev (trimStart (rev s)).

(** [s.trim()] *)
Definition trim (s : JSString) : JSString := trimEnd (trimStart s).

(** [s.slice(a, b)] for [0 <= a <= b]. *)
Definition slice (a b : nat) (s : JSString) : JSString :=
  firstn (b - a) (skipn a s).

(** [s.startsWith(p)] *)
Fixpoint startsWith (p s : JSString) : bool :=
  match p, s with
  | [], _ => true
  | a :: p', b :: s' => (a =? b)%N && startsWith p' s'
  | _ :: _, [] => false
  end.

(** [s.split(',')]-style split on one code unit: never the empty list. *)
Fixpoint split (sep : N) (s : JSString) : list JSString :=
  match s with
  | [] => [[]]
  | c :: s' =>
      if (c =? sep)%N then [] :: split sep s'
      else match split sep s' with
           | w :: ws => (c :: w) :: ws
           | [] => [[c]]
           end
  end.

(** Longest prefix whose code units satisfy [p], and the rest. *)
Fixpoint span (p : N -> bool) (s : JSString) : JSString * JSString :=
  match s with
  | c :: s' =>
      if p c then let '(a, b) := span p s' in (c :: a, b) else ([], s)
  | [] => ([], [])
  end.

Definition isDigit (c : N) : bool := ((48 <=? c) && (c <=? 57))%N.

(** Value of a hexadecimal digit. *)
Definition hexDigit (c : N) : option N :=
  if ((48 <=? c) && (c <=? 57))%N then Some (c - 48)%N
  else if ((97 <=? c) && (c <=? 102))%N then Some (c - 87)%N
  else if ((65 <=? c) && (c <=? 70))%N then Some (c - 55)%N
  else None.

Definition isHexDigit (c : N) : bool :=
  match hexDigit c with Some _ => true | None => false end.

(** Value of a run of digits in the given radix, most significant first. *)
Definition digitsValue (radix : N) (val : N -> option N) (ds : JSString) : N :=
  fold_left (fun acc c => match val c with
                          | Some d => radix * acc + d
                          | None => acc
                          end)%N ds 0%N.

Definition decDigit (c : N) : option N :=
  if isDigit c then Some (c - 48)%N else None.

(** An optional leading sign: [(negative, rest)]. *)
Definition takeSign (s : JSString) : bool * JSString :=
  match s with
  | 45%N :: s' => (true, s')
  | 43%N :: s' => (false, s')
  | _ => (false, s)
  end.

Definition signed (negative : bool) (q : Q) : Q :=
  if negative then - q else q.

(** [parseInt(s, 16)]: leading white space, an optional sign, an optional
    [0x]/[0X] prefix, then the longest run of hexadecimal digits; [NaN]
    when that run is empty. *)
Definition parseInt16 (s : JSString) : number :=
  let '(neg, s1) := takeSign (trimStart s) in
  let s2 := match s1 with
            | 48%N :: 120%N :: r => r
            | 48%N :: 88%N :: r => r
            | _ => s1
            end in
  match fst (span isHexDigit s2) with
  | [] => NaN
  | ds => Num (signed neg (inject_Z (Z.of_N (digitsValue 16 hexDigit ds))))
  end.

(** The exponent part of a decimal literal: [e] or [E], an optional sign
    and at least one digit; [0] when there is none. *)
Definition exponentPart (s : JSString) : Z :=
  match s with
  | c :: s' =>
      if ((c =? 101) || (c =? 69))%N then
        let '(neg, s'') := takeSign s' in
        match fst (span isDigit s'') with
        | [] => 0%Z
        | ds => let e := Z.of_N (digitsValue 10 decDigit ds) in
                if neg then (- e)%Z else e
        end
      else 0%Z
  | [] => 0%Z
  end.

(** [parseFloat(s)]: leading white space is skipped, then the longest
    prefix that is a [StrDecimalLiteral] is read; [NaN] when there is none.
    The value is the exact rational the literal denotes. *)
Definition parseFloat (s : JSString) : number :=
  let '(neg, s1) := takeSign (trimStart s) in
  if startsWith (str "Infinity") s1 then Infinity neg else
  let '(ip, s2) := span isDigit s1 in
  let '(fp, s3) := match s2 with
                   | 46%N :: r => span isDigit r
                   | _ => ([], s2)
                   end in
  match ip ++ fp with
  | [] => NaN
  | ds =>
      let m := inject_Z (Z.of_N (digitsValue 10 decDigit ds)) in
      let e := (exponentPart s3 - Z.of_nat (length fp))%Z in
      Num (Qred (signed neg (m * (10 # 1) ^ e)))
  end.

End JS.

(* ===================================================================== *)
(** * class GlobalAlpha                                                   *)
(* ===================================================================== *)

Module GlobalAlpha.

(** [private stack: number[]]: an array, the top of the stack last. *)
Definition t := list Q.

(** [constructor()]: [this.stack.push(1)] on the empty array. *)
Definition init : t := [] ++ [1].

(** [get value()]: [this.stack[this.stack.length - 1] ?? 1]. *)
Definition value (s : t) : Q := last s 1.

(** [push(value)] *)
Definition push (v : Q) (s : t) : t := s ++ [v].

(** [pop()]: the popped value and the stack afterwards. *)
Definition pop (s : t) : Q * t :=
  if (1 <? List.length s)%nat then (last s 1, removelast s)
  else (1, s).

(** A call made on the stack from outside the class. *)
Inductive op :=
| Push (v : Q)
| Pop.

Definition step (s : t) (o : op) : t :=
  match o with
  | Push v => push v s
  | Pop => snd (pop s)
  end.

(** The stack after a sequence of calls on a fresh instance. *)
Definition run (ops : list op) : t := fold_left step ops init.

End GlobalAlpha.

(* ===================================================================== *)
(** * Geometry, effects and the backend                                   *)
(* ===================================================================== *)

(** Modelled from the spec: the declarations of [Vector], [BezierCurve]
    and [Path] ([src/render/vector.ts], [bezier-curve.ts], [path.ts]) are
    not among the source files; the renderer reads exactly these fields. *)
Record Vector := { x : Q; y : Q }.

Record BezierCurve := {
  start : Vector;
  startControl : Vector;
  endControl : Vector;
  end_ : Vector
}.

Inductive Path :=
| PVector (v : Vector)
| PBezier (c : BezierCurve).

Definition isBezierCurve (p : Path) : bool :=
  match p with PBezier _ => true | PVector _ => false end.

(** Modelled from the spec: [src/render/effects.ts] is not among the source
    files.  An effect is a tagged union over opacity, transform and clip;
    [isOpacityEffect], [isTransformEffect] and [isClipEffect] test the tag.
    A transform carries the six entries of a 2D affine matrix. *)
Inductive IElementEffect :=
| OpacityEffect (opacity : Q)
| TransformEffect (offsetX offsetY : Q) (matrix : Q * Q * Q * Q * Q * Q)
| ClipEffect (path : list Path).

Definition isOpacityEffect (e : IElementEffect) : bool :=
  match e with OpacityEffect _ => true | _ => false end.

Module CanvasKit.

(** A native object of the backend, named by the order of its creation. *)
Definition Handle := N.
Bind Scope N_scope with Handle.

(** A native typeface (owned by the font provider, never created here). *)
Definition Typeface := N.
Bind Scope N_scope with Typeface.

(** What [parseColor] returns: the value built by [canvasKit.Color4f]
    (channels in [0, 1]) or by the legacy [canvasKit.Color] (colour
    channels in [0, 255]), or whatever the backend's own string parser
    answered. *)
Inductive Float32Array :=
| Color4f (r g b a : JS.number)
| Color (r g b a : JS.number)
| BackendColor (id : N).

(** [canvasKit.multiplyByAlpha(color, alpha)], kept symbolic. *)
Record PaintColor := multiplyByAlpha {
  baseColor : Float32Array;
  alphaFactor : Q
}.

Inductive PaintStyle := Fill | Stroke.

(** One call on the backend.  The first argument of a method of a native
    object is the handle of that object. *)
Inductive Call :=
(* the canvas *)
| save
| restore
| translate (dx dy : Q)
| concat (m : list Q)
| clipPath (path : Handle)            (* ClipOp.Intersect, anti-aliased *)
| clipRect (rect : list Q)            (* ClipOp.Intersect, anti-aliased *)
| drawPath (path paint : Handle)
| drawRect (rect : list Q) (paint : Handle)
| drawText (text : JS.JSString) (tx ty : Q) (paint font : Handle)
| SetPDFTagId (id : Z)
| external (what : N)                 (* a call of a part left abstract *)
(* constructors of native objects *)
| newPaint (h : Handle)
| copyPaint (h src : Handle)
| newPath (h : Handle)
| newFont (h : Handle) (typeface : option Typeface) (size : option Q)
| MakeBlur (h : Handle) (sigma : Q)
| MakeDash (h : Handle) (intervals : list Q) (phase : Q)
| MakeLinearGradient (h : Handle) (p0 p1 : list Q)
    (colors : list Float32Array) (positions : list Q)
| MakeRadialGradient (h : Handle) (center : list Q) (radius : Q)
    (colors : list Float32Array) (positions : list Q)
| MakeImageFromCanvasImageSource (h : Handle)
| makeShaderCubic (h image : Handle)  (* TileMode.Repeat twice, 1/3, 1/3 *)
| delete (h : Handle)
(* paths *)
| moveTo (h : Handle) (px py : Q)
| lineTo (h : Handle) (px py : Q)
| cubicTo (h : Handle) (c1x c1y c2x c2y ex ey : Q)
| addRect (h : Handle) (rect : list Q)
(* paints and fonts *)
| setStyle (h : Handle) (s : PaintStyle)
| setAntiAlias (h : Handle) (on : bool)
| setColor (h : Handle) (c : PaintColor)
| setStrokeWidth (h : Handle) (w : Q)
| setPathEffect (h effect : Handle)
| setMaskFilter (h filter : Handle)
| setShader (h shader : Handle)
| setSize (h : Handle) (size : Q)
| setTypeface (h : Handle) (t : Typeface)
| setSubpixel (h : Handle) (on : bool).

Definition Trace := list Call.

(** Nesting depth of the canvas' save/restore stack after a trace, relative
    to the depth before it. *)
Fixpoint saveDepth (tr : Trace) : Z :=
  match tr with
  | save :: tr' => (saveDepth tr' + 1)%Z
  | restore :: tr' => (saveDepth tr' - 1)%Z
  | _ :: tr' => saveDepth tr'
  | [] => 0%Z
  end.

(** The handle a call creates, when it is a constructor. *)
Definition created (c : Call) : option Handle :=
  match c with
  | newPaint h | copyPaint h _ | newPath h | newFont h _ _
  | MakeBlur h _ | MakeDash h _ _ | MakeLinearGradient h _ _ _ _
  | MakeRadialGradient h _ _ _ _ | MakeImageFromCanvasImageSource h
  | makeShaderCubic h _ => Some h
  | _ => None
  end.

(** The native objects alive after one more call: a constructor adds its
    object, [delete] removes the one it is called on. *)
Definition liveStep (live : list Handle) (c : Call) : list Handle :=
  match c with
  | delete h => filter (fun h' => negb (h' =? h)%N) live
  | _ => match created c with
         | Some h => live ++ [h]
         | None => live
         end
  end.

(** Native objects a trace has created and not yet deleted, oldest first. *)
Fixpoint liveAfter (live : list Handle) (tr : Trace) : list Handle :=
  match tr with
  | [] => live
  | c :: tr' => liveAfter (liveStep live c) tr'
  end.

Definition leaked (tr : Trace) : list Handle := liveAfter [] tr.

End CanvasKit.
Import CanvasKit.

(** What the renderer may find in [this.canvasKit], and how the native
    fonts answer: the parts of the backend whose presence or result the
    source tests. *)
Record CanvasKitAPI := {
  (** [canvasKit.parseColorString]: absent ([None]) or a function that
      answers a colour or throws ([None]). *)
  parseColorString : option (JS.JSString -> option Float32Array);
  (** whether [canvasKit.Color4f] is defined *)
  has_Color4f : bool;
  (** whether a paint has [setAntiAlias], a font [setSubpixel] *)
  has_setAntiAlias : bool;
  has_setSubpixel : bool;
  (** [canvasKit.Shader?.MakeLinearGradient]: absent, or a function that
      answers a shader ([true]) or null ([false]). *)
  Shader_MakeLinearGradient :
    option (list Q -> list Q -> list Float32Array -> list Q -> bool);
  Shader_MakeRadialGradient :
    option (list Q -> Q -> list Float32Array -> list Q -> bool);
  (** [font.getGlyphIDs(text)] of a font with this typeface *)
  Font_getGlyphIDs : option Typeface -> JS.JSString -> list N;
  (** [font.getGlyphWidths(glyphs, paint)] of a font with this typeface
      and size *)
  Font_getGlyphWidths : option Typeface -> Q -> list N -> Handle -> list Q
}.

(* ===================================================================== *)
(** * The state of one renderer and its procedures                        *)
(* ===================================================================== *)

(** The mutable fields of a [SkiaRenderer] ([_activeEffects],
    [globalAlpha]) and the backend's allocator of native objects. *)
Record Renderer := {
  _activeEffects : list IElementEffect;
  globalAlpha : GlobalAlpha.t;
  nextHandle : Handle
}.

(** A method of the renderer: from the state before the call to its
    result, the backend calls it made, and the state after it. *)
Definition M (A : Type) : Type := Renderer -> A * Trace * Renderer.

Definition ret {A} (a : A) : M A := fun r => (a, [], r).

Definition bind {A B} (m : M A) (k : A -> M B) : M B :=
  fun r =>
    let '(a, t1, r1) := m r in
    let '(b, t2, r2) := k a r1 in
    (b, t1 ++ t2, r2).

Declare Scope render_scope.
Delimit Scope render_scope with render.
Notation "x <- m ;; k" := (bind m (fun x => k))
  (at level 61, m at next level, right associativity) : render_scope.
Notation "m ;; k" := (bind m (fun _ => k))
  (at level 61, right associativity) : render_scope.
Local Open Scope render_scope.

Definition resultOf {A} (o : A * Trace * Renderer) : A := fst (fst o).
Definition traceOf {A} (o : A * Trace * Renderer) : Trace := snd (fst o).
Definition stateOf {A} (o : A * Trace * Renderer) : Renderer := snd o.

(** One backend call. *)
Definition call (c : Call) : M unit := fun r => (tt, [c], r).

(** Construction of a native object: the backend hands out a new handle. *)
Definition alloc (mk : Handle -> Call) : M Handle :=
  fun r =>
    (nextHandle r, [mk (nextHandle r)],
     {| _activeEffects := _activeEffects r;
        globalAlpha := globalAlpha r;
        nextHandle := N.succ (nextHandle r) |}).

Definition when (b : bool) (m : M unit) : M unit :=
  if b then m else ret tt.

(** [xs.forEach(f)] and [for (const x of xs) await f(x)]. *)
Definition forEach {A} (f : A -> M unit) : list A -> M unit :=
  fix go (xs : list A) : M unit :=
    match xs with
    | [] => ret tt
    | a :: xs' => f a ;; go xs'
    end.

(** [paths.forEach((point, index) => ...)]: the index counts from 0. *)
Fixpoint forEachFrom {A} (f : A -> nat -> M unit) (i : nat) (xs : list A)
  : M unit :=
  match xs with
  | [] => ret tt
  | a :: xs' => f a i ;; forEachFrom f (S i) xs'
  end.

Definition forEachIndexed {A} (f : A -> nat -> M unit) (xs : list A) : M unit :=
  forEachFrom f 0 xs.

Definition readAlpha : M Q := fun r => (GlobalAlpha.value (globalAlpha r), [], r).

Definition pushAlpha (v : Q) : M unit :=
  fun r => (tt, [],
            {| _activeEffects := _activeEffects r;
               globalAlpha := GlobalAlpha.push v (globalAlpha r);
               nextHandle := nextHandle r |}).

Definition popAlpha : M Q :=
  fun r => (fst (GlobalAlpha.pop (globalAlpha r)), [],
            {| _activeEffects := _activeEffects r;
               globalAlpha := snd (GlobalAlpha.pop (globalAlpha r));
               nextHandle := nextHandle r |}).

(** [this._activeEffects.push(effect)] *)
Definition pushActive (e : IElementEffect) : M unit :=
  fun r => (tt, [],
            {| _activeEffects := _activeEffects r ++ [e];
               globalAlpha := globalAlpha r;
               nextHandle := nextHandle r |}).

(** [this._activeEffects.pop()]: [undefined] on the empty array. *)
Definition popActive : M (option IElementEffect) :=
  fun r =>
    match _activeEffects r with
    | [] => (None, [], r)
    | e :: es =>
        (Some (last es e), [],
         {| _activeEffects := removelast (e :: es);
            globalAlpha := globalAlpha r;
            nextHandle := nextHandle r |})
    end.

(** The fields of a fresh renderer (the constructor's [scale] and
    [translate] calls on the canvas come before any method runs). *)
Definition newRenderer (firstHandle : Handle) : Renderer :=
  {| _activeEffects := [];
     globalAlpha := GlobalAlpha.init;
     nextHandle := firstHandle |}.

(* ===================================================================== *)
(** * The data the renderer reads                                         *)
(* ===================================================================== *)

(** Modelled from the spec: [Color], [asString] and [isTransparent]
    ([src/css/types/color.ts], [color-utilities.ts]) are not among the
    source files.  A colour is represented by what these two functions
    answer for it.  The tests of [asString] show the strings it writes:
    [rgb(r,g,b)] for an opaque colour and [rgba(r,g,b,a)] otherwise, with
    the channels as decimal integers, whatever notation the colour was
    parsed from ([#000] gives [rgb(0,0,0)], [#000c] gives
    [rgba(0,0,0,0.8)]). *)
Record Color := {
  asString : JS.JSString;
  isTransparent : bool
}.

(** [Bounds] of [src/css/layout/bounds.ts]. *)
Record Bounds := {
  left : Q;
  top : Q;
  width : Q;
  height : Q
}.

(** [TextBounds] of [src/css/layout/text.ts]. *)
Record TextBounds := {
  text : JS.JSString;
  bounds : Bounds
}.

Record TextContainer := {
  textBounds : list TextBounds
}.

(** One entry of [styles.textShadow] / [styles.boxShadow]; the lengths are
    the [.number] of their tokens. *)
Record TextShadow := {
  ts_color : Color;
  ts_offsetX : Q;
  ts_offsetY : Q;
  ts_blur : Q
}.

Record BoxShadow := {
  bs_color : Color;
  bs_offsetX : Q;
  bs_offsetY : Q;
  bs_blur : Q;
  bs_spread : Q;
  bs_inset : bool
}.

Inductive BORDER_STYLE :=
| NONE      (* 0 *)
| SOLID     (* 1 *)
| DASHED    (* 2 *)
| DOTTED    (* 3 *)
| DOUBLE.   (* 4 *)

Definition isDASHED (s : BORDER_STYLE) : bool :=
  match s with DASHED => true | _ => false end.
Definition isDOTTED (s : BORDER_STYLE) : bool :=
  match s with DOTTED => true | _ => false end.

Inductive PAINT_ORDER_LAYER :=
| FILL      (* 0 *)
| STROKE    (* 1 *)
| MARKERS.  (* 2 *)

Inductive TEXT_DECORATION_LINE :=
| TDL_NONE       (* 0 *)
| UNDERLINE      (* 1 *)
| OVERLINE       (* 2 *)
| LINE_THROUGH   (* 3 *)
| BLINK.         (* 4 *)

Inductive BACKGROUND_CLIP :=
| BORDER_BOX     (* 0 *)
| PADDING_BOX    (* 1 *)
| CONTENT_BOX.   (* 2 *)

(** A colour stop after [processColorStops]. *)
Record ColorStop := {
  cs_color : Color;
  cs_stop : Q
}.

(** What [calculateBackgroundRendering(container, index, ...)] answers:
    [[path, x, y, width, height]]. *)
Record BackgroundRendering := {
  br_path : list Path;
  br_x : Q;
  br_y : Q;
  br_width : Q;
  br_height : Q
}.

(** One layer of [styles.backgroundImage].  The layout helpers of
    [src/render/background.ts] and [src/css/types/functions/gradient.ts]
    are not among the source files: a layer carries what they answer for
    it ([calculateBackgroundRendering], [calculateGradientDirection],
    [getAbsoluteValue] of the position, [calculateRadius], and
    [processColorStops] as a function of the line length).  For a URL layer
    [url_image] says what the resource cache and the image conversion give:
    [None] when the cache has no image, the conversion fails or either
    throws, and the new image's handle is taken when there is one. *)
Inductive BackgroundImage :=
| CSSURLImage (rendering : BackgroundRendering) (url_image : bool)
| LinearGradient (rendering : BackgroundRendering)
    (direction : Q * Q * Q * Q * Q)       (* lineLength, x0, x1, y0, y1 *)
    (stops : Q -> list ColorStop)
| RadialGradient (rendering : BackgroundRendering)
    (position_x position_y : Q)
    (radius : Q * Q)
    (stops : Q -> list ColorStop)
| OtherImage.

Record Border := {
  style : BORDER_STYLE;
  color : Color;
  b_width : Q
}.

(** The fields of [CSSParsedDeclaration] the renderer reads.
    [isVisible] is the answer of [styles.isVisible()];
    [backgroundClip0] is [getBackgroundValueForIndex(styles.backgroundClip, 0)];
    [fontSize] is [styles.fontSize.number]; [matchedTypeface] is the first
    typeface the font provider matches for the style's families followed by
    ['Roboto']; [baseline] and [middle] are what
    [fontMetrics.getMetrics] answers for the style's font. *)
Record CSSParsedDeclaration := {
  isVisible : bool;
  backgroundColor : Color;
  backgroundImage : list BackgroundImage;
  backgroundClip0 : BACKGROUND_CLIP;
  boxShadow : list BoxShadow;
  borderTop : Border;
  borderRight : Border;
  borderBottom : Border;
  borderLeft : Border;
  s_color : Color;
  letterSpacing : Q;
  textShadow : list TextShadow;
  paintOrder : list PAINT_ORDER_LAYER;
  textDecorationLine : list TEXT_DECORATION_LINE;
  textDecorationColor : option Color;
  webkitTextStrokeWidth : Q;
  webkitTextStrokeColor : Color;
  fontSize : Q;
  matchedTypeface : option Typeface;
  baseline : Q;
  middle : Q
}.

(** What [parsePathForBorder] answers: the four corner segments of one
    side's trapezoid, so [boxPaths[0]] and [boxPaths[1]] exist. *)
Record BorderPath := {
  boxPath0 : Path;
  boxPath1 : Path;
  boxPathRest : list Path
}.

Definition boxPathList (p : BorderPath) : list Path :=
  boxPath0 p :: boxPath1 p :: boxPathRest p.

(** Modelled from the spec: [BoundCurves] and the path functions of
    [src/render/bound-curves.ts] and [src/render/border.ts] are not among
    the source files.  The curves of a box are represented by what those
    functions answer for them. *)
Record BoundCurves := {
  calculateBorderBoxPath : list Path;
  calculatePaddingBoxPath : list Path;
  calculateContentBoxPath : list Path;
  parsePathForBorder : nat -> BorderPath;
  parsePathForBorderStroke : nat -> list Path;
  parsePathForBorderDoubleOuter : nat -> list Path;
  parsePathForBorderDoubleInner : nat -> list Path
}.

(** The part of an [ElementContainer] the modelled methods read.  A
    [pdfTagNodeId] that is undefined or [0] is falsy. *)
Record ElementContainer := {
  styles : CSSParsedDeclaration;
  textNodes : list TextContainer;
  c_bounds : Bounds;
  pdfTagNodeId : option Z;
  containerId : N
}.

(** [EffectTarget]: [BACKGROUND_BORDERS = 1 << 1], [CONTENT = 1 << 2]. *)
Inductive EffectTarget :=
| BACKGROUND_BORDERS
| CONTENT.

(** Modelled from the spec: [ElementPaint] and [StackingContext]
    ([src/render/stacking-context.ts]) are not among the source files.
    An element paint owns its container, its curves and the list of
    effects requested for each target ([getEffects]); a stacking
    context is an element paint with seven ordered buckets. *)
Record ElementPaint := {
  container : ElementContainer;
  curves : BoundCurves;
  getEffects : EffectTarget -> list IElementEffect
}.

#[local] Unset Elimination Schemes.
Inductive StackingContext := {
  element : ElementPaint;
  negativeZIndex : list StackingContext;
  zeroOrAutoZIndexOrTransformedOrOpacity : list StackingContext;
  positiveZIndex : list StackingContext;
  nonPositionedFloats : list StackingContext;
  nonPositionedInlineLevel : list StackingContext;
  inlineLevel : list ElementPaint;
  nonInlineLevel : list ElementPaint
}.
#[local] Set Elimination Schemes.

(** [SkiaRenderOptions] *)
Record SkiaRenderOptions := {
  scale : Q;
  o_x : Q;
  o_y : Q;
  o_width : Q;
  o_height : Q;
  o_backgroundColor : option Color;
  (** [fallbackFontProvider?.getFallbackFontTypeface] *)
  fallbackFontProvider : option (JS.JSString -> option Typeface)
}.

(** A native font as the renderer holds it: the handle of the object and
    the typeface and size it was given. *)
Record SkiaFont := {
  fontHandle : Handle;
  fontTypeface : option Typeface;
  getSize : Q
}.

(* ===================================================================== *)
(** * class SkiaRenderer                                                  *)
(* ===================================================================== *)

(** The capture group of the first match of [/rgba?\(([^)]+)\)/] that
    starts at the head of [s]. *)
Definition matchRgbaAt (s : JS.JSString) : option JS.JSString :=
  if JS.startsWith (JS.str "rgb") s then
    let afterOpen :=
      match skipn 3 s with
      | 97%N :: 40%N :: r => Some r          (* a( *)
      | 40%N :: r => Some r                  (* (  *)
      | _ => None
      end in
    match afterOpen with
    | Some r =>
        match JS.span (fun c => negb (c =? 41)%N) r with
        | ((_ :: _) as g, 41%N :: _) => Some g
        | _ => None
        end
    | None => None
    end
  else None.

(** [colorString.match(/rgba?\(([^)]+)\)/)]: the capture group of the
    leftmost match, [None] for [null]. *)
Fixpoint matchRgba (s : JS.JSString) : option JS.JSString :=
  match matchRgbaAt s with
  | Some g => Some g
  | None =>
      match s with
      | [] => None
      | _ :: s' => matchRgba s'
      end
  end.

(** The dash and space lengths of [renderDashedDottedBorder] before the
    balancing ([let dashLength = ...] to the end of the [DOTTED] test). *)
Definition baseDashLength (style : BORDER_STYLE) (width : Q) : Q :=
  if isDOTTED style then width
  else if Qlt_le_dec width 3 then width * 3 else width * 2.

Definition baseSpaceLength (style : BORDER_STYLE) (width : Q) : Q :=
  if isDOTTED style then width
  else if Qlt_le_dec width 3 then width * 2 else width.

(** [Math.floor] and [Math.abs] *)
Definition Math_floor (q : Q) : Q := inject_Z (Qfloor q).
Definition Math_abs (q : Q) : Q := Qabs q.
Definition Math_ceil (q : Q) : Q := inject_Z (Qceiling q).
(** [Math.round]: the nearest integer, halves towards positive infinity. *)
Definition Math_round (q : Q) : Q := inject_Z (Qfloor (q + (1 # 2))).

Definition Qleb (a b : Q) : bool := if Qlt_le_dec b a then false else true.
Definition Qltb (a b : Q) : bool := if Qlt_le_dec a b then true else false.
Definition Qgtb (a b : Q) : bool := Qltb b a.

(** The balancing of [renderDashedDottedBorder] ("Calculate dash and space
    lengths for border patterns"): the final [(dashLength, spaceLength)]
    from the base lengths and the length of the side. *)
Definition balanceDash (dashLength spaceLength length : Q) : Q * Q :=
  if Qleb length (dashLength * 2) then
    (dashLength, spaceLength)
  else if Qleb length (dashLength * 2 + spaceLength) then
    let multiplier := length / (2 * dashLength + spaceLength) in
    (dashLength * multiplier, spaceLength * multiplier)
  else
    let numberOfDashes :=
      Math_floor ((length + spaceLength) / (dashLength + spaceLength)) in
    let minSpace :=
      (length - numberOfDashes * dashLength) / (numberOfDashes - 1) in
    let maxSpace :=
      (length - (numberOfDashes + 1) * dashLength) / numberOfDashes in
    (dashLength,
     if Qleb maxSpace 0
        || Qltb (Math_abs (spaceLength - minSpace))
                (Math_abs (spaceLength - maxSpace))
     then minSpace else maxSpace).

(** The pattern a side of the given style, width and length is stroked
    with: base lengths, then the balancing. *)
Definition dashPattern (style : BORDER_STYLE) (width length : Q) : Q * Q :=
  balanceDash (baseDashLength style width) (baseSpaceLength style width) length.

(** [xs.reduce(f, init)] with a stateful [f]. *)
Definition reduce {A B} (f : B -> A -> M B) : list A -> B -> M B :=
  fix go (xs : list A) (acc : B) : M B :=
    match xs with
    | [] => ret acc
    | a :: xs' => acc' <- f acc a ;; go xs' acc'
    end.

Definition isEmpty {A} (l : list A) : bool :=
  match l with [] => true | _ :: _ => false end.

(** [glyphIDs.length === 0 || glyphIDs.some(id => id === 0)] *)
Definition glyphsMissing (glyphIDs : list N) : bool :=
  isEmpty glyphIDs || existsb (fun id => (id =? 0)%N) glyphIDs.

(* ===================================================================== *)
(** * Concrete inputs                                                     *)
(* ===================================================================== *)

(** The inputs the closed examples below run the renderer on. *)
Module Sample.

(** A backend with every optional entry point; the typeface [7] covers
    every code unit with glyphs 12 wide, any other font has glyphs 8 wide
    for ASCII and no glyph (id 0) beyond it. *)
Definition canvasKit : CanvasKitAPI :=
  {| parseColorString := None;
     has_Color4f := true;
     has_setAntiAlias := true;
     has_setSubpixel := true;
     Shader_MakeLinearGradient := Some (fun _ _ _ _ => true);
     Shader_MakeRadialGradient := Some (fun _ _ _ _ => true);
     Font_getGlyphIDs :=
       fun tf s =>
         match tf with
         | Some 7%N => s
         | _ => map (fun c => if (c <? 128)%N then c else 0%N) s
         end;
     Font_getGlyphWidths :=
       fun tf _ ids _ =>
         map (fun _ => match tf with Some 7%N => 12 | _ => 8 end) ids |}.

(** The same backend without [Shader.MakeRadialGradient]. *)
Definition canvasKitWithoutRadial : CanvasKitAPI :=
  {| parseColorString := None;
     has_Color4f := true;
     has_setAntiAlias := true;
     has_setSubpixel := true;
     Shader_MakeLinearGradient := Some (fun _ _ _ _ => true);
     Shader_MakeRadialGradient := None;
     Font_getGlyphIDs := Font_getGlyphIDs canvasKit;
     Font_getGlyphWidths := Font_getGlyphWidths canvasKit |}.

(** A backend whose fonts measure glyph by glyph: in the typeface [7] the
    glyph of a code unit is the code unit itself and is 12 wide, and the
    glyph 0 (".notdef", drawn for what the font lacks) is 5 wide; any other
    font has glyphs 8 wide for ASCII, and its glyph 0 is 3 wide. *)
Definition canvasKitByGlyph : CanvasKitAPI :=
  {| parseColorString := None;
     has_Color4f := true;
     has_setAntiAlias := true;
     has_setSubpixel := true;
     Shader_MakeLinearGradient := Some (fun _ _ _ _ => true);
     Shader_MakeRadialGradient := Some (fun _ _ _ _ => true);
     Font_getGlyphIDs := Font_getGlyphIDs canvasKit;
     Font_getGlyphWidths :=
       fun tf _ ids _ =>
         map (fun id =>
                match tf with
                | Some 7%N => if (id =? 0)%N then 5 else 12
                | _ => if (id =? 0)%N then 3 else 8
                end) ids |}.

Definition fallbackTypeface : Typeface := 7%N.

Definition options : SkiaRenderOptions :=
  {| scale := 1; o_x := 0; o_y := 0; o_width := 200; o_height := 100;
     o_backgroundColor := None;
     fallbackFontProvider := Some (fun _ => Some fallbackTypeface) |}.

(** One grapheme per code unit. *)
Definition segmentGraphemes (s : JS.JSString) : list JS.JSString :=
  map (fun c => [c]) s.

Definition transformPath (p : list Path) (_ _ _ _ : Q) : list Path := p.

Definition renderOtherContent (_ : ElementPaint) (_ : Q) (h : Handle)
  : Trace * Handle := ([], h).

Definition red : Color :=
  {| asString := JS.str "rgb(255,0,0)"; isTransparent := false |}.
Definition gray : Color :=
  {| asString := JS.str "rgb(128,128,128)"; isTransparent := false |}.
Definition transparent : Color :=
  {| asString := JS.str "rgba(0,0,0,0)"; isTransparent := true |}.

Definition noBorder : Border :=
  {| style := NONE; color := transparent; b_width := 0 |}.

Definition plainStyles : CSSParsedDeclaration :=
  {| isVisible := true;
     backgroundColor := transparent;
     backgroundImage := [];
     backgroundClip0 := BORDER_BOX;
     boxShadow := [];
     borderTop := noBorder; borderRight := noBorder;
     borderBottom := noBorder; borderLeft := noBorder;
     s_color := red;
     letterSpacing := 0;
     textShadow := [];
     paintOrder := [FILL; STROKE; MARKERS];
     textDecorationLine := [];
     textDecorationColor := None;
     webkitTextStrokeWidth := 0;
     webkitTextStrokeColor := red;
     fontSize := 16;
     matchedTypeface := Some 3%N;
     baseline := 12;
     middle := 6 |}.

Definition shadow : TextShadow :=
  {| ts_color := gray; ts_offsetX := 2; ts_offsetY := 3; ts_blur := 4 |}.

(** [plainStyles] with one text shadow. *)
Definition shadowedStyles : CSSParsedDeclaration :=
  {| isVisible := true;
     backgroundColor := transparent;
     backgroundImage := [];
     backgroundClip0 := BORDER_BOX;
     boxShadow := [];
     borderTop := noBorder; borderRight := noBorder;
     borderBottom := noBorder; borderLeft := noBorder;
     s_color := red;
     letterSpacing := 0;
     textShadow := [shadow];
     paintOrder := [FILL; STROKE; MARKERS];
     textDecorationLine := [];
     textDecorationColor := None;
     webkitTextStrokeWidth := 0;
     webkitTextStrokeColor := red;
     fontSize := 16;
     matchedTypeface := Some 3%N;
     baseline := 12;
     middle := 6 |}.

Definition box : Bounds :=
  {| left := 10; top := 20; width := 100; height := 20 |}.

(** The text "Hi" in [box]. *)
Definition hi : TextBounds := {| text := JS.str "Hi"; bounds := box |}.

(** "A", then the code unit U+4E2D (a CJK ideograph), then "B". *)
Definition mixed : TextBounds :=
  {| text := [65; 20013; 66]%N; bounds := box |}.

Definition font : SkiaFont :=
  {| fontHandle := 0%N; fontTypeface := Some 3%N; getSize := 16 |}.

Definition corner (px py : Q) : Path := PVector {| x := px; y := py |}.

(** The top side of a 100 by 20 box with borders 2 wide. *)
Definition topSide : BorderPath :=
  {| boxPath0 := corner 0 0;
     boxPath1 := corner 100 0;
     boxPathRest := [corner 98 2; corner 2 2] |}.

Definition boxCurves : BoundCurves :=
  {| calculateBorderBoxPath :=
       [corner 0 0; corner 100 0; corner 100 20; corner 0 20];
     calculatePaddingBoxPath :=
       [corner 2 2; corner 98 2; corner 98 18; corner 2 18];
     calculateContentBoxPath :=
       [corner 2 2; corner 98 2; corner 98 18; corner 2 18];
     parsePathForBorder := fun _ => topSide;
     parsePathForBorderStroke := fun _ => [corner 1 1; corner 99 1];
     parsePathForBorderDoubleOuter := fun _ => boxPathList topSide;
     parsePathForBorderDoubleInner := fun _ => boxPathList topSide |}.

Definition textNode : TextContainer := {| textBounds := [hi] |}.

Definition containerOf (st : CSSParsedDeclaration) (texts : list TextContainer)
    (id : N) : ElementContainer :=
  {| styles := st; textNodes := texts; c_bounds := box;
     pdfTagNodeId := None; containerId := id |}.

(** A paint with no effects. *)
Definition paintOf (st : CSSParsedDeclaration) (id : N) : ElementPaint :=
  {| container := containerOf st [] id;
     curves := boxCurves;
     getEffects := fun _ => [] |}.

(** A paint that asks for opacity 1/2 on its background and borders and on
    its content. *)
Definition fadedPaint (id : N) : ElementPaint :=
  {| container := containerOf plainStyles [] id;
     curves := boxCurves;
     getEffects := fun _ => [OpacityEffect (1 # 2)] |}.

Definition leaf (p : ElementPaint) : StackingContext :=
  {| element := p;
     negativeZIndex := []; zeroOrAutoZIndexOrTransformedOrOpacity := [];
     positiveZIndex := []; nonPositionedFloats := [];
     nonPositionedInlineLevel := []; inlineLevel := []; nonInlineLevel := [] |}.

(** A context with one entry in each of the seven buckets; the paints are
    numbered by the step of the painting order that reaches them. *)
Definition tree : StackingContext :=
  {| element := paintOf plainStyles 1;
     negativeZIndex := [leaf (paintOf plainStyles 2)];
     zeroOrAutoZIndexOrTransformedOrOpacity := [leaf (fadedPaint 7)];
     positiveZIndex := [leaf (paintOf plainStyles 8)];
     nonPositionedFloats := [leaf (paintOf plainStyles 5)];
     nonPositionedInlineLevel := [leaf (paintOf plainStyles 6)];
     inlineLevel := [paintOf plainStyles 60];
     nonInlineLevel := [paintOf plainStyles 4] |}.

Definition parseStackingContexts (_ : ElementContainer) : StackingContext :=
  tree.

(** A radial layer over [box] with its centre in the middle. *)
Definition rendering : BackgroundRendering :=
  {| br_path := [corner 10 20; corner 110 20; corner 110 40; corner 10 40];
     br_x := 10; br_y := 20; br_width := 100; br_height := 20 |}.

Definition stops (_ : Q) : list ColorStop :=
  [{| cs_color := red; cs_stop := 0 |}; {| cs_color := gray; cs_stop := 1 |}].

End Sample.

(* ===================================================================== *)
(** * Reference definitions used by the statements                        *)
(* ===================================================================== *)

(** One step of the painting order: the background and borders of an
    element, or its own content. *)
Inductive PaintStep :=
| BackgroundAndBorders (e : ElementPaint)
| Content (e : ElementPaint).

(** A descendant node (not a context): background and borders, then
    content, when it is visible. *)
Definition nodeSteps (e : ElementPaint) : list PaintStep :=
  if isVisible (styles (container e))
  then [BackgroundAndBorders e; Content e]
  else [].

(** The painting order of a stacking context as the specification lists
    it (section 4.7, steps 1 to 8), written without reference to the
    renderer: the flat sequence of steps for the whole tree. *)
Fixpoint paintingOrder (stack : StackingContext) : list PaintStep :=
  match stack with
  | Build_StackingContext el negZ zeroAuto posZ floats inlineCtx inlines blocks =>
      if isVisible (styles (container el)) then
        [BackgroundAndBorders el]                 (* step 1 *)
        ++ flat_map paintingOrder negZ            (* step 2 *)
        ++ [Content el]                           (* step 3 *)
        ++ flat_map nodeSteps blocks              (* step 4 *)
        ++ flat_map paintingOrder floats          (* step 5 *)
        ++ (flat_map paintingOrder inlineCtx      (* step 6 *)
            ++ flat_map nodeSteps inlines)
        ++ flat_map paintingOrder zeroAuto        (* step 7 *)
        ++ flat_map paintingOrder posZ            (* step 8 *)
      else []
  end.

(** The opacities of a list of effects, in order. *)
Fixpoint opacities (es : list IElementEffect) : list Q :=
  match es with
  | OpacityEffect o :: es' => o :: opacities es'
  | _ :: es' => opacities es'
  | [] => []
  end.

(** The alpha stack after [GlobalAlpha.pop] has been called once for every
    opacity effect of [active], taken from the last one to the first. *)
Definition unwindAlpha (active : list IElementEffect) (alpha : GlobalAlpha.t)
  : GlobalAlpha.t :=
  fold_left
    (fun a e => if isOpacityEffect e then snd (GlobalAlpha.pop a) else a)
    (rev active) alpha.

(** The invariant that ties the two stacks of a renderer: above its base
    entry the alpha stack holds the opacities of the active effects. *)
Definition stacksAgree (r : Renderer) : Prop :=
  globalAlpha r = GlobalAlpha.init ++ opacities (_activeEffects r).

(** Position of the first call of a trace that satisfies [p]. *)
Fixpoint firstIndex (p : Call -> bool) (tr : Trace) : option nat :=
  match tr with
  | [] => None
  | c :: tr' =>
      if p c then Some 0%nat
      else match firstIndex p tr' with
           | Some n => Some (S n)
           | None => None
           end
  end.

(** Whether a call draws text with the given paint. *)
Definition drawsTextWith (paint : Handle) (c : Call) : bool :=
  match c with
  | drawText _ _ _ p _ => (p =? paint)%N
  | _ => false
  end.

(** Whether a call draws anything. *)
Definition isDraw (c : Call) : bool :=
  match c with
  | drawPath _ _ | drawRect _ _ | drawText _ _ _ _ _ => true
  | _ => false
  end.

(** A step of the painting order by the number of its container: [true]
    for the content step. *)
Definition stepTag (s : PaintStep) : bool * N :=
  match s with
  | BackgroundAndBorders e => (false, containerId (container e))
  | Content e => (true, containerId (container e))
  end.

(** Calls that neither create nor delete a native object and leave the
    save/restore stack of the canvas alone. *)
Definition neutral (c : Call) : bool :=
  match c with
  | save | restore | delete _ => false
  | _ => match created c with Some _ => false | None => true end
  end.

Definition isSaveOrRestore (c : Call) : bool :=
  match c with save | restore => true | _ => false end.

(** The two stacks of a renderer, without the allocator. *)
Definition stacks (r : Renderer) : list IElementEffect * GlobalAlpha.t :=
  (_activeEffects r, globalAlpha r).

Definition withNextHandle (r : Renderer) (h : Handle) : Renderer :=
  {| _activeEffects := _activeEffects r;
     globalAlpha := globalAlpha r;
     nextHandle := h |}.

Section SkiaRenderer.

(** [this.canvasKit] and [this.options]. *)
Variable canvasKit : CanvasKitAPI.
Variable options : SkiaRenderOptions.

(** Functions the renderer imports whose definitions rest on the platform
    or are not among the source files: [segmentGraphemes]
    ([Intl.Segmenter]), [transformPath] ([src/render/path.ts]) and
    [parseStackingContexts] ([src/render/stacking-context.ts]). *)
Variable segmentGraphemes : JS.JSString -> list JS.JSString.
Variable transformPath : list Path -> Q -> Q -> Q -> Q -> list Path.
Variable parseStackingContexts : ElementContainer -> StackingContext.

(** The content of replaced elements, form controls and list markers in
    [renderNodeContent] (images, canvases, SVG, iframes rendered by a
    renderer of their own, check boxes, radio buttons, input values, list
    markers) is left abstract: from the current global alpha and the next
    free handle it gives the backend calls made and the next free handle.
    None of that code touches [_activeEffects] or the alpha stack. *)
Variable renderOtherContent : ElementPaint -> Q -> Handle -> Trace * Handle.

Definition otherContent (paint : ElementPaint) : M unit :=
  fun r =>
    let '(tr, h) :=
      renderOtherContent paint (GlobalAlpha.value (globalAlpha r))
                         (nextHandle r) in
    (tt, tr,
     {| _activeEffects := _activeEffects r;
        globalAlpha := globalAlpha r;
        nextHandle := h |}).

(** [this.canvasKit.Color4f ? Color4f(r, g, b, a) : Color(r', g', b', a)] *)
Definition makeColor (r g b a r' g' b' : JS.number) : Float32Array :=
  if has_Color4f canvasKit then Color4f r g b a
  else CanvasKit.Color r' g' b' a.

(** The manual fallback of [parseColor], after the backend parser. *)
Definition parseColorManual (colorString : JS.JSString) : Float32Array :=
  if JS.startsWith (JS.str "#") colorString then
    let hex := skipn 1 colorString in
    let r := JS.div_const (JS.parseInt16 (JS.slice 0 2 hex)) 255 in
    let g := JS.div_const (JS.parseInt16 (JS.slice 2 4 hex)) 255 in
    let b := JS.div_const (JS.parseInt16 (JS.slice 4 6 hex)) 255 in
    let a := if (6 <? List.length hex)%nat
             then JS.div_const (JS.parseInt16 (JS.slice 6 8 hex)) 255
             else JS.Num 1 in
    makeColor r g b a
              (JS.mul_const r 255) (JS.mul_const g 255) (JS.mul_const b 255)
  else
    let black := makeColor (JS.Num 0) (JS.Num 0) (JS.Num 0) (JS.Num 1)
                           (JS.Num 0) (JS.Num 0) (JS.Num 0) in
    match matchRgba colorString with
    | Some group =>
        let values :=
          map (fun v => JS.parseFloat (JS.trim v)) (JS.split 44 group) in
        if (3 <=? List.length values)%nat then
          let v0 := nth 0 values JS.NaN in
          let v1 := nth 1 values JS.NaN in
          let v2 := nth 2 values JS.NaN in
          let a := if (3 <? List.length values)%nat
                   then nth 3 values JS.NaN else JS.Num 1 in
          makeColor (JS.div_const v0 255) (JS.div_const v1 255)
                    (JS.div_const v2 255) a v0 v1 v2
        else black
    | None => black
    end.

(** [parseColor]: the backend's parser when it is there and does not
    throw, the manual fallback otherwise. *)
Definition parseColor (color : Color) : Float32Array :=
  let colorString := asString color in
  match parseColorString canvasKit with
  | Some parse =>
      match parse colorString with
      | Some c => c
      | None => parseColorManual colorString
      end
  | None => parseColorManual colorString
  end.

Definition parseColorWithAlpha (color : Color) : M PaintColor :=
  alpha <- readAlpha ;;
  ret (multiplyByAlpha (parseColor color) alpha).

Definition createPaint (style : PaintStyle) : M Handle :=
  paint <- alloc newPaint ;;
  call (setStyle paint style) ;;
  when (has_setAntiAlias canvasKit) (call (setAntiAlias paint true)) ;;
  ret paint.

Definition formatSkiaPath (skiaPath : Handle) (paths : list Path) : M unit :=
  forEachIndexed
    (fun point index =>
       let startPoint :=
         match point with PBezier c => start c | PVector v => v end in
       (if (index =? 0)%nat
        then call (moveTo skiaPath (x startPoint) (y startPoint))
        else call (lineTo skiaPath (x startPoint) (y startPoint))) ;;
       match point with
       | PBezier curve =>
           call (cubicTo skiaPath
                   (x (startControl curve)) (y (startControl curve))
                   (x (endControl curve)) (y (endControl curve))
                   (x (end_ curve)) (y (end_ curve)))
       | PVector _ => ret tt
       end)
    paths.

Definition createSkiaPath (paths : list Path) : M Handle :=
  skiaPath <- alloc newPath ;;
  formatSkiaPath skiaPath paths ;;
  ret skiaPath.

Definition applyEffect (effect : IElementEffect) : M unit :=
  call save ;;
  match effect with
  | OpacityEffect opacity => pushAlpha opacity
  | _ => ret tt
  end ;;
  match effect with
  | TransformEffect offsetX offsetY (m0, m1, m2, m3, m4, m5) =>
      call (translate offsetX offsetY) ;;
      call (concat [m0; m2; m4; m1; m3; m5; 0; 0; 1]) ;;
      call (translate (- offsetX) (- offsetY))
  | _ => ret tt
  end ;;
  match effect with
  | ClipEffect path =>
      skiaPath <- createSkiaPath path ;;
      call (clipPath skiaPath) ;;
      call (delete skiaPath)
  | _ => ret tt
  end ;;
  pushActive effect.

Definition popEffect : M unit :=
  effect <- popActive ;;
  call restore ;;
  match effect with
  | Some (OpacityEffect _) => _ <- popAlpha ;; ret tt
  | _ => ret tt
  end.

(** [while (this._activeEffects.length) { this.popEffect(); }]: every
    turn removes one entry, so the length of the array bounds the turns. *)
Fixpoint popWhileActive (turns : nat) : M unit :=
  match turns with
  | O => ret tt
  | S turns' =>
      fun r =>
        if isEmpty (_activeEffects r) then ret tt r
        else (popEffect ;; popWhileActive turns') r
  end.

Definition applyEffects (effects : list IElementEffect) : M unit :=
  (fun r => popWhileActive (List.length (_activeEffects r)) r) ;;
  forEach applyEffect effects.

Definition areGlyphsMissing (font : SkiaFont) (txt : JS.JSString) : bool :=
  glyphsMissing (Font_getGlyphIDs canvasKit (fontTypeface font) txt).

(** One turn of the [reduce] of [renderTextWithLetterSpacing]: draws
    [letter] at [left_] and answers the position of the next one. *)
Definition renderLetter (tb : TextBounds) (letterSpacing baseline_ : Q)
    (paint : Handle) (font : SkiaFont) (left_ : Q) (letter : JS.JSString)
  : M Q :=
  let glyphIDs := Font_getGlyphIDs canvasKit (fontTypeface font) letter in
  fallbackFont <-
    (if glyphsMissing glyphIDs then
       let typeface :=
         match fallbackFontProvider options with
         | Some getFallbackFontTypeface => getFallbackFontTypeface letter
         | None => None
         end in
       match typeface with
       | Some tf =>
           h <- alloc (fun h => newFont h (Some tf) (Some (getSize font))) ;;
           ret (Some {| fontHandle := h;
                        fontTypeface := Some tf;
                        getSize := getSize font |})
       | None => ret None
       end
     else ret None) ;;
  let finalFont :=
    match fallbackFont with Some f => f | None => font end in
  call (drawText letter left_ (top (bounds tb) + baseline_) paint
          (fontHandle finalFont)) ;;
  let widths :=
    Font_getGlyphWidths canvasKit (fontTypeface finalFont) (getSize finalFont)
                        glyphIDs paint in
  match fallbackFont with
  | Some f => call (delete (fontHandle f))
  | None => ret tt
  end ;;
  let letterWidth := match widths with w :: _ => w | [] => 0 end in
  ret (left_ + letterWidth + letterSpacing).

Definition renderTextWithLetterSpacing (tb : TextBounds)
    (letterSpacing baseline_ : Q) (paint : Handle) (font : SkiaFont)
  : M unit :=
  if Qeq_bool letterSpacing 0 && negb (areGlyphsMissing font (text tb)) then
    call (drawText (text tb) (left (bounds tb))
            (top (bounds tb) + baseline_) paint (fontHandle font))
  else
    let letters := segmentGraphemes (text tb) in
    _ <- reduce (renderLetter tb letterSpacing baseline_ paint font)
                letters (left (bounds tb)) ;;
    ret tt.

(** [createSkiaFont]: a new font with the style's size and, when the
    provider matched one, its typeface. *)
Definition createSkiaFont (st : CSSParsedDeclaration) : M SkiaFont :=
  font <- alloc (fun h => newFont h None None) ;;
  call (setSize font (fontSize st)) ;;
  match matchedTypeface st with
  | Some typeface => call (setTypeface font typeface)
  | None => ret tt
  end ;;
  when (has_setSubpixel canvasKit) (call (setSubpixel font true)) ;;
  ret {| fontHandle := font;
         fontTypeface := matchedTypeface st;
         getSize := fontSize st |}.

(** One text shadow of the [FILL] layer of [renderTextNode]. *)
Definition renderTextShadow (tb : TextBounds) (st : CSSParsedDeclaration)
    (fillPaint : Handle) (font : SkiaFont) (textShadow_ : TextShadow)
  : M unit :=
  shadowPaint <- alloc (fun h => copyPaint h fillPaint) ;;
  c <- parseColorWithAlpha (ts_color textShadow_) ;;
  call (setColor shadowPaint c) ;;
  call save ;;
  call (translate (ts_offsetX textShadow_ * scale options)
                  (ts_offsetY textShadow_ * scale options)) ;;
  blurEffect <- alloc (fun h => MakeBlur h (ts_blur textShadow_ / 2)) ;;
  call (setMaskFilter shadowPaint blurEffect) ;;
  renderTextWithLetterSpacing tb (letterSpacing st) (baseline st)
                              shadowPaint font ;;
  call restore ;;
  call (delete shadowPaint) ;;
  call (delete blurEffect).

(** The rectangle of one decoration line. *)
Definition decorationRect (tb : TextBounds) (st : CSSParsedDeclaration)
    (line : TEXT_DECORATION_LINE) : Q * Q * Q * Q :=
  let b := bounds tb in
  match line with
  | UNDERLINE =>
      (left b, Math_round (top b + baseline st),
       left b + width b, Math_round (top b + baseline st) + 1)
  | OVERLINE =>
      (left b, Math_round (top b),
       left b + width b, Math_round (top b) + 1)
  | LINE_THROUGH =>
      (left b, Math_ceil (top b + middle st),
       left b + width b, Math_ceil (top b + middle st) + 1)
  | _ => (0, 0, 0, 0)
  end.

(** The decoration lines of the [FILL] layer
    ([if (styles.textDecorationLine.length) ...]). *)
Definition renderTextDecorations (tb : TextBounds) (st : CSSParsedDeclaration)
  : M unit :=
  if negb (isEmpty (textDecorationLine st)) then
    decorationPaint <- createPaint Fill ;;
    dc <- parseColorWithAlpha
            (match textDecorationColor st with
             | Some c' => c'
             | None => s_color st
             end) ;;
    call (setColor decorationPaint dc) ;;
    forEach
      (fun line =>
         let '(r0, r1, r2, r3) := decorationRect tb st line in
         when (Qgtb r2 r0 && Qgtb r3 r1)
              (call (drawRect [r0; r1; r2; r3] decorationPaint)))
      (textDecorationLine st) ;;
    call (delete decorationPaint)
  else ret tt.

(** The [FILL] case of the paint-order switch of [renderTextNode]. *)
Definition renderTextFill (tb : TextBounds) (st : CSSParsedDeclaration)
    (font : SkiaFont) : M unit :=
  fillPaint <- createPaint Fill ;;
  c <- parseColorWithAlpha (s_color st) ;;
  call (setColor fillPaint c) ;;
  renderTextWithLetterSpacing tb (letterSpacing st) (baseline st)
                              fillPaint font ;;
  (if negb (isEmpty (textShadow st)) && negb (isEmpty (JS.trim (text tb)))
   then forEach (renderTextShadow tb st fillPaint font) (rev (textShadow st))
   else ret tt) ;;
  renderTextDecorations tb st ;;
  call (delete fillPaint).

(** The [STROKE] case. *)
Definition renderTextStroke (tb : TextBounds) (st : CSSParsedDeclaration)
    (font : SkiaFont) : M unit :=
  if negb (Qeq_bool (webkitTextStrokeWidth st) 0)
     && negb (isEmpty (JS.trim (text tb)))
  then
    strokePaint <- createPaint Stroke ;;
    c <- parseColorWithAlpha (webkitTextStrokeColor st) ;;
    call (setColor strokePaint c) ;;
    call (setStrokeWidth strokePaint (webkitTextStrokeWidth st)) ;;
    renderTextWithLetterSpacing tb (letterSpacing st) (baseline st)
                                strokePaint font ;;
    call (delete strokePaint)
  else ret tt.

Definition renderTextNode (txt : TextContainer) (st : CSSParsedDeclaration)
  : M unit :=
  font <- createSkiaFont st ;;
  forEach
    (fun tb =>
       if Qleb (width (bounds tb)) 0 || Qleb (height (bounds tb)) 0
       then ret tt
       else
         forEach
           (fun paintOrderLayer =>
              match paintOrderLayer with
              | FILL => renderTextFill tb st font
              | STROKE => renderTextStroke tb st font
              | MARKERS => ret tt
              end)
           (paintOrder st))
    (textBounds txt) ;;
  call (delete (fontHandle font)).

Definition MASK_OFFSET : Q := 10000.

(** [mask(paths)] *)
Definition mask (paths : list Path) : M unit :=
  maskPath <- alloc newPath ;;
  call (addRect maskPath [0; 0; o_width options; o_height options]) ;;
  formatSkiaPath maskPath (rev paths) ;;
  call (clipPath maskPath) ;;
  call (delete maskPath).

Definition renderRepeat (path : list Path) (shader : Handle)
    (offsetX offsetY : Q) : M unit :=
  skiaPath <- createSkiaPath path ;;
  paint <- createPaint Fill ;;
  call (setShader paint shader) ;;
  call save ;;
  call (translate offsetX offsetY) ;;
  call (drawPath skiaPath paint) ;;
  call restore ;;
  call (delete paint) ;;
  call (delete skiaPath).

(** The [CSSImageType.URL] branch of [renderBackgroundImage]. *)
Definition renderURLLayer (rendering : BackgroundRendering)
    (url_image : bool) : M unit :=
  if url_image then
    skiaImage <- alloc MakeImageFromCanvasImageSource ;;
    shader <- alloc (fun h => makeShaderCubic h skiaImage) ;;
    skiaPath <- createSkiaPath (br_path rendering) ;;
    paint <- createPaint Fill ;;
    call (setShader paint shader) ;;
    call save ;;
    call (translate (br_x rendering) (br_y rendering)) ;;
    call (drawPath skiaPath paint) ;;
    call restore ;;
    call (delete shader) ;;
    call (delete paint) ;;
    call (delete skiaPath) ;;
    call (delete skiaImage)
  else ret tt.

(** The [isLinearGradient] branch. *)
Definition renderLinearGradientLayer (rendering : BackgroundRendering)
    (direction : Q * Q * Q * Q * Q) (stops : Q -> list ColorStop) : M unit :=
  let '(lineLength, x0, x1, y0, y1) := direction in
  let colors := map (fun s => parseColor (cs_color s)) (stops lineLength) in
  let positions := map cs_stop (stops lineLength) in
  shader <-
    match Shader_MakeLinearGradient canvasKit with
    | Some make =>
        if make [x0; y0] [x1; y1] colors positions
        then h <- alloc (fun h => MakeLinearGradient h [x0; y0] [x1; y1]
                                    colors positions) ;;
             ret (Some h)
        else ret None
    | None => ret None
    end ;;
  match shader with
  | Some sh =>
      if Qgtb (br_width rendering) 0 && Qgtb (br_height rendering) 0 then
        renderRepeat (br_path rendering) sh (br_x rendering) (br_y rendering) ;;
        call (delete sh)
      else ret tt
  | None => ret tt
  end.

(** The [isRadialGradient] branch. *)
Definition renderRadialGradientLayer (cont : ElementContainer)
    (rendering : BackgroundRendering) (px py : Q) (radius : Q * Q)
    (stops : Q -> list ColorStop) : M unit :=
  let path := br_path rendering in
  let left_ := br_x rendering in
  let top_ := br_y rendering in
  let width_ := br_width rendering in
  let height_ := br_height rendering in
  let '(rx, ry) := radius in
  if Qgtb rx 0 && Qgtb ry 0 then
    let colors := map (fun s => parseColor (cs_color s)) (stops (rx * 2)) in
    let positions := map cs_stop (stops (rx * 2)) in
    shader <-
      match Shader_MakeRadialGradient canvasKit with
      | Some make =>
          if make [left_ + px; top_ + py] rx colors positions
          then h <- alloc (fun h => MakeRadialGradient h
                                      [left_ + px; top_ + py] rx
                                      colors positions) ;;
               ret (Some h)
          else ret None
      | None => ret None
      end ;;
    match shader with
    | Some sh =>
        skiaPath <- createSkiaPath path ;;
        paint <- createPaint Fill ;;
        call (setShader paint sh) ;;
        (if negb (Qeq_bool rx ry) then
           let midX := left (c_bounds cont) + (1 # 2) * width (c_bounds cont) in
           let midY := top (c_bounds cont) + (1 # 2) * height (c_bounds cont) in
           let f := ry / rx in
           let invF := 1 / f in
           call save ;;
           call (translate midX midY) ;;
           call (concat [1; 0; 0; 0; f; 0; 0; 0; 1]) ;;
           call (translate (- midX) (- midY)) ;;
           call (drawRect [left_;
                           invF * (top_ - midY) + midY;
                           left_ + width_;
                           invF * (top_ - midY) + midY + height_ * invF]
                          paint) ;;
           call restore
         else
           call (drawPath skiaPath paint)) ;;
        call (delete paint) ;;
        call (delete skiaPath) ;;
        call (delete sh)
    | None => ret tt
    end
  else ret tt.

(** [renderBackgroundImage]: the layers from last to first. *)
Definition renderBackgroundImage (cont : ElementContainer) : M unit :=
  forEach
    (fun backgroundImage_ =>
       match backgroundImage_ with
       | CSSURLImage rendering url_image =>
           renderURLLayer rendering url_image
       | LinearGradient rendering direction stops =>
           renderLinearGradientLayer rendering direction stops
       | RadialGradient rendering px py radius stops =>
           renderRadialGradientLayer cont rendering px py radius stops
       | OtherImage => ret tt
       end)
    (rev (backgroundImage (styles cont))).

Definition renderSolidBorder (color_ : Color) (side : nat)
    (curvePoints : BoundCurves) : M unit :=
  path <- createSkiaPath (boxPathList (parsePathForBorder curvePoints side)) ;;
  paint <- createPaint Fill ;;
  c <- parseColorWithAlpha color_ ;;
  call (setColor paint c) ;;
  call (drawPath path paint) ;;
  call (delete paint) ;;
  call (delete path).

Definition renderDoubleBorder (color_ : Color) (width_ : Q) (side : nat)
    (curvePoints : BoundCurves) : M unit :=
  if Qltb width_ 3 then renderSolidBorder color_ side curvePoints
  else
    outerPath <- createSkiaPath (parsePathForBorderDoubleOuter curvePoints side) ;;
    innerPath <- createSkiaPath (parsePathForBorderDoubleInner curvePoints side) ;;
    paint <- createPaint Fill ;;
    c <- parseColorWithAlpha color_ ;;
    call (setColor paint c) ;;
    call (drawPath outerPath paint) ;;
    call (drawPath innerPath paint) ;;
    call (delete paint) ;;
    call (delete outerPath) ;;
    call (delete innerPath).

(** The length of a side: the distance, along the axis of the side,
    between the start of [boxPaths[0]] and the end of [boxPaths[1]]. *)
Definition sideLength (boxPaths : BorderPath) (side : nat) : Q :=
  let '(startX, startY) :=
    match boxPath0 boxPaths with
    | PBezier c => (x (start c), y (start c))
    | PVector v => (x v, y v)
    end in
  let '(endX, endY) :=
    match boxPath1 boxPaths with
    | PBezier c => (x (end_ c), y (end_ c))
    | PVector v => (x v, y v)
    end in
  if (side =? 0)%nat || (side =? 2)%nat
  then Math_abs (startX - endX)
  else Math_abs (startY - endY).

Definition renderDashedDottedBorder (color_ : Color) (width_ : Q)
    (side : nat) (curvePoints : BoundCurves) (style_ : BORDER_STYLE)
  : M unit :=
  call save ;;
  let strokePaths := parsePathForBorderStroke curvePoints side in
  let boxPaths := parsePathForBorder curvePoints side in
  paint <- createPaint Stroke ;;
  c <- parseColorWithAlpha color_ ;;
  call (setColor paint c) ;;
  (if isDASHED style_ then
     boxPath <- createSkiaPath (boxPathList boxPaths) ;;
     call (clipPath boxPath) ;;
     call (delete boxPath)
   else ret tt) ;;
  let length_ := sideLength boxPaths side in
  let '(dashLength, spaceLength) := dashPattern style_ width_ length_ in
  pathEffect <-
    (if isDOTTED style_ then
       call (setStrokeWidth paint width_) ;;
       pe <- alloc (fun h => MakeDash h [0; dashLength + spaceLength] 0) ;;
       call (setPathEffect paint pe) ;;
       ret pe
     else
       call (setStrokeWidth paint (width_ * 2 + (11 # 10))) ;;
       pe <- alloc (fun h => MakeDash h [dashLength; spaceLength] 0) ;;
       call (setPathEffect paint pe) ;;
       ret pe) ;;
  strokePath <-
    (if isDOTTED style_ then createSkiaPath strokePaths
     else createSkiaPath (firstn 2 (boxPathList boxPaths))) ;;
  call (drawPath strokePath paint) ;;
  call (delete paint) ;;
  call (delete strokePath) ;;
  call (delete pathEffect) ;;
  call restore.

Definition calculateBackgroundCurvedPaintingArea (clip : BACKGROUND_CLIP)
    (cv : BoundCurves) : list Path :=
  match clip with
  | BORDER_BOX => calculateBorderBoxPath cv
  | CONTENT_BOX => calculateContentBoxPath cv
  | PADDING_BOX => calculatePaddingBoxPath cv
  end.

(** One box shadow of [renderNodeBackgroundAndBorders]. *)
Definition renderBoxShadow (paint_ : ElementPaint) (shadow : BoxShadow)
  : M unit :=
  call save ;;
  let borderBoxArea := calculateBorderBoxPath (curves paint_) in
  let maskOffset := if bs_inset shadow then 0 else MASK_OFFSET in
  let sign := if bs_inset shadow then 1 else - (1) in
  let shadowPaintingArea :=
    transformPath borderBoxArea
      (- maskOffset + sign * bs_spread shadow)
      (sign * bs_spread shadow)
      (bs_spread shadow * (if bs_inset shadow then - (2) else 2))
      (bs_spread shadow * (if bs_inset shadow then - (2) else 2)) in
  (if bs_inset shadow then
     borderPath <- createSkiaPath borderBoxArea ;;
     call (clipPath borderPath) ;;
     mask shadowPaintingArea ;;
     call (delete borderPath)
   else
     mask borderBoxArea ;;
     shadowPath <- createSkiaPath shadowPaintingArea ;;
     call (clipPath shadowPath) ;;
     call (delete shadowPath)) ;;
  shadowPaint <- createPaint Fill ;;
  (if bs_inset shadow then
     c <- parseColorWithAlpha (bs_color shadow) ;;
     call (setColor shadowPaint c)
   else
     alpha <- readAlpha ;;
     call (setColor shadowPaint
             (multiplyByAlpha
                (Color4f (JS.Num 0) (JS.Num 0) (JS.Num 0) (JS.Num 1))
                alpha))) ;;
  blurEffect <- alloc (fun h => MakeBlur h (bs_blur shadow / 2)) ;;
  call (setMaskFilter shadowPaint blurEffect) ;;
  call save ;;
  call (translate (bs_offsetX shadow + maskOffset) (bs_offsetY shadow)) ;;
  shadowPath <- createSkiaPath shadowPaintingArea ;;
  call (drawPath shadowPath shadowPaint) ;;
  call restore ;;
  call (delete shadowPaint) ;;
  call (delete shadowPath) ;;
  call (delete blurEffect) ;;
  call restore.

(** One turn of the loop over the four borders. *)
Definition renderBorder (paint_ : ElementPaint) (border : Border)
    (side : nat) : M unit :=
  if negb (match style border with NONE => true | _ => false end)
     && negb (isTransparent (color border))
     && Qgtb (b_width border) 0
  then
    match style border with
    | DASHED =>
        renderDashedDottedBorder (color border) (b_width border) side
                                 (curves paint_) DASHED
    | DOTTED =>
        renderDashedDottedBorder (color border) (b_width border) side
                                 (curves paint_) DOTTED
    | DOUBLE =>
        renderDoubleBorder (color border) (b_width border) side
                           (curves paint_)
    | _ => renderSolidBorder (color border) side (curves paint_)
    end
  else ret tt.

Definition renderNodeBackgroundAndBorders (paint_ : ElementPaint) : M unit :=
  applyEffects (getEffects paint_ BACKGROUND_BORDERS) ;;
  let st := styles (container paint_) in
  let hasBackground :=
    negb (isTransparent (backgroundColor st))
    || negb (isEmpty (backgroundImage st)) in
  let borders := [borderTop st; borderRight st; borderBottom st; borderLeft st] in
  let backgroundPaintingArea :=
    calculateBackgroundCurvedPaintingArea (backgroundClip0 st) (curves paint_) in
  (if hasBackground || negb (isEmpty (boxShadow st)) then
     call save ;;
     backgroundPath <- createSkiaPath backgroundPaintingArea ;;
     call (clipPath backgroundPath) ;;
     (if negb (isTransparent (backgroundColor st)) then
        bgPaint <- createPaint Fill ;;
        c <- parseColorWithAlpha (backgroundColor st) ;;
        call (setColor bgPaint c) ;;
        call (drawPath backgroundPath bgPaint) ;;
        call (delete bgPaint)
      else ret tt) ;;
     renderBackgroundImage (container paint_) ;;
     call restore ;;
     call (delete backgroundPath) ;;
     forEach (renderBoxShadow paint_) (rev (boxShadow st))
   else ret tt) ;;
  forEachIndexed (renderBorder paint_) borders.

Definition hasPdfTag (cont : ElementContainer) : option Z :=
  match pdfTagNodeId cont with
  | Some id => if (id =? 0)%Z then None else Some id
  | None => None
  end.

Definition renderNodeContent (paint_ : ElementPaint) : M unit :=
  applyEffects (getEffects paint_ CONTENT) ;;
  let cont := container paint_ in
  let st := styles cont in
  match hasPdfTag cont with
  | Some id => call (SetPDFTagId id)
  | None => ret tt
  end ;;
  forEach (fun child => renderTextNode child st) (textNodes cont) ;;
  otherContent paint_ ;;
  match hasPdfTag cont with
  | Some _ => call (SetPDFTagId 0)
  | None => ret tt
  end.

Definition renderNode (paint_ : ElementPaint) : M unit :=
  if isVisible (styles (container paint_)) then
    renderNodeBackgroundAndBorders paint_ ;;
    renderNodeContent paint_
  else ret tt.

(** [renderStack], with the body of [renderStackContent] in place of the
    call (the two are mutually recursive in the source). *)
Fixpoint renderStack (stack : StackingContext) : M unit :=
  match stack with
  | Build_StackingContext el negZ zeroAuto posZ floats inlineCtx inlines blocks =>
      if isVisible (styles (container el)) then
        renderNodeBackgroundAndBorders el ;;
        forEach renderStack negZ ;;
        renderNodeContent el ;;
        forEach renderNode blocks ;;
        forEach renderStack floats ;;
        forEach renderStack inlineCtx ;;
        forEach renderNode inlines ;;
        forEach renderStack zeroAuto ;;
        forEach renderStack posZ
      else ret tt
  end.

Definition renderStackContent (stack : StackingContext) : M unit :=
  (* 1. the background and borders of the element forming the context *)
  renderNodeBackgroundAndBorders (element stack) ;;
  (* 2. the child stacking contexts with negative stack levels *)
  forEach renderStack (negativeZIndex stack) ;;
  (* 3. in-flow, non-positioned, block-level descendants *)
  renderNodeContent (element stack) ;;
  forEach renderNode (nonInlineLevel stack) ;;
  (* 4. non-positioned floating descendants *)
  forEach renderStack (nonPositionedFloats stack) ;;
  (* 5. in-flow, inline-level, non-positioned descendants *)
  forEach renderStack (nonPositionedInlineLevel stack) ;;
  forEach renderNode (inlineLevel stack) ;;
  (* 6. positioned, opacity or transform descendants *)
  forEach renderStack (zeroOrAutoZIndexOrTransformedOrOpacity stack) ;;
  (* 7. positioned descendants with z-indices of 1 or more *)
  forEach renderStack (positiveZIndex stack).

Definition render (element_ : ElementContainer) : M unit :=
  match o_backgroundColor options with
  | Some backgroundColor_ =>
      bgPaint <- createPaint Fill ;;
      c <- parseColorWithAlpha backgroundColor_ ;;
      call (setColor bgPaint c) ;;
      call (drawRect [o_x options; o_y options;
                      o_x options + o_width options;
                      o_y options + o_height options] bgPaint) ;;
      call (delete bgPaint)
  | None => ret tt
  end ;;
  let stack := parseStackingContexts element_ in
  renderStack stack ;;
  applyEffects [].

(** Runs one step of the painting order. *)
Definition runStep (s : PaintStep) : M unit :=
  match s with
  | BackgroundAndBorders e => renderNodeBackgroundAndBorders e
  | Content e => renderNodeContent e
  end.

(* ===================================================================== *)
(** * Properties of the renderer                                          *)
(* ===================================================================== *)

(** ** The global-alpha stack *)

Lemma GlobalAlpha_pop_top (s : GlobalAlpha.t) (a v : Q) :
  GlobalAlpha.pop (a :: s ++ [v]) = (v, a :: s).
Proof.
  unfold GlobalAlpha.pop.
  replace (a :: s ++ [v]) with ((a :: s) ++ [v]) by reflexivity.
  rewrite last_last, removelast_last, length_app. simpl.
  destruct (List.length s + 1)%nat eqn:E; [lia | reflexivity].
Qed.

Lemma GlobalAlpha_pop_base (a : Q) : GlobalAlpha.pop [a] = (1, [a]).
Proof. reflexivity. Qed.

(** ** Laws of sequencing *)

Lemma bind_ret_l {A B} (a : A) (k : A -> M B) (r : Renderer) :
  bind (ret a) k r = k a r.
Proof. unfold bind, ret. destruct (k a r) as [[b t] r']. reflexivity. Qed.

Lemma bind_assoc {A B C} (m : M A) (k : A -> M B) (k' : B -> M C)
    (r : Renderer) :
  bind (bind m k) k' r = bind m (fun a => bind (k a) k') r.
Proof.
  unfold bind. destruct (m r) as [[a t1] r1].
  destruct (k a r1) as [[b t2] r2]. destruct (k' b r2) as [[c t3] r3].
  rewrite app_assoc. reflexivity.
Qed.

Lemma bind_ext {A B} (m : M A) (k1 k2 : A -> M B) (r : Renderer) :
  (forall a r', k1 a r' = k2 a r') -> bind m k1 r = bind m k2 r.
Proof.
  intros H. unfold bind. destruct (m r) as [[a t1] r1]. rewrite H.
  reflexivity.
Qed.

Lemma bind_ext_l {A B} (m1 m2 : M A) (k : A -> M B) (r : Renderer) :
  m1 r = m2 r -> bind m1 k r = bind m2 k r.
Proof. intros H. unfold bind. rewrite H. reflexivity. Qed.

Lemma forEach_cons {A} (f : A -> M unit) (a : A) (l : list A) (r : Renderer) :
  forEach f (a :: l) r = (f a ;; forEach f l) r.
Proof. reflexivity. Qed.

Lemma forEach_app {A} (f : A -> M unit) (l1 l2 : list A) (r : Renderer) :
  forEach f (l1 ++ l2) r = (forEach f l1 ;; forEach f l2) r.
Proof.
  revert r. induction l1 as [|a l1 IH]; intros r.
  - simpl. rewrite bind_ret_l. reflexivity.
  - simpl. rewrite bind_assoc. apply bind_ext. intros _ r'. apply IH.
Qed.

Lemma forEach_ext {A} (f g : A -> M unit) (l : list A) :
  Forall (fun a => forall r, f a r = g a r) l ->
  forall r, forEach f l r = forEach g l r.
Proof.
  induction 1 as [|a l Ha _ IH]; intros r; simpl.
  - reflexivity.
  - unfold bind. rewrite Ha. destruct (g a r) as [[u t1] r1].
    rewrite IH. reflexivity.
Qed.

Lemma forEach_flat_map {A B} (f : B -> M unit) (g : A -> list B)
    (l : list A) (r : Renderer) :
  forEach f (flat_map g l) r = forEach (fun a => forEach f (g a)) l r.
Proof.
  revert r. induction l as [|a l IH]; intros r; simpl.
  - reflexivity.
  - rewrite forEach_app. apply bind_ext. intros _ r'. apply IH.
Qed.

(** ** Painting order *)

(** Induction over a tree of stacking contexts. *)
Lemma StackingContext_tree_ind (P : StackingContext -> Prop) :
  (forall el negZ zeroAuto posZ floats inlineCtx inlines blocks,
      Forall P negZ -> Forall P zeroAuto -> Forall P posZ ->
      Forall P floats -> Forall P inlineCtx ->
      P (Build_StackingContext el negZ zeroAuto posZ floats inlineCtx
                               inlines blocks)) ->
  forall s, P s.
Proof.
  intros H.
  fix IH 1.
  intros [el negZ zeroAuto posZ floats inlineCtx inlines blocks].
  assert (all : forall l : list StackingContext, Forall P l).
  { fix IHl 1. intros [|c l]; constructor; [apply IH | apply IHl]. }
  apply H; apply all.
Qed.

Lemma renderStack_unfold (stack : StackingContext) (r : Renderer) :
  renderStack stack r =
  (if isVisible (styles (container (element stack)))
   then renderStackContent stack else ret tt) r.
Proof. destruct stack. reflexivity. Qed.

Lemma renderNode_steps (e : ElementPaint) (r : Renderer) :
  renderNode e r = forEach runStep (nodeSteps e) r.
Proof.
  unfold renderNode, nodeSteps.
  destruct (isVisible (styles (container e))); simpl; [|reflexivity].
  apply bind_ext. intros _ r'.
  unfold bind. destruct (renderNodeContent e r') as [[[] t] r''].
  simpl. rewrite app_nil_r. reflexivity.
Qed.

Lemma forEach_renderNode_steps (l : list ElementPaint) (r : Renderer) :
  forEach renderNode l r = forEach runStep (flat_map nodeSteps l) r.
Proof.
  rewrite forEach_flat_map. apply forEach_ext.
  apply Forall_forall. intros e _ r'. apply renderNode_steps.
Qed.

Lemma forEach_renderStack_steps (l : list StackingContext) :
  Forall (fun s => forall r,
              renderStack s r = forEach runStep (paintingOrder s) r) l ->
  forall r,
    forEach renderStack l r = forEach runStep (flat_map paintingOrder l) r.
Proof.
  intros H r. rewrite forEach_flat_map. apply forEach_ext. exact H.
Qed.

Lemma renderStack_as_steps (stack : StackingContext) :
  forall r, renderStack stack r = forEach runStep (paintingOrder stack) r.
Proof.
  induction stack
    as [el negZ zeroAuto posZ floats inlineCtx inlines blocks
        HnegZ HzeroAuto HposZ Hfloats HinlineCtx]
    using StackingContext_tree_ind.
  intros r. simpl.
  destruct (isVisible (styles (container el))); [|reflexivity].
  rewrite forEach_cons. apply bind_ext. intros _ r1.
  rewrite forEach_app.
  apply eq_trans with
    ((forEach runStep (flat_map paintingOrder negZ) ;;
      renderNodeContent el ;;
      forEach renderNode blocks ;;
      forEach renderStack floats ;;
      forEach renderStack inlineCtx ;;
      forEach renderNode inlines ;;
      forEach renderStack zeroAuto ;;
      forEach renderStack posZ) r1).
  { apply bind_ext_l. apply forEach_renderStack_steps, HnegZ. }
  apply bind_ext. intros _ r2.
  rewrite forEach_cons. apply bind_ext. intros _ r3.
  rewrite forEach_app.
  apply eq_trans with
    ((forEach runStep (flat_map nodeSteps blocks) ;;
      forEach renderStack floats ;;
      forEach renderStack inlineCtx ;;
      forEach renderNode inlines ;;
      forEach renderStack zeroAuto ;;
      forEach renderStack posZ) r3).
  { apply bind_ext_l. apply forEach_renderNode_steps. }
  apply bind_ext. intros _ r4.
  rewrite forEach_app.
  apply eq_trans with
    ((forEach runStep (flat_map paintingOrder floats) ;;
      forEach renderStack inlineCtx ;;
      forEach renderNode inlines ;;
      forEach renderStack zeroAuto ;;
      forEach renderStack posZ) r4).
  { apply bind_ext_l. apply forEach_renderStack_steps, Hfloats. }
  apply bind_ext. intros _ r5.
  rewrite <- app_assoc, forEach_app.
  apply eq_trans with
    ((forEach runStep (flat_map paintingOrder inlineCtx) ;;
      forEach renderNode inlines ;;
      forEach renderStack zeroAuto ;;
      forEach renderStack posZ) r5).
  { apply bind_ext_l. apply forEach_renderStack_steps, HinlineCtx. }
  apply bind_ext. intros _ r6.
  rewrite forEach_app.
  apply eq_trans with
    ((forEach runStep (flat_map nodeSteps inlines) ;;
      forEach renderStack zeroAuto ;;
      forEach renderStack posZ) r6).
  { apply bind_ext_l. apply forEach_renderNode_steps. }
  apply bind_ext. intros _ r7.
  rewrite forEach_app.
  apply eq_trans with
    ((forEach runStep (flat_map paintingOrder zeroAuto) ;;
      forEach renderStack posZ) r7).
  { apply bind_ext_l. apply forEach_renderStack_steps, HzeroAuto. }
  apply bind_ext. intros _ r8.
  apply forEach_renderStack_steps, HposZ.
Qed.

(** C1.  [renderStack] on a stacking context, from any state of the
    renderer, does exactly what running the steps of the painting order
    one after the other does (same backend calls in the same order, same
    final state): (1) background and borders of the root, (2) the
    negative-z-index contexts in the order of their bucket (the tree
    builder sorts it ascending), (3) the root's own content, (4) the
    non-positioned block-level nodes, (5) the non-positioned floats, (6)
    the non-positioned inline-level contexts then the inline-level nodes,
    (7) the zero/auto-z-index, transformed or opacity contexts, (8) the
    positive-z-index contexts; and an invisible root makes it do nothing. *)
Theorem renderStack_painting_order :
  (forall stack r,
      renderStack stack r = forEach runStep (paintingOrder stack) r)
  /\ (forall stack r,
         isVisible (styles (container (element stack))) = true ->
         renderStack stack r = renderStackContent stack r
         /\ paintingOrder stack =
            [BackgroundAndBorders (element stack)]
            ++ flat_map paintingOrder (negativeZIndex stack)
            ++ [Content (element stack)]
            ++ flat_map nodeSteps (nonInlineLevel stack)
            ++ flat_map paintingOrder (nonPositionedFloats stack)
            ++ (flat_map paintingOrder (nonPositionedInlineLevel stack)
                ++ flat_map nodeSteps (inlineLevel stack))
            ++ flat_map paintingOrder
                 (zeroOrAutoZIndexOrTransformedOrOpacity stack)
            ++ flat_map paintingOrder (positiveZIndex stack))
  /\ (forall stack r,
         isVisible (styles (container (element stack))) = false ->
         renderStack stack r = (tt, [], r)).
Proof.
  split; [|split].
  - apply renderStack_as_steps.
  - intros stack r Hvis. split.
    + rewrite renderStack_unfold, Hvis. reflexivity.
    + destruct stack. simpl in *. rewrite Hvis. reflexivity.
  - intros stack r Hvis. rewrite renderStack_unfold, Hvis. reflexivity.
Qed.

(** ** Methods that leave the two stacks alone *)

Definition keepsStacks {A} (m : M A) : Prop :=
  forall r, stacks (stateOf (m r)) = stacks r.

Lemma keeps_ret {A} (a : A) : keepsStacks (ret a).
Proof. intros r. reflexivity. Qed.

Lemma keeps_call (c : Call) : keepsStacks (call c).
Proof. intros r. reflexivity. Qed.

Lemma keeps_alloc (mk : Handle -> Call) : keepsStacks (alloc mk).
Proof. intros r. reflexivity. Qed.

Lemma keeps_readAlpha : keepsStacks readAlpha.
Proof. intros r. reflexivity. Qed.

Lemma keeps_otherContent (p : ElementPaint) : keepsStacks (otherContent p).
Proof.
  intros r. unfold otherContent.
  destruct (renderOtherContent p _ _) as [tr h]. reflexivity.
Qed.

Lemma keeps_bind {A B} (m : M A) (k : A -> M B) :
  keepsStacks m -> (forall a, keepsStacks (k a)) -> keepsStacks (bind m k).
Proof.
  intros Hm Hk r. unfold bind.
  specialize (Hm r). destruct (m r) as [[a t1] r1].
  specialize (Hk a r1). destruct (k a r1) as [[b t2] r2].
  unfold stateOf in *. simpl in *. congruence.
Qed.

Lemma keeps_when (b : bool) (m : M unit) :
  keepsStacks m -> keepsStacks (when b m).
Proof. intros H. destruct b; [exact H | apply keeps_ret]. Qed.

Lemma keeps_forEach {A} (f : A -> M unit) (l : list A) :
  (forall a, keepsStacks (f a)) -> keepsStacks (forEach f l).
Proof.
  intros H. induction l as [|a l IH]; simpl.
  - apply keeps_ret.
  - apply keeps_bind; [apply H | intros _; exact IH].
Qed.

Lemma keeps_forEachIndexed {A} (f : A -> nat -> M unit) (l : list A) :
  (forall a i, keepsStacks (f a i)) -> keepsStacks (forEachIndexed f l).
Proof.
  intros H. unfold forEachIndexed. generalize 0%nat.
  induction l as [|a l IH]; intros i; cbn [forEachFrom].
  - apply keeps_ret.
  - apply keeps_bind; [apply H | intros _; apply IH].
Qed.

Lemma keeps_reduce {A B} (f : B -> A -> M B) (l : list A) (b : B) :
  (forall b' a, keepsStacks (f b' a)) -> keepsStacks (reduce f l b).
Proof.
  intros H. revert b. induction l as [|a l IH]; intros b; simpl.
  - apply keeps_ret.
  - apply keeps_bind; [apply H | intros b'; apply IH].
Qed.

Create HintDb stacks.
#[local] Hint Resolve keeps_ret keeps_call keeps_alloc keeps_readAlpha
  keeps_otherContent keeps_when : stacks.

(** Splits a method into its calls until every piece is known to keep the
    stacks. *)
Ltac keeps_step :=
  match goal with
  | |- keepsStacks (bind _ _) => apply keeps_bind; [|intros ?]
  | |- keepsStacks (forEach _ _) => apply keeps_forEach; intros ?
  | |- keepsStacks (forEachIndexed _ _) => apply keeps_forEachIndexed; intros ? ?
  | |- keepsStacks (reduce _ _ _) => apply keeps_reduce; intros ? ?
  | |- keepsStacks (when _ _) => apply keeps_when
  | |- keepsStacks (if ?b then _ else _) => destruct b
  | |- keepsStacks (match ?x with _ => _ end) => destruct x
  | |- keepsStacks _ => solve [auto with stacks]
  end.

Ltac keeps := repeat keeps_step.

Lemma keeps_parseColorWithAlpha (c : Color) : keepsStacks (parseColorWithAlpha c).
Proof. unfold parseColorWithAlpha. keeps. Qed.

Lemma keeps_createPaint (s : PaintStyle) : keepsStacks (createPaint s).
Proof. unfold createPaint. keeps. Qed.

Lemma keeps_formatSkiaPath (h : Handle) (p : list Path) :
  keepsStacks (formatSkiaPath h p).
Proof. unfold formatSkiaPath. keeps. Qed.

#[local] Hint Resolve keeps_parseColorWithAlpha keeps_createPaint
  keeps_formatSkiaPath : stacks.

Lemma keeps_createSkiaPath (p : list Path) : keepsStacks (createSkiaPath p).
Proof. unfold createSkiaPath. keeps. Qed.

#[local] Hint Resolve keeps_createSkiaPath : stacks.

Lemma keeps_renderLetter tb ls bl paint font left_ letter :
  keepsStacks (renderLetter tb ls bl paint font left_ letter).
Proof. unfold renderLetter. keeps. Qed.

#[local] Hint Resolve keeps_renderLetter : stacks.

Lemma keeps_renderTextWithLetterSpacing tb ls bl paint font :
  keepsStacks (renderTextWithLetterSpacing tb ls bl paint font).
Proof. unfold renderTextWithLetterSpacing. keeps. Qed.

Lemma keeps_createSkiaFont st : keepsStacks (createSkiaFont st).
Proof. unfold createSkiaFont. keeps. Qed.

#[local] Hint Resolve keeps_renderTextWithLetterSpacing keeps_createSkiaFont
  : stacks.

Lemma keeps_renderTextShadow tb st p font sh :
  keepsStacks (renderTextShadow tb st p font sh).
Proof. unfold renderTextShadow. keeps. Qed.

#[local] Hint Resolve keeps_renderTextShadow : stacks.

Lemma keeps_renderTextDecorations tb st :
  keepsStacks (renderTextDecorations tb st).
Proof.
  unfold renderTextDecorations. keeps.
Qed.

#[local] Hint Resolve keeps_renderTextDecorations : stacks.

Lemma keeps_renderTextFill tb st font : keepsStacks (renderTextFill tb st font).
Proof. unfold renderTextFill. keeps. Qed.

Lemma keeps_renderTextStroke tb st font :
  keepsStacks (renderTextStroke tb st font).
Proof. unfold renderTextStroke. keeps. Qed.

#[local] Hint Resolve keeps_renderTextFill keeps_renderTextStroke : stacks.

Lemma keeps_renderTextNode txt st : keepsStacks (renderTextNode txt st).
Proof. unfold renderTextNode. keeps. Qed.

Lemma keeps_mask p : keepsStacks (mask p).
Proof. unfold mask. keeps. Qed.

Lemma keeps_renderRepeat p sh ox oy : keepsStacks (renderRepeat p sh ox oy).
Proof. unfold renderRepeat. keeps. Qed.

#[local] Hint Resolve keeps_renderTextNode keeps_mask keeps_renderRepeat
  : stacks.

Lemma keeps_renderURLLayer rd b : keepsStacks (renderURLLayer rd b).
Proof. unfold renderURLLayer. keeps. Qed.

Lemma keeps_renderLinearGradientLayer rd d stops :
  keepsStacks (renderLinearGradientLayer rd d stops).
Proof.
  unfold renderLinearGradientLayer. destruct d as [[[[l x0] x1] y0] y1]. keeps.
Qed.

Lemma keeps_renderRadialGradientLayer cont rd px py rad stops :
  keepsStacks (renderRadialGradientLayer cont rd px py rad stops).
Proof.
  unfold renderRadialGradientLayer. destruct rad as [rx ry]. keeps.
Qed.

#[local] Hint Resolve keeps_renderURLLayer keeps_renderLinearGradientLayer
  keeps_renderRadialGradientLayer : stacks.

Lemma keeps_renderBackgroundImage cont : keepsStacks (renderBackgroundImage cont).
Proof. unfold renderBackgroundImage. keeps. Qed.

Lemma keeps_renderSolidBorder c side cv : keepsStacks (renderSolidBorder c side cv).
Proof. unfold renderSolidBorder. keeps. Qed.

#[local] Hint Resolve keeps_renderBackgroundImage keeps_renderSolidBorder
  : stacks.

Lemma keeps_renderDoubleBorder c w side cv :
  keepsStacks (renderDoubleBorder c w side cv).
Proof. unfold renderDoubleBorder. keeps. Qed.

Lemma keeps_renderDashedDottedBorder c w side cv sty :
  keepsStacks (renderDashedDottedBorder c w side cv sty).
Proof.
  unfold renderDashedDottedBorder.
  destruct (dashPattern sty w _) as [d s]. keeps.
Qed.

Lemma keeps_renderBoxShadow p sh : keepsStacks (renderBoxShadow p sh).
Proof. unfold renderBoxShadow. keeps. Qed.

#[local] Hint Resolve keeps_renderDoubleBorder keeps_renderDashedDottedBorder
  keeps_renderBoxShadow : stacks.

Lemma keeps_renderBorder p b side : keepsStacks (renderBorder p b side).
Proof. unfold renderBorder. keeps. Qed.

#[local] Hint Resolve keeps_renderBorder : stacks.

(** ** The effect stack *)

Lemma unwindAlpha_snoc (l : list IElementEffect) (e : IElementEffect)
    (alpha : GlobalAlpha.t) :
  unwindAlpha (l ++ [e]) alpha =
  unwindAlpha l (if isOpacityEffect e then snd (GlobalAlpha.pop alpha)
                 else alpha).
Proof. unfold unwindAlpha. rewrite rev_unit. reflexivity. Qed.

Lemma opacities_app (l1 l2 : list IElementEffect) :
  opacities (l1 ++ l2) = opacities l1 ++ opacities l2.
Proof.
  induction l1 as [|e l1 IH]; simpl; [reflexivity|].
  destruct e; simpl; rewrite IH; reflexivity.
Qed.

Lemma popEffect_snoc (l : list IElementEffect) (e : IElementEffect)
    (alpha : GlobalAlpha.t) (h : Handle) :
  popEffect {| _activeEffects := l ++ [e]; globalAlpha := alpha;
               nextHandle := h |} =
  (tt, [restore],
   {| _activeEffects := l;
      globalAlpha := if isOpacityEffect e then snd (GlobalAlpha.pop alpha)
                     else alpha;
      nextHandle := h |}).
Proof.
  unfold popEffect, popActive, bind. simpl.
  destruct l as [|a l]; simpl.
  - destruct e; reflexivity.
  - replace (last (l ++ [e]) a) with e
      by (symmetry; apply (last_last l e a)).
    replace (match l ++ [e] with [] => [] | _ :: _ => a :: removelast (l ++ [e]) end)
      with (a :: l).
    + destruct e; reflexivity.
    + rewrite removelast_last. destruct l; reflexivity.
Qed.

Lemma popWhileActive_all (active : list IElementEffect)
    (alpha : GlobalAlpha.t) (h : Handle) :
  popWhileActive (List.length active)
    {| _activeEffects := active; globalAlpha := alpha; nextHandle := h |} =
  (tt, repeat restore (List.length active),
   {| _activeEffects := [];
      globalAlpha := unwindAlpha active alpha;
      nextHandle := h |}).
Proof.
  revert alpha. induction active as [|e l IH] using rev_ind; intros alpha.
  - reflexivity.
  - rewrite length_app. simpl List.length.
    replace (List.length l + 1)%nat with (S (List.length l)) by lia.
    assert (Hne : isEmpty (l ++ [e]) = false) by (destruct l; reflexivity).
    simpl popWhileActive. cbv beta. simpl _activeEffects. rewrite Hne.
    unfold bind at 1. rewrite popEffect_snoc, IH, unwindAlpha_snoc.
    reflexivity.
Qed.

(** What a method does to the two stacks, as a function on them. *)
Definition actsOnStacks {A} (m : M A)
    (f : list IElementEffect * GlobalAlpha.t ->
         list IElementEffect * GlobalAlpha.t) : Prop :=
  forall r, stacks (stateOf (m r)) = f (stacks r).

Lemma acts_bind {A B} (m : M A) (k : A -> M B) f g :
  actsOnStacks m f -> (forall a, actsOnStacks (k a) g) ->
  actsOnStacks (bind m k) (fun s => g (f s)).
Proof.
  intros Hm Hk r. unfold bind.
  specialize (Hm r). destruct (m r) as [[a t1] r1].
  specialize (Hk a r1). destruct (k a r1) as [[b t2] r2].
  unfold stateOf in *. simpl in *. congruence.
Qed.

Lemma acts_keeps {A} (m : M A) :
  keepsStacks m -> actsOnStacks m (fun s => s).
Proof. intros H r. apply H. Qed.

Lemma acts_pushActive (e : IElementEffect) :
  actsOnStacks (pushActive e) (fun s => (fst s ++ [e], snd s)).
Proof. intros r. reflexivity. Qed.

Lemma acts_pushAlpha (o : Q) :
  actsOnStacks (pushAlpha o) (fun s => (fst s, snd s ++ [o])).
Proof. intros r. reflexivity. Qed.

Lemma applyEffect_stacks (e : IElementEffect) (r : Renderer) :
  stacks (stateOf (applyEffect e r)) =
  (_activeEffects r ++ [e], globalAlpha r ++ opacities [e]).
Proof.
  assert (Hclip : forall p,
             keepsStacks (skiaPath <- createSkiaPath p ;;
                          call (clipPath skiaPath) ;; call (delete skiaPath)))
    by (intros p; keeps).
  unfold applyEffect.
  destruct e as [o | ox oy [[[[[m0 m1] m2] m3] m4] m5] | p].
  - etransitivity.
    { eapply acts_bind; [apply acts_keeps, keeps_call | intros _].
      eapply acts_bind; [apply acts_pushAlpha | intros _].
      eapply acts_bind; [apply acts_keeps, keeps_ret | intros _].
      eapply acts_bind; [apply acts_keeps, keeps_ret | intros _].
      apply acts_pushActive. }
    reflexivity.
  - etransitivity.
    { eapply acts_bind; [apply acts_keeps, keeps_call | intros _].
      eapply acts_bind; [apply acts_keeps, keeps_ret | intros _].
      eapply acts_bind; [apply acts_keeps; keeps | intros _].
      eapply acts_bind; [apply acts_keeps, keeps_ret | intros _].
      apply acts_pushActive. }
    simpl. rewrite app_nil_r. reflexivity.
  - etransitivity.
    { eapply acts_bind; [apply acts_keeps, keeps_call | intros _].
      eapply acts_bind; [apply acts_keeps, keeps_ret | intros _].
      eapply acts_bind; [apply acts_keeps, keeps_ret | intros _].
      eapply acts_bind; [apply acts_keeps, Hclip | intros _].
      apply acts_pushActive. }
    simpl. rewrite app_nil_r. reflexivity.
Qed.

Lemma forEach_applyEffect_stacks (effects : list IElementEffect) (r : Renderer) :
  stacks (stateOf (forEach applyEffect effects r)) =
  (_activeEffects r ++ effects, globalAlpha r ++ opacities effects).
Proof.
  revert r. induction effects as [|e effects IH]; intros r.
  - unfold stacks. simpl. rewrite !app_nil_r. reflexivity.
  - simpl forEach. unfold bind.
    pose proof (applyEffect_stacks e r) as He.
    destruct (applyEffect e r) as [[u t] r1].
    specialize (IH r1).
    destruct (forEach applyEffect effects r1) as [[u' t'] r2].
    unfold stacks, stateOf in *. simpl in *.
    inversion He as [[Ha Hg]]. rewrite IH, Ha, Hg.
    rewrite <- !app_assoc. simpl.
    destruct e; reflexivity.
Qed.

Lemma applyEffects_split (effects : list IElementEffect) (r : Renderer) :
  applyEffects effects r =
  (tt,
   repeat restore (List.length (_activeEffects r))
   ++ traceOf (forEach applyEffect effects
                 {| _activeEffects := [];
                    globalAlpha := unwindAlpha (_activeEffects r) (globalAlpha r);
                    nextHandle := nextHandle r |}),
   stateOf (forEach applyEffect effects
              {| _activeEffects := [];
                 globalAlpha := unwindAlpha (_activeEffects r) (globalAlpha r);
                 nextHandle := nextHandle r |})).
Proof.
  destruct r as [active alpha h]. unfold applyEffects, bind.
  simpl _activeEffects. rewrite popWhileActive_all. simpl.
  destruct (forEach applyEffect effects _) as [[[] t] r']. reflexivity.
Qed.

Lemma applyEffects_stacks (effects : list IElementEffect) (r : Renderer) :
  stacks (stateOf (applyEffects effects r)) =
  (effects, unwindAlpha (_activeEffects r) (globalAlpha r) ++ opacities effects).
Proof.
  rewrite applyEffects_split. unfold stateOf at 1. simpl snd.
  rewrite forEach_applyEffect_stacks. reflexivity.
Qed.

Lemma unwindAlpha_agree (active : list IElementEffect) :
  unwindAlpha active (GlobalAlpha.init ++ opacities active) = GlobalAlpha.init.
Proof.
  induction active as [|e l IH] using rev_ind.
  - reflexivity.
  - rewrite unwindAlpha_snoc, opacities_app.
    destruct e as [o | ox oy m | p]; simpl opacities; simpl isOpacityEffect;
      cbv iota; rewrite ?app_nil_r; try exact IH.
    rewrite app_assoc. unfold GlobalAlpha.init at 1. simpl app at 2.
    change ((1 :: opacities l) ++ [o]) with (1 :: opacities l ++ [o]).
    rewrite GlobalAlpha_pop_top. exact IH.
Qed.

(** ** The two stacks stay in step *)

Definition preservesAgree {A} (m : M A) : Prop :=
  forall r, stacksAgree r -> stacksAgree (stateOf (m r)).

Lemma preserves_keeps {A} (m : M A) : keepsStacks m -> preservesAgree m.
Proof.
  intros H r Hr. specialize (H r). unfold stacksAgree, stacks in *.
  pose proof (f_equal fst H) as Ha. pose proof (f_equal snd H) as Hg.
  simpl in Ha, Hg. rewrite Ha, Hg. exact Hr.
Qed.

Lemma preserves_bind {A B} (m : M A) (k : A -> M B) :
  preservesAgree m -> (forall a, preservesAgree (k a)) ->
  preservesAgree (bind m k).
Proof.
  intros Hm Hk r Hr. unfold bind.
  specialize (Hm r Hr). destruct (m r) as [[a t1] r1].
  specialize (Hk a r1 Hm). destruct (k a r1) as [[b t2] r2].
  exact Hk.
Qed.

Lemma preserves_forEach {A} (f : A -> M unit) (l : list A) :
  (forall a, preservesAgree (f a)) -> preservesAgree (forEach f l).
Proof.
  intros H. induction l as [|a l IH]; simpl.
  - apply preserves_keeps, keeps_ret.
  - apply preserves_bind; [apply H | intros _; exact IH].
Qed.

Lemma applyEffects_agree (effects : list IElementEffect) (r : Renderer) :
  stacksAgree r ->
  stacks (stateOf (applyEffects effects r)) =
  (effects, GlobalAlpha.init ++ opacities effects).
Proof.
  intros Hr. rewrite applyEffects_stacks. rewrite Hr, unwindAlpha_agree.
  reflexivity.
Qed.

Lemma preserves_applyEffects (effects : list IElementEffect) :
  preservesAgree (applyEffects effects).
Proof.
  intros r Hr. pose proof (applyEffects_agree effects r Hr) as H.
  unfold stacksAgree, stacks in *.
  pose proof (f_equal fst H) as Ha. pose proof (f_equal snd H) as Hg.
  simpl in Ha, Hg. rewrite Hg, Ha. reflexivity.
Qed.

Lemma preserves_renderNodeBackgroundAndBorders (e : ElementPaint) :
  preservesAgree (renderNodeBackgroundAndBorders e).
Proof.
  unfold renderNodeBackgroundAndBorders.
  apply preserves_bind; [apply preserves_applyEffects | intros _].
  apply preserves_keeps. keeps.
Qed.

Lemma preserves_renderNodeContent (e : ElementPaint) :
  preservesAgree (renderNodeContent e).
Proof.
  unfold renderNodeContent.
  apply preserves_bind; [apply preserves_applyEffects | intros _].
  apply preserves_keeps. keeps.
Qed.

Lemma preserves_renderStack (stack : StackingContext) :
  preservesAgree (renderStack stack).
Proof.
  intros r Hr. rewrite renderStack_as_steps.
  apply preserves_forEach; [|exact Hr].
  intros [e|e];
    [apply preserves_renderNodeBackgroundAndBorders
    | apply preserves_renderNodeContent].
Qed.

Lemma agree_then_applyEffects {A} (m : M A) (effects : list IElementEffect)
    (r : Renderer) :
  preservesAgree m -> stacksAgree r ->
  stacks (stateOf (bind m (fun _ => applyEffects effects) r)) =
  (effects, GlobalAlpha.init ++ opacities effects).
Proof.
  intros Hm Hr. unfold bind. specialize (Hm r Hr).
  destruct (m r) as [[a t1] r1].
  pose proof (applyEffects_agree effects r1 Hm) as H.
  destruct (applyEffects effects r1) as [[u t2] r2]. exact H.
Qed.

Lemma render_agree (element_ : ElementContainer) (r : Renderer) :
  stacksAgree r ->
  stacks (stateOf (render element_ r)) = ([], GlobalAlpha.init).
Proof.
  intros Hr. unfold render. rewrite <- bind_assoc.
  apply (agree_then_applyEffects _ []); [|exact Hr].
  apply preserves_bind.
  - apply preserves_keeps. keeps.
  - intros _. apply preserves_renderStack.
Qed.

Lemma newRenderer_agree (h : Handle) : stacksAgree (newRenderer h).
Proof. reflexivity. Qed.

Lemma applyEffects_nil_idle (r : Renderer) :
  _activeEffects r = [] -> applyEffects [] r = (tt, [], r).
Proof. destruct r as [active alpha h]. simpl. intros ->. reflexivity. Qed.

(** C2.  [applyEffects(requested)], from any state of the renderer, first
    pops every active effect: one canvas [restore] per active effect, and
    one [pop] of the alpha stack per active opacity effect, taken from the
    last applied to the first; it then applies [requested] first to last
    from the emptied effect stack.  Afterwards the active effects are
    exactly [requested] (so the lengths agree).  After a full [render] on
    a fresh renderer the effect stack is empty and the alpha stack is back
    to its single entry 1, the effective alpha being 1; a further
    [applyEffects([])] then does nothing at all. *)
Theorem applyEffects_unwinds_then_applies :
  (forall requested r,
      let emptied :=
        {| _activeEffects := [];
           globalAlpha := unwindAlpha (_activeEffects r) (globalAlpha r);
           nextHandle := nextHandle r |} in
      applyEffects requested r =
      (tt,
       repeat restore (List.length (_activeEffects r))
       ++ traceOf (forEach applyEffect requested emptied),
       stateOf (forEach applyEffect requested emptied)))
  /\ (forall requested r,
         _activeEffects (stateOf (applyEffects requested r)) = requested
         /\ List.length (_activeEffects (stateOf (applyEffects requested r)))
            = List.length requested
         /\ globalAlpha (stateOf (applyEffects requested r))
            = unwindAlpha (_activeEffects r) (globalAlpha r)
              ++ opacities requested)
  /\ (forall element_ h,
         let after := stateOf (render element_ (newRenderer h)) in
         _activeEffects after = []
         /\ globalAlpha after = [1]
         /\ GlobalAlpha.value (globalAlpha after) = 1
         /\ applyEffects [] after = (tt, [], after)).
Proof.
  split; [|split].
  - intros requested r. apply applyEffects_split.
  - intros requested r.
    pose proof (applyEffects_stacks requested r) as H.
    unfold stacks in H.
    pose proof (f_equal fst H) as Ha. pose proof (f_equal snd H) as Hg.
    simpl in Ha, Hg. rewrite Ha, Hg. repeat split; reflexivity.
  - intros element_ h after.
    pose proof (render_agree element_ (newRenderer h) (newRenderer_agree h))
      as H.
    unfold stacks in H. fold after in H.
    pose proof (f_equal fst H) as Ha. pose proof (f_equal snd H) as Hg.
    simpl in Ha, Hg. rewrite Hg. repeat split; try reflexivity.
    + exact Ha.
    + apply applyEffects_nil_idle. exact Ha.
Qed.

(** ** Reading the outcome of a sequence *)

Lemma traceOf_bind {A B} (m : M A) (k : A -> M B) (r : Renderer) :
  traceOf (bind m k r) =
  traceOf (m r) ++ traceOf (k (resultOf (m r)) (stateOf (m r))).
Proof.
  unfold bind, traceOf, resultOf, stateOf.
  destruct (m r) as [[a t1] r1]. simpl.
  destruct (k a r1) as [[b t2] r2]. reflexivity.
Qed.

Lemma stateOf_bind {A B} (m : M A) (k : A -> M B) (r : Renderer) :
  stateOf (bind m k r) = stateOf (k (resultOf (m r)) (stateOf (m r))).
Proof.
  unfold bind, traceOf, resultOf, stateOf.
  destruct (m r) as [[a t1] r1]. simpl.
  destruct (k a r1) as [[b t2] r2]. reflexivity.
Qed.

Lemma resultOf_bind {A B} (m : M A) (k : A -> M B) (r : Renderer) :
  resultOf (bind m k r) = resultOf (k (resultOf (m r)) (stateOf (m r))).
Proof.
  unfold bind, traceOf, resultOf, stateOf.
  destruct (m r) as [[a t1] r1]. simpl.
  destruct (k a r1) as [[b t2] r2]. reflexivity.
Qed.

Lemma resultOf_mk {A} (a : A) (t : Trace) (r : Renderer) :
  resultOf (a, t, r) = a.
Proof. reflexivity. Qed.

Lemma traceOf_mk {A} (a : A) (t : Trace) (r : Renderer) :
  traceOf (a, t, r) = t.
Proof. reflexivity. Qed.

Lemma stateOf_mk {A} (a : A) (t : Trace) (r : Renderer) :
  stateOf (a, t, r) = r.
Proof. reflexivity. Qed.

Lemma traceOf_call (c : Call) (r : Renderer) : traceOf (call c r) = [c].
Proof. reflexivity. Qed.

Lemma stateOf_call (c : Call) (r : Renderer) : stateOf (call c r) = r.
Proof. reflexivity. Qed.

Lemma outcome_eta {A} (o : A * Trace * Renderer) :
  o = (resultOf o, traceOf o, stateOf o).
Proof. destruct o as [[a t] r]. reflexivity. Qed.

(** The calls of [createPaint]. *)
Definition paintSetup (h : Handle) (s : PaintStyle) : Trace :=
  [newPaint h; setStyle h s]
  ++ (if has_setAntiAlias canvasKit then [setAntiAlias h true] else []).

Lemma createPaint_run (s : PaintStyle) (r : Renderer) :
  createPaint s r =
  (nextHandle r, paintSetup (nextHandle r) s,
   withNextHandle r (N.succ (nextHandle r))).
Proof.
  unfold createPaint, paintSetup, bind, when. simpl.
  destruct (has_setAntiAlias canvasKit); reflexivity.
Qed.

Lemma parseColorWithAlpha_run (c : Color) (r : Renderer) :
  parseColorWithAlpha c r =
  (multiplyByAlpha (parseColor c) (GlobalAlpha.value (globalAlpha r)), [], r).
Proof. reflexivity. Qed.

(** The calls one text shadow makes around its copy of the glyph run. *)
Definition shadowPrologue (st : CSSParsedDeclaration) (sh : TextShadow)
    (fillPaint shadowPaint blurEffect : Handle) (alpha : Q) : Trace :=
  [copyPaint shadowPaint fillPaint;
   setColor shadowPaint (multiplyByAlpha (parseColor (ts_color sh)) alpha);
   save;
   translate (ts_offsetX sh * scale options) (ts_offsetY sh * scale options);
   MakeBlur blurEffect (ts_blur sh / 2);
   setMaskFilter shadowPaint blurEffect].

Definition shadowEpilogue (shadowPaint blurEffect : Handle) : Trace :=
  [restore; delete shadowPaint; delete blurEffect].

Lemma renderTextShadow_trace tb st fillPaint font sh (r : Renderer) :
  traceOf (renderTextShadow tb st fillPaint font sh r) =
  shadowPrologue st sh fillPaint (nextHandle r) (N.succ (nextHandle r))
                 (GlobalAlpha.value (globalAlpha r))
  ++ traceOf (renderTextWithLetterSpacing tb (letterSpacing st) (baseline st)
                (nextHandle r) font
                (withNextHandle r (N.succ (N.succ (nextHandle r)))))
  ++ shadowEpilogue (nextHandle r) (N.succ (nextHandle r)).
Proof.
  unfold renderTextShadow. rewrite !traceOf_bind. destruct r as [ac al h].
  reflexivity.
Qed.

(** The calls of the [FILL] layer of a text run whose style has text
    shadows and whose text is not blank, in the order the method makes
    them: the glyph run with the fill paint, then one pass per text shadow
    in reverse declaration order, each with a copy of the fill paint that
    carries the shadow's colour and a blur of half the shadow's blur, under
    a translation by the shadow's offset times the scale, between a [save]
    and a [restore]; then the decorations. *)
Lemma renderTextFill_trace :
  forall tb st font r,
    isEmpty (textShadow st) = false ->
    isEmpty (JS.trim (text tb)) = false ->
    let fillPaint := nextHandle r in
    let main :=
      renderTextWithLetterSpacing tb (letterSpacing st) (baseline st)
        fillPaint font (withNextHandle r (N.succ fillPaint)) in
    let shadows :=
      forEach (renderTextShadow tb st fillPaint font) (rev (textShadow st))
              (stateOf main) in
    let decorations := renderTextDecorations tb st (stateOf shadows) in
    traceOf (renderTextFill tb st font r) =
    paintSetup fillPaint Fill
    ++ [setColor fillPaint
          (multiplyByAlpha (parseColor (s_color st))
                           (GlobalAlpha.value (globalAlpha r)))]
    ++ traceOf main
    ++ traceOf shadows
    ++ traceOf decorations
    ++ [delete fillPaint]
    /\ (forall sh r',
           traceOf (renderTextShadow tb st fillPaint font sh r') =
           shadowPrologue st sh fillPaint (nextHandle r')
                          (N.succ (nextHandle r'))
                          (GlobalAlpha.value (globalAlpha r'))
           ++ traceOf (renderTextWithLetterSpacing tb (letterSpacing st)
                         (baseline st) (nextHandle r') font
                         (withNextHandle r' (N.succ (N.succ (nextHandle r')))))
           ++ shadowEpilogue (nextHandle r') (N.succ (nextHandle r'))).
Proof.
  intros tb st font r Hshadows Htext fillPaint main shadows decorations.
  split.
  - unfold renderTextFill. rewrite Hshadows, Htext. cbn [negb andb].
    rewrite traceOf_bind, createPaint_run, resultOf_mk, traceOf_mk, stateOf_mk.
    rewrite traceOf_bind, parseColorWithAlpha_run, resultOf_mk, traceOf_mk,
      stateOf_mk.
    rewrite traceOf_bind, traceOf_call, stateOf_call.
    rewrite traceOf_bind. fold fillPaint. fold main.
    rewrite traceOf_bind. fold shadows.
    rewrite traceOf_bind. fold decorations.
    rewrite traceOf_call. reflexivity.
  - intros sh r'. apply renderTextShadow_trace.
Qed.

(** ** Missing glyphs *)

Lemma reduce_app {A B} (f : B -> A -> M B) (l1 l2 : list A) (b : B)
    (r : Renderer) :
  reduce f (l1 ++ l2) b r = (b' <- reduce f l1 b ;; reduce f l2 b') r.
Proof.
  revert b r. induction l1 as [|a l1 IH]; intros b r.
  - simpl. rewrite bind_ret_l. reflexivity.
  - simpl. rewrite bind_assoc. apply bind_ext. intros b' r'. apply IH.
Qed.

Lemma renderLetter_fallback tb ls bl paint font left_ letter provider tf
    (r : Renderer) :
  glyphsMissing (Font_getGlyphIDs canvasKit (fontTypeface font) letter) = true ->
  fallbackFontProvider options = Some provider ->
  provider letter = Some tf ->
  renderLetter tb ls bl paint font left_ letter r =
  (left_
   + match Font_getGlyphWidths canvasKit (Some tf) (getSize font)
             (Font_getGlyphIDs canvasKit (fontTypeface font) letter) paint with
     | w :: _ => w
     | [] => 0
     end
   + ls,
   [newFont (nextHandle r) (Some tf) (Some (getSize font));
    drawText letter left_ (top (bounds tb) + bl) paint (nextHandle r);
    delete (nextHandle r)],
   withNextHandle r (N.succ (nextHandle r))).
Proof.
  intros Hmiss Hprov Htf. unfold renderLetter.
  rewrite Hmiss, Hprov, Htf. destruct r as [ac al h]. reflexivity.
Qed.

(** The calls for a grapheme the primary font misses, when
    [renderTextWithLetterSpacing] goes grapheme by grapheme and the
    fallback provider answers a typeface: a temporary font is built from
    that typeface at the size of the primary font, the grapheme is drawn
    with it at the running x, and the temporary font is deleted right
    after the draw.  The running x then advances by the first width the
    temporary font reports for [glyphIDs], which are the identifiers the
    PRIMARY font gave for the grapheme (0 when that list is empty), plus
    the letter spacing. *)
Lemma renderLetter_fallback_trace :
  forall tb ls bl paint font r before letter after provider tf,
    Qeq_bool ls 0 && negb (areGlyphsMissing font (text tb)) = false ->
    segmentGraphemes (text tb) = before ++ letter :: after ->
    glyphsMissing (Font_getGlyphIDs canvasKit (fontTypeface font) letter)
      = true ->
    fallbackFontProvider options = Some provider ->
    provider letter = Some tf ->
    let pre :=
      reduce (renderLetter tb ls bl paint font) before (left (bounds tb)) r in
    let running_x := resultOf pre in
    let fallbackFont := nextHandle (stateOf pre) in
    let glyphIDs := Font_getGlyphIDs canvasKit (fontTypeface font) letter in
    let fallbackWidth :=
      match Font_getGlyphWidths canvasKit (Some tf) (getSize font)
              glyphIDs paint with
      | w :: _ => w
      | [] => 0
      end in
    let post :=
      reduce (renderLetter tb ls bl paint font) after
             (running_x + fallbackWidth + ls)
             (withNextHandle (stateOf pre) (N.succ fallbackFont)) in
    traceOf (renderTextWithLetterSpacing tb ls bl paint font r) =
    traceOf pre
    ++ [newFont fallbackFont (Some tf) (Some (getSize font));
        drawText letter running_x (top (bounds tb) + bl) paint fallbackFont;
        delete fallbackFont]
    ++ traceOf post.
Proof.
  intros tb ls bl paint font r before letter after provider tf
         Hslow Hseg Hmiss Hprov Htf pre running_x fallbackFont glyphIDs
         fallbackWidth post.
  unfold renderTextWithLetterSpacing. rewrite Hslow, Hseg.
  rewrite traceOf_bind.
  unfold ret at 1. unfold traceOf at 2. cbn [fst snd]. rewrite app_nil_r.
  rewrite reduce_app, traceOf_bind. fold pre. f_equal.
  fold running_x. simpl reduce. rewrite traceOf_bind.
  rewrite (renderLetter_fallback tb ls bl paint font running_x letter
             provider tf (stateOf pre) Hmiss Hprov Htf).
  reflexivity.
Qed.

(** ** Paths, the save/restore depth and native objects *)

(** The path verbs [formatSkiaPath] issues for the point at [index]. *)
Definition pointVerbs (h : Handle) (point : Path) (index : nat) : Trace :=
  let startPoint := match point with PBezier c => start c | PVector v => v end in
  [if (index =? 0)%nat
   then moveTo h (x startPoint) (y startPoint)
   else lineTo h (x startPoint) (y startPoint)]
  ++ match point with
     | PBezier curve =>
         [cubicTo h (x (startControl curve)) (y (startControl curve))
                  (x (endControl curve)) (y (endControl curve))
                  (x (end_ curve)) (y (end_ curve))]
     | PVector _ => []
     end.

Fixpoint pathVerbsFrom (h : Handle) (index : nat) (paths : list Path) : Trace :=
  match paths with
  | [] => []
  | point :: paths' =>
      pointVerbs h point index ++ pathVerbsFrom h (S index) paths'
  end.

Definition pathVerbs (h : Handle) (paths : list Path) : Trace :=
  pathVerbsFrom h 0 paths.

Lemma forEachFrom_run {A} (f : A -> nat -> M unit) (g : A -> nat -> Trace)
    (gs : nat -> list A -> Trace) :
  (forall a i r, f a i r = (tt, g a i, r)) ->
  (forall i, gs i [] = []) ->
  (forall i a xs, gs i (a :: xs) = g a i ++ gs (S i) xs) ->
  forall xs i r, forEachFrom f i xs r = (tt, gs i xs, r).
Proof.
  intros Hf Hnil Hcons. induction xs as [|a xs IH]; intros i r.
  - rewrite Hnil. reflexivity.
  - cbn [forEachFrom]. unfold bind. rewrite Hf, IH, Hcons. reflexivity.
Qed.

Lemma formatSkiaPath_run (h : Handle) (paths : list Path) (r : Renderer) :
  formatSkiaPath h paths r = (tt, pathVerbs h paths, r).
Proof.
  unfold formatSkiaPath, forEachIndexed, pathVerbs.
  apply (forEachFrom_run _ (pointVerbs h) (pathVerbsFrom h)).
  - intros p i r'. unfold pointVerbs, bind.
    destruct p; destruct (i =? 0)%nat; reflexivity.
  - reflexivity.
  - reflexivity.
Qed.

Lemma createSkiaPath_run (paths : list Path) (r : Renderer) :
  createSkiaPath paths r =
  (nextHandle r, newPath (nextHandle r) :: pathVerbs (nextHandle r) paths,
   withNextHandle r (N.succ (nextHandle r))).
Proof.
  unfold createSkiaPath, bind. cbn [alloc]. rewrite formatSkiaPath_run.
  unfold ret, withNextHandle. cbn [app]. rewrite app_nil_r. reflexivity.
Qed.

Lemma pathVerbs_neutral (h : Handle) (paths : list Path) :
  forallb neutral (pathVerbs h paths) = true.
Proof.
  unfold pathVerbs. generalize 0%nat.
  induction paths as [|p paths IH]; intros i; [reflexivity|].
  cbn [pathVerbsFrom]. rewrite forallb_app, IH, andb_true_r.
  unfold pointVerbs. destruct p; destruct (i =? 0)%nat; reflexivity.
Qed.

Lemma paintSetup_no_save (h : Handle) (s : PaintStyle) :
  existsb isSaveOrRestore (paintSetup h s) = false.
Proof. unfold paintSetup. destruct (has_setAntiAlias canvasKit); reflexivity. Qed.

Lemma neutral_no_save (tr : Trace) :
  forallb neutral tr = true -> existsb isSaveOrRestore tr = false.
Proof.
  induction tr as [|c tr IH]; [reflexivity|]. simpl.
  intros H. apply andb_prop in H as [Hc Htr]. rewrite (IH Htr).
  destruct c; try discriminate; reflexivity.
Qed.

Lemma saveDepth_app (t1 t2 : Trace) :
  saveDepth (t1 ++ t2) = (saveDepth t1 + saveDepth t2)%Z.
Proof.
  induction t1 as [|c t1 IH]; [reflexivity|].
  destruct c; simpl; rewrite ?IH; lia.
Qed.

Lemma saveDepth_quiet (tr : Trace) :
  existsb isSaveOrRestore tr = false -> saveDepth tr = 0%Z.
Proof.
  induction tr as [|c tr IH]; [reflexivity|].
  destruct c; simpl; try discriminate; exact IH.
Qed.

Lemma liveAfter_app (live : list Handle) (t1 t2 : Trace) :
  liveAfter live (t1 ++ t2) = liveAfter (liveAfter live t1) t2.
Proof.
  revert live. induction t1 as [|c t1 IH]; intros live; [reflexivity|].
  simpl. apply IH.
Qed.

Lemma liveAfter_neutral (live : list Handle) (tr : Trace) :
  forallb neutral tr = true -> liveAfter live tr = live.
Proof.
  revert live. induction tr as [|c tr IH]; intros live H; [reflexivity|].
  simpl in H. apply andb_prop in H as [Hc Htr].
  cbn [liveAfter]. rewrite (IH _ Htr).
  destruct c; try discriminate; reflexivity.
Qed.

Lemma paintSetup_live (live : list Handle) (h : Handle) (s : PaintStyle) :
  liveAfter live (paintSetup h s) = live ++ [h].
Proof. unfold paintSetup. destruct (has_setAntiAlias canvasKit); reflexivity. Qed.

Lemma eqb_offset (h a b : N) : ((h + a =? h + b) = (a =? b))%N.
Proof.
  destruct (N.eqb_spec a b) as [->|Hne].
  - apply N.eqb_refl.
  - apply N.eqb_neq. lia.
Qed.

(** ** Dashed and dotted borders *)

(** The calls of [renderDashedDottedBorder] between its [save] and its
    [restore], when the next free handle is [h] and the current global
    alpha is [alpha]. *)
Definition dashedDottedBorderBody (color_ : Color) (width_ : Q) (side : nat)
    (curvePoints : BoundCurves) (style_ : BORDER_STYLE) (h : Handle)
    (alpha : Q) : Trace :=
  let strokePaths := parsePathForBorderStroke curvePoints side in
  let boxPaths := parsePathForBorder curvePoints side in
  let pattern := dashPattern style_ width_ (sideLength boxPaths side) in
  let paint := h in
  let pathEffect := if isDASHED style_ then N.succ (N.succ h) else N.succ h in
  let strokePath := N.succ pathEffect in
  paintSetup paint Stroke
  ++ [setColor paint (multiplyByAlpha (parseColor color_) alpha)]
  ++ (if isDASHED style_ then
        newPath (N.succ h) :: pathVerbs (N.succ h) (boxPathList boxPaths)
        ++ [clipPath (N.succ h); delete (N.succ h)]
      else [])
  ++ (if isDOTTED style_ then
        [setStrokeWidth paint width_;
         MakeDash pathEffect [0; fst pattern + snd pattern] 0;
         setPathEffect paint pathEffect]
      else
        [setStrokeWidth paint (width_ * 2 + (11 # 10));
         MakeDash pathEffect [fst pattern; snd pattern] 0;
         setPathEffect paint pathEffect])
  ++ newPath strokePath
     :: pathVerbs strokePath
          (if isDOTTED style_ then strokePaths
           else firstn 2 (boxPathList boxPaths))
  ++ [drawPath strokePath paint;
      delete paint; delete strokePath; delete pathEffect].

Definition dashedDottedBorderCalls (color_ : Color) (width_ : Q) (side : nat)
    (curvePoints : BoundCurves) (style_ : BORDER_STYLE) (h : Handle)
    (alpha : Q) : Trace :=
  save
  :: dashedDottedBorderBody color_ width_ side curvePoints style_ h alpha
  ++ [restore].

Lemma renderDashedDottedBorder_run color_ width_ side curvePoints style_
    (r : Renderer) :
  renderDashedDottedBorder color_ width_ side curvePoints style_ r =
  (tt,
   dashedDottedBorderCalls color_ width_ side curvePoints style_
     (nextHandle r) (GlobalAlpha.value (globalAlpha r)),
   withNextHandle r
     (N.succ (N.succ (if isDASHED style_
                      then N.succ (N.succ (nextHandle r))
                      else N.succ (nextHandle r))))).
Proof.
  destruct r as [ac al h].
  unfold renderDashedDottedBorder, dashedDottedBorderCalls,
    dashedDottedBorderBody.
  destruct (dashPattern style_ width_ _) as [d s].
  unfold bind at 1. cbn [call].
  unfold bind at 1. rewrite createPaint_run.
  unfold bind at 1. rewrite parseColorWithAlpha_run.
  unfold bind at 1. cbn [call].
  destruct style_; cbn [isDASHED isDOTTED];
    unfold bind; rewrite ?createSkiaPath_run; cbn [call ret alloc];
    rewrite ?createSkiaPath_run; cbn [nextHandle withNextHandle];
    unfold withNextHandle; cbn [nextHandle _activeEffects globalAlpha fst snd app];
    rewrite ?app_nil_r; repeat (rewrite <- app_assoc; cbn [app]);
    reflexivity.
Qed.

(** Decides the comparisons between the handles of one method. *)
Ltac handle_eqb :=
  repeat match goal with
         | |- context [N.eqb ?a ?a] => rewrite (N.eqb_refl a)
         | |- context [N.eqb ?a ?b] =>
             replace (N.eqb a b) with false
               by (symmetry; apply N.eqb_neq; lia)
         end.

(** Follows the native objects alive through a trace, one call or one
    neutral stretch at a time. *)
Ltac live_step :=
  first [ match goal with
          | |- context [liveAfter ?l (paintSetup ?h ?s)] =>
              rewrite (paintSetup_live l h s)
          | |- context [liveAfter ?l (pathVerbs ?h ?p)] =>
              rewrite (liveAfter_neutral l _ (pathVerbs_neutral h p))
          | |- context [liveAfter ?l (?a ++ ?b)] =>
              rewrite (liveAfter_app l a b)
          end
        | progress handle_eqb
        | progress cbn [liveAfter liveStep created app filter negb] ].

(** Follows the save/restore depth through a trace in the same way. *)
Ltac depth_step :=
  first [ match goal with
          | |- context [saveDepth (paintSetup ?h ?s)] =>
              rewrite (saveDepth_quiet _ (paintSetup_no_save h s))
          | |- context [saveDepth (pathVerbs ?h ?p)] =>
              rewrite (saveDepth_quiet _
                         (neutral_no_save _ (pathVerbs_neutral h p)))
          | |- context [saveDepth (?a ++ ?b)] =>
              rewrite (saveDepth_app a b)
          end
        | progress cbn [saveDepth app] ].

Lemma dashedDottedBorderBody_quiet color_ width_ side curvePoints style_ h alpha :
  existsb isSaveOrRestore
    (dashedDottedBorderBody color_ width_ side curvePoints style_ h alpha)
  = false.
Proof.
  unfold dashedDottedBorderBody. cbv zeta.
  rewrite !existsb_app, paintSetup_no_save.
  cbn [existsb isSaveOrRestore orb].
  rewrite !existsb_app.
  rewrite (neutral_no_save _ (pathVerbs_neutral _ _)).
  destruct style_; cbn [isDASHED isDOTTED existsb isSaveOrRestore orb];
    rewrite ?existsb_app, ?(neutral_no_save _ (pathVerbs_neutral _ _));
    reflexivity.
Qed.

Lemma dashedDottedBorderCalls_no_leak color_ width_ side curvePoints style_ h alpha :
  leaked (dashedDottedBorderCalls color_ width_ side curvePoints style_ h alpha)
  = [].
Proof.
  unfold leaked, dashedDottedBorderCalls, dashedDottedBorderBody. cbv zeta.
  destruct style_; cbn [isDASHED isDOTTED]; repeat live_step; reflexivity.
Qed.

(** C10.  Every call of [renderDashedDottedBorder], for every style and
    every state of the renderer, starts with one canvas [save] and ends
    with one [restore], with no other [save] or [restore] in between, so
    the save/restore depth of the canvas is the same after the call as
    before; every native object it creates (the paint, the clip path of
    the dashed style, the path effect and the stroke path) is deleted
    before it returns; and the effect stack and the alpha stack are left
    as they were. *)
Theorem renderDashedDottedBorder_balanced :
  forall color_ width_ side curvePoints style_ r,
    let outcome :=
      renderDashedDottedBorder color_ width_ side curvePoints style_ r in
    (exists body,
        traceOf outcome = save :: body ++ [restore]
        /\ existsb isSaveOrRestore body = false)
    /\ saveDepth (traceOf outcome) = 0%Z
    /\ leaked (traceOf outcome) = []
    /\ List.length (filter (fun c => match created c with
                                     | Some _ => true
                                     | None => false
                                     end) (traceOf outcome))
       = (if isDASHED style_ then 4 else 3)%nat
    /\ stacks (stateOf outcome) = stacks r.
Proof.
  intros color_ width_ side curvePoints style_ r outcome.
  unfold outcome. rewrite renderDashedDottedBorder_run.
  unfold traceOf, stateOf. cbn [fst snd].
  pose proof (dashedDottedBorderBody_quiet color_ width_ side curvePoints
                style_ (nextHandle r) (GlobalAlpha.value (globalAlpha r)))
    as Hquiet.
  repeat split.
  - eexists. split; [reflexivity | exact Hquiet].
  - unfold dashedDottedBorderCalls. cbn [saveDepth]. rewrite saveDepth_app.
    rewrite (saveDepth_quiet _ Hquiet). reflexivity.
  - apply dashedDottedBorderCalls_no_leak.
  - unfold dashedDottedBorderCalls, dashedDottedBorderBody. cbv zeta.
    assert (Hverbs : forall h p,
               filter (fun c => match created c with
                                | Some _ => true | None => false end)
                      (pathVerbs h p) = []).
    { intros h p. pose proof (pathVerbs_neutral h p) as Hn.
      induction (pathVerbs h p) as [|c tr IH]; [reflexivity|].
      simpl in Hn. apply andb_prop in Hn as [Hc Htr]. simpl.
      destruct c; try discriminate; simpl; apply IH; exact Htr. }
    unfold paintSetup.
    destruct (has_setAntiAlias canvasKit); destruct style_;
      cbn [isDASHED isDOTTED];
      repeat first
        [ match goal with
          | |- context [filter ?f (pathVerbs ?h ?p)] => rewrite (Hverbs h p)
          | |- context [filter ?f (?a ++ ?b)] => rewrite (filter_app f a b)
          | |- context [List.length (?a ++ ?b)] => rewrite (length_app a b)
          end
        | progress cbn [filter created app List.length] ];
      reflexivity.
Qed.

(** ** Radial gradients *)

Definition radialColors (stops : Q -> list ColorStop) (rx : Q)
  : list Float32Array :=
  map (fun s => parseColor (cs_color s)) (stops (rx * 2)).

Definition radialPositions (stops : Q -> list ColorStop) (rx : Q) : list Q :=
  map cs_stop (stops (rx * 2)).

(** Whether the backend answers a shader for the layer: it must offer
    [Shader.MakeRadialGradient] and that must not answer null. *)
Definition radialShaderBuilt (rendering : BackgroundRendering) (px py rx : Q)
    (stops : Q -> list ColorStop) : bool :=
  match Shader_MakeRadialGradient canvasKit with
  | Some make =>
      make [br_x rendering + px; br_y rendering + py] rx
           (radialColors stops rx) (radialPositions stops rx)
  | None => false
  end.

(** The calls before the draw: the circular shader of radius [rx], the
    layer's path, and a fill paint carrying the shader. *)
Definition radialPrologue (rendering : BackgroundRendering) (px py rx : Q)
    (stops : Q -> list ColorStop) (shader : Handle) : Trace :=
  let skiaPath := N.succ shader in
  let paint := N.succ skiaPath in
  [MakeRadialGradient shader [br_x rendering + px; br_y rendering + py] rx
     (radialColors stops rx) (radialPositions stops rx)]
  ++ newPath skiaPath :: pathVerbs skiaPath (br_path rendering)
  ++ paintSetup paint Fill
  ++ [setShader paint shader].

Definition radialEpilogue (shader : Handle) : Trace :=
  [delete (N.succ (N.succ shader)); delete (N.succ shader); delete shader].

(** The draw of an elliptical gradient: the y axis is scaled by
    [f = ry / rx] about the centre of the box, and the rectangle of the
    layer, scaled back by [1 / f], is filled. *)
Definition ellipseDraw (cont : ElementContainer)
    (rendering : BackgroundRendering) (rx ry : Q) (paint : Handle) : Trace :=
  let midX := left (c_bounds cont) + (1 # 2) * width (c_bounds cont) in
  let midY := top (c_bounds cont) + (1 # 2) * height (c_bounds cont) in
  let f := ry / rx in
  let invF := 1 / f in
  [save;
   translate midX midY;
   concat [1; 0; 0; 0; f; 0; 0; 0; 1];
   translate (- midX) (- midY);
   drawRect [br_x rendering;
             invF * (br_y rendering - midY) + midY;
             br_x rendering + br_width rendering;
             invF * (br_y rendering - midY) + midY
             + br_height rendering * invF] paint;
   restore].

Lemma Qgtb_pos (q : Q) : 0 < q -> Qgtb q 0 = true.
Proof.
  intros H. unfold Qgtb, Qltb. destruct (Qlt_le_dec 0 q) as [_|Hle].
  - reflexivity.
  - exfalso. apply (Qlt_not_le _ _ H Hle).
Qed.

Lemma Qgtb_nonpos (q : Q) : q <= 0 -> Qgtb q 0 = false.
Proof.
  intros H. unfold Qgtb, Qltb. destruct (Qlt_le_dec 0 q) as [Hlt|_].
  - exfalso. apply (Qlt_not_le _ _ Hlt H).
  - reflexivity.
Qed.

Lemma radialLayer_run cont rendering px py rx ry stops (r : Renderer) :
  0 < rx -> 0 < ry ->
  radialShaderBuilt rendering px py rx stops = true ->
  renderRadialGradientLayer cont rendering px py (rx, ry) stops r =
  (tt,
   radialPrologue rendering px py rx stops (nextHandle r)
   ++ (if Qeq_bool rx ry
       then [drawPath (N.succ (nextHandle r)) (N.succ (N.succ (nextHandle r)))]
       else ellipseDraw cont rendering rx ry (N.succ (N.succ (nextHandle r))))
   ++ radialEpilogue (nextHandle r),
   withNextHandle r (N.succ (N.succ (N.succ (nextHandle r))))).
Proof.
  intros Hrx Hry Hbuilt. destruct r as [ac al h].
  unfold renderRadialGradientLayer, radialShaderBuilt in *.
  rewrite (Qgtb_pos _ Hrx), (Qgtb_pos _ Hry). cbn [andb].
  fold (radialColors stops rx). fold (radialPositions stops rx).
  destruct (Shader_MakeRadialGradient canvasKit) as [make|]; [|discriminate].
  rewrite Hbuilt.
  unfold radialPrologue, radialEpilogue, ellipseDraw.
  unfold bind at 1. unfold bind at 1. cbn [alloc ret nextHandle].
  unfold bind at 1. rewrite createSkiaPath_run.
  unfold bind at 1. rewrite createPaint_run.
  destruct (Qeq_bool rx ry); cbn [negb];
    unfold bind; cbn [call ret];
    unfold withNextHandle; cbn [nextHandle _activeEffects globalAlpha app];
    rewrite ?app_nil_r, <- ?app_assoc; cbn [app];
    rewrite <- ?app_assoc; reflexivity.
Qed.

Lemma radialLayer_skipped cont rendering px py rx ry stops (r : Renderer) :
  rx <= 0 \/ ry <= 0 ->
  renderRadialGradientLayer cont rendering px py (rx, ry) stops r = (tt, [], r).
Proof.
  intros H. unfold renderRadialGradientLayer.
  destruct H as [H|H]; rewrite (Qgtb_nonpos _ H);
    rewrite ?andb_false_r; reflexivity.
Qed.

Lemma radialLayer_no_shader cont rendering px py rx ry stops (r : Renderer) :
  radialShaderBuilt rendering px py rx stops = false ->
  renderRadialGradientLayer cont rendering px py (rx, ry) stops r = (tt, [], r).
Proof.
  intros H. unfold renderRadialGradientLayer, radialShaderBuilt in *.
  fold (radialColors stops rx). fold (radialPositions stops rx).
  destruct (Qgtb rx 0 && Qgtb ry 0); [|reflexivity].
  destruct (Shader_MakeRadialGradient canvasKit) as [make|].
  - rewrite H. destruct r; reflexivity.
  - destruct r; reflexivity.
Qed.

Lemma radialLayer_cases cont rendering px py rx ry stops (r : Renderer) :
  renderRadialGradientLayer cont rendering px py (rx, ry) stops r = (tt, [], r)
  \/ (0 < rx /\ 0 < ry /\ radialShaderBuilt rendering px py rx stops = true).
Proof.
  destruct (Qlt_le_dec 0 rx) as [Hrx|Hrx];
    [|left; apply radialLayer_skipped; left; exact Hrx].
  destruct (Qlt_le_dec 0 ry) as [Hry|Hry];
    [|left; apply radialLayer_skipped; right; exact Hry].
  destruct (radialShaderBuilt rendering px py rx stops) eqn:Hb.
  - right. repeat split; assumption.
  - left. apply radialLayer_no_shader. exact Hb.
Qed.

(** C8 (as the code has it).  For a radial-gradient layer: when either
    radius is not positive the layer is skipped, nothing is drawn; when
    the backend gives no shader (it has no [MakeRadialGradient], or that
    answers null) nothing is drawn either; otherwise a repeating circular
    shader of radius [rx] is built, and if [rx] equals [ry] the layer's
    path is filled with it directly, while if they differ the canvas is
    saved, translated to the centre of the box, scaled on the y axis by
    [f = ry / rx], translated back, the rectangle of the layer scaled by
    [1 / f] is filled with the same circular shader, and the canvas is
    restored.  In every case the save/restore depth is the same after the
    call as before, and every native object created is deleted. *)
Theorem radial_gradient_layer :
  forall cont rendering px py rx ry stops r,
    let outcome :=
      renderRadialGradientLayer cont rendering px py (rx, ry) stops r in
    let shader := nextHandle r in
    let skiaPath := N.succ shader in
    let paint := N.succ skiaPath in
    (rx <= 0 \/ ry <= 0 -> outcome = (tt, [], r))
    /\ (radialShaderBuilt rendering px py rx stops = false ->
        outcome = (tt, [], r))
    /\ (0 < rx -> 0 < ry ->
        radialShaderBuilt rendering px py rx stops = true ->
        (rx == ry ->
         traceOf outcome =
         radialPrologue rendering px py rx stops shader
         ++ [drawPath skiaPath paint]
         ++ radialEpilogue shader)
        /\ (~ rx == ry ->
            traceOf outcome =
            radialPrologue rendering px py rx stops shader
            ++ ellipseDraw cont rendering rx ry paint
            ++ radialEpilogue shader))
    /\ saveDepth (traceOf outcome) = 0%Z
    /\ leaked (traceOf outcome) = [].
Proof.
  intros cont rendering px py rx ry stops r outcome shader skiaPath paint.
  split; [|split; [|split; [|split]]].
  - apply radialLayer_skipped.
  - apply radialLayer_no_shader.
  - intros Hrx Hry Hbuilt. unfold outcome.
    rewrite (radialLayer_run _ _ _ _ _ _ _ _ Hrx Hry Hbuilt).
    unfold traceOf. cbn [fst snd]. split; intros Heq.
    + apply Qeq_bool_iff in Heq. rewrite Heq. reflexivity.
    + destruct (Qeq_bool rx ry) eqn:E; [|reflexivity].
      exfalso. apply Heq, Qeq_bool_iff, E.
  - destruct (radialLayer_cases cont rendering px py rx ry stops r)
      as [Hnone | [Hrx [Hry Hbuilt]]]; unfold outcome.
    + rewrite Hnone. reflexivity.
    + rewrite (radialLayer_run _ _ _ _ _ _ _ _ Hrx Hry Hbuilt).
      unfold traceOf. cbn [fst snd].
      unfold radialPrologue, radialEpilogue, ellipseDraw. cbv zeta.
      destruct (Qeq_bool rx ry); repeat depth_step; reflexivity.
  - destruct (radialLayer_cases cont rendering px py rx ry stops r)
      as [Hnone | [Hrx [Hry Hbuilt]]]; unfold outcome.
    + rewrite Hnone. reflexivity.
    + rewrite (radialLayer_run _ _ _ _ _ _ _ _ Hrx Hry Hbuilt).
      unfold traceOf. cbn [fst snd].
      unfold leaked, radialPrologue, radialEpilogue, ellipseDraw. cbv zeta.
      destruct (Qeq_bool rx ry); repeat live_step; reflexivity.
Qed.

(** ** Colour strings *)

Definition hexChars : list N :=
  [48; 49; 50; 51; 52; 53; 54; 55; 56; 57;
   65; 66; 67; 68; 69; 70; 97; 98; 99; 100; 101; 102]%N.

Lemma isHexDigit_In (c : N) : JS.isHexDigit c = true -> In c hexChars.
Proof.
  unfold JS.isHexDigit, JS.hexDigit, hexChars. intros H.
  destruct ((48 <=? c) && (c <=? 57))%N eqn:E1.
  - apply andb_prop in E1 as [A B].
    apply N.leb_le in A. apply N.leb_le in B.
    assert (c = 48 \/ c = 49 \/ c = 50 \/ c = 51 \/ c = 52 \/ c = 53
            \/ c = 54 \/ c = 55 \/ c = 56 \/ c = 57)%N as Hc by lia.
    simpl. intuition auto.
  - destruct ((97 <=? c) && (c <=? 102))%N eqn:E2.
    + apply andb_prop in E2 as [A B].
      apply N.leb_le in A. apply N.leb_le in B.
      assert (c = 97 \/ c = 98 \/ c = 99 \/ c = 100 \/ c = 101
              \/ c = 102)%N as Hc by lia.
      simpl. intuition auto.
    + destruct ((65 <=? c) && (c <=? 70))%N eqn:E3; [|discriminate].
      apply andb_prop in E3 as [A B].
      apply N.leb_le in A. apply N.leb_le in B.
      assert (c = 65 \/ c = 66 \/ c = 67 \/ c = 68 \/ c = 69
              \/ c = 70)%N as Hc by lia.
      simpl. intuition auto.
Qed.

(** The value of two hexadecimal digits. *)
Definition hexPair (h1 h2 : N) : JS.number :=
  JS.Num (inject_Z (Z.of_N (JS.digitsValue 16 JS.hexDigit [h1; h2]))).

Lemma parseInt16_pair (h1 h2 : N) :
  JS.isHexDigit h1 = true -> JS.isHexDigit h2 = true ->
  JS.parseInt16 [h1; h2] = hexPair h1 h2.
Proof.
  intros H1 H2. apply isHexDigit_In in H1. apply isHexDigit_In in H2.
  unfold hexChars in *. simpl in H1, H2.
  repeat (destruct H1 as [<-|H1]); try contradiction;
    repeat (destruct H2 as [<-|H2]); try contradiction; reflexivity.
Qed.

Lemma isDigit_not_space (c : N) : JS.isDigit c = true -> JS.isWhiteSpace c = false.
Proof.
  unfold JS.isDigit, JS.isWhiteSpace. intros H.
  apply andb_prop in H as [H1 H2].
  apply N.leb_le in H1. apply N.leb_le in H2.
  repeat match goal with
         | |- context [N.leb ?a ?b] =>
             destruct (N.leb_spec a b); try lia
         | |- context [N.eqb ?a ?b] =>
             destruct (N.eqb_spec a b); try lia
         end; reflexivity.
Qed.

Lemma span_run (p : N -> bool) (run rest : JS.JSString) :
  forallb p run = true ->
  match rest with [] => True | c :: _ => p c = false end ->
  JS.span p (run ++ rest) = (run, rest).
Proof.
  intros Hrun Hrest. induction run as [|c run IH]; simpl.
  - destruct rest as [|c rest]; [reflexivity|]. simpl. rewrite Hrest.
    reflexivity.
  - simpl in Hrun. apply andb_prop in Hrun as [Hc Hrun].
    rewrite Hc, (IH Hrun). reflexivity.
Qed.

Lemma trimStart_head (c : N) (s : JS.JSString) :
  JS.isWhiteSpace c = false -> JS.trimStart (c :: s) = c :: s.
Proof. intros H. simpl. rewrite H. reflexivity. Qed.

Lemma trim_digits (ds : JS.JSString) :
  forallb JS.isDigit ds = true -> JS.trim ds = ds.
Proof.
  intros H. unfold JS.trim, JS.trimEnd.
  assert (Hs : forall l, forallb JS.isDigit l = true -> JS.trimStart l = l).
  { intros [|c l] Hl; [reflexivity|]. simpl in Hl.
    apply andb_prop in Hl as [Hc _].
    apply trimStart_head, isDigit_not_space, Hc. }
  rewrite (Hs ds H). rewrite Hs.
  - apply rev_involutive.
  - rewrite forallb_forall in *. intros c Hc. apply H, in_rev, Hc.
Qed.

(** The number a non-empty run of decimal digits denotes. *)
Definition decimalRun (ds : JS.JSString) : JS.number :=
  JS.Num (inject_Z (Z.of_N (JS.digitsValue 10 JS.decDigit ds))).

Lemma Qred_integer (z : Z) : Qred (inject_Z z * (10 # 1) ^ 0) = inject_Z z.
Proof.
  transitivity (Qred (inject_Z z)).
  - apply Qred_complete. simpl. ring.
  - unfold Qred, inject_Z.
    pose proof (Z.ggcd_gcd z 1) as Hg.
    pose proof (Z.ggcd_correct_divisors z 1) as Hd.
    destruct (Z.ggcd z 1) as [g [q1 q2]]. simpl in *.
    rewrite Z.gcd_1_r in Hg. subst g. destruct Hd as [H1 H2].
    rewrite Z.mul_1_l in H1, H2. subst q1 q2. reflexivity.
Qed.

Lemma parseFloat_digits (ds : JS.JSString) :
  ds <> [] -> forallb JS.isDigit ds = true ->
  JS.parseFloat ds = decimalRun ds.
Proof.
  intros Hne Hds. destruct ds as [|c ds]; [contradiction|].
  pose proof Hds as Hall. simpl in Hds.
  apply andb_prop in Hds as [Hc Hds'].
  unfold JS.parseFloat.
  rewrite (trimStart_head c ds (isDigit_not_space c Hc)).
  assert (Hc' : (48 <= c <= 57)%N).
  { unfold JS.isDigit in Hc. apply andb_prop in Hc as [A B].
    apply N.leb_le in A. apply N.leb_le in B. lia. }
  assert (Hsign : JS.takeSign (c :: ds) = (false, c :: ds)).
  { unfold JS.takeSign.
    destruct (N.eq_dec c 45) as [->|]; [lia|].
    destruct (N.eq_dec c 43) as [->|]; [lia|].
    destruct c as [|p]; [reflexivity|].
    repeat (destruct p as [p|p|]; try reflexivity; try lia). }
  rewrite Hsign.
  assert (Hinf : JS.startsWith (JS.str "Infinity") (c :: ds) = false).
  { change (JS.str "Infinity") with (73%N :: JS.str "nfinity").
    cbn [JS.startsWith]. destruct (N.eqb_spec 73 c); [lia | reflexivity]. }
  rewrite Hinf.
  rewrite <- (app_nil_r (c :: ds)) at 1.
  rewrite (span_run JS.isDigit (c :: ds) [] Hall I).
  cbn [app]. rewrite app_nil_r.
  unfold decimalRun. cbn [JS.exponentPart List.length Z.of_nat Z.sub].
  unfold JS.signed. rewrite Qred_integer. reflexivity.
Qed.

(** Code units other than the comma and the closing parenthesis. *)
Definition plainChar (c : N) : bool := negb (c =? 44)%N && negb (c =? 41)%N.

Lemma isDigit_plain (c : N) : JS.isDigit c = true -> plainChar c = true.
Proof.
  unfold JS.isDigit, plainChar. intros H. apply andb_prop in H as [H1 H2].
  apply N.leb_le in H1. apply N.leb_le in H2.
  destruct (N.eqb_spec c 44); [lia|]. destruct (N.eqb_spec c 41); [lia|].
  reflexivity.
Qed.

Lemma digits_plain (ds : JS.JSString) :
  forallb JS.isDigit ds = true -> forallb plainChar ds = true.
Proof.
  rewrite !forallb_forall. intros H c Hc. apply isDigit_plain, H, Hc.
Qed.

Lemma split_plain (a : JS.JSString) :
  forallb plainChar a = true -> JS.split 44 a = [a].
Proof.
  induction a as [|c a IH]; [reflexivity|]. simpl. intros H.
  apply andb_prop in H as [Hc Ha]. unfold plainChar in Hc.
  apply andb_prop in Hc as [Hc _]. apply negb_true_iff in Hc.
  rewrite Hc, (IH Ha). reflexivity.
Qed.

Lemma split_comma (a rest : JS.JSString) :
  forallb plainChar a = true ->
  JS.split 44 (a ++ 44%N :: rest) = a :: JS.split 44 rest.
Proof.
  induction a as [|c a IH]; [reflexivity|]. simpl. intros H.
  apply andb_prop in H as [Hc Ha]. unfold plainChar in Hc.
  apply andb_prop in Hc as [Hc _]. apply negb_true_iff in Hc.
  rewrite Hc, (IH Ha). reflexivity.
Qed.

Lemma span_group (body rest : JS.JSString) :
  forallb plainChar body = true ->
  JS.span (fun c => negb (c =? 41)%N) (body ++ 41%N :: rest)
  = (body, 41%N :: rest).
Proof.
  intros H. apply span_run; [|reflexivity].
  rewrite forallb_forall in *. intros c Hc. specialize (H c Hc).
  unfold plainChar in H. apply andb_prop in H as [_ H]. exact H.
Qed.

Lemma matchRgba_unfold (s : JS.JSString) :
  matchRgba s =
  match matchRgbaAt s with
  | Some g => Some g
  | None => match s with [] => None | _ :: s' => matchRgba s' end
  end.
Proof. destruct s; reflexivity. Qed.

(** [rgb(] body [)] and [rgba(] body [)] match where they start, and
    capture the body. *)
Lemma matchRgbaAt_group (body rest : JS.JSString) :
  body <> [] ->
  forallb (fun c => negb (c =? 41)%N) body = true ->
  matchRgbaAt (JS.str "rgb(" ++ body ++ 41%N :: rest) = Some body
  /\ matchRgbaAt (JS.str "rgba(" ++ body ++ 41%N :: rest) = Some body.
Proof.
  intros Hne Hplain.
  assert (Hspan :
            JS.span (fun c => negb (c =? 41)%N) (body ++ 41%N :: rest)
            = (body, 41%N :: rest))
    by (apply span_run; [exact Hplain | reflexivity]).
  split.
  - change (JS.str "rgb(" ++ body ++ 41%N :: rest)
      with (114%N :: 103%N :: 98%N :: 40%N :: body ++ 41%N :: rest).
    unfold matchRgbaAt.
    replace (JS.startsWith (JS.str "rgb") _) with true by reflexivity.
    cbn [skipn]. rewrite Hspan. destruct body; [contradiction|reflexivity].
  - change (JS.str "rgba(" ++ body ++ 41%N :: rest)
      with (114%N :: 103%N :: 98%N :: 97%N :: 40%N :: body ++ 41%N :: rest).
    unfold matchRgbaAt.
    replace (JS.startsWith (JS.str "rgb") _) with true by reflexivity.
    cbn [skipn]. rewrite Hspan. destruct body; [contradiction|reflexivity].
Qed.

(** The pieces of a group, joined by commas. *)
Fixpoint joinCommas (pieces : list JS.JSString) : JS.JSString :=
  match pieces with
  | [] => []
  | [p] => p
  | p :: ps => p ++ 44%N :: joinCommas ps
  end.

Lemma joinCommas_no_paren (pieces : list JS.JSString) :
  forallb (forallb plainChar) pieces = true ->
  forallb (fun c => negb (c =? 41)%N) (joinCommas pieces) = true.
Proof.
  induction pieces as [|p ps IH]; [reflexivity|]. intros H.
  cbn [forallb] in H. apply andb_prop in H as [Hp Hps].
  assert (Hp' : forallb (fun c => negb (c =? 41)%N) p = true).
  { rewrite forallb_forall in *. intros c Hc. specialize (Hp c Hc).
    unfold plainChar in Hp. apply andb_prop in Hp as [_ Hp]. exact Hp. }
  destruct ps as [|q ps]; [exact Hp'|].
  change (joinCommas (p :: q :: ps)) with (p ++ 44%N :: joinCommas (q :: ps)).
  rewrite forallb_app, Hp'. cbn [forallb andb]. apply IH, Hps.
Qed.

Lemma matchRgba_group_commas (prefix : String.string)
    (pieces : list JS.JSString) :
  prefix = "rgb("%string \/ prefix = "rgba("%string ->
  joinCommas pieces <> [] ->
  forallb (forallb plainChar) pieces = true ->
  matchRgba (JS.str prefix ++ joinCommas pieces ++ [41%N])
  = Some (joinCommas pieces).
Proof.
  intros Hprefix Hne Hplain.
  pose proof (joinCommas_no_paren pieces Hplain) as Hnp.
  destruct (matchRgbaAt_group (joinCommas pieces) [] Hne Hnp) as [H3 H4].
  rewrite matchRgba_unfold.
  destruct Hprefix as [-> | ->]; [rewrite H3 | rewrite H4]; reflexivity.
Qed.

(** Opaque black as the backend at hand builds it. *)
Definition opaqueBlack : Float32Array :=
  makeColor (JS.Num 0) (JS.Num 0) (JS.Num 0) (JS.Num 1)
            (JS.Num 0) (JS.Num 0) (JS.Num 0).

(** A colour from three channel values in [0, 255] and an alpha. *)
Definition colorOfChannels (v0 v1 v2 a : JS.number) : Float32Array :=
  makeColor (JS.div_const v0 255) (JS.div_const v1 255) (JS.div_const v2 255)
            a v0 v1 v2.

(** A colour from three hexadecimal pairs and an alpha; the legacy
    constructor gets the channels scaled back to [0, 255]. *)
Definition colorOfHex (p0 p1 p2 a : JS.number) : Float32Array :=
  makeColor (JS.div_const p0 255) (JS.div_const p1 255) (JS.div_const p2 255)
            a
            (JS.mul_const (JS.div_const p0 255) 255)
            (JS.mul_const (JS.div_const p1 255) 255)
            (JS.mul_const (JS.div_const p2 255) 255).

Lemma parseColorManual_rgb_values (prefix body : JS.JSString) :
  JS.startsWith (JS.str "#") (prefix ++ body ++ [41%N]) = false ->
  matchRgba (prefix ++ body ++ [41%N]) = Some body ->
  parseColorManual (prefix ++ body ++ [41%N]) =
  let values := map (fun v => JS.parseFloat (JS.trim v)) (JS.split 44 body) in
  if (3 <=? List.length values)%nat then
    colorOfChannels (nth 0 values JS.NaN) (nth 1 values JS.NaN)
      (nth 2 values JS.NaN)
      (if (3 <? List.length values)%nat then nth 3 values JS.NaN
       else JS.Num 1)
  else opaqueBlack.
Proof.
  intros Hhash Hmatch. unfold parseColorManual. rewrite Hhash, Hmatch.
  reflexivity.
Qed.

(** What the manual parse of a colour string gives, and when [parseColor]
    takes it: [#rrggbb] is read as three pairs of hexadecimal digits over
    255 with alpha 1, and [#rrggbbaa] with the fourth pair over 255 as
    alpha; [rgb(r,g,b)] as the three values over 255 with alpha 1 and
    [rgba(r,g,b,a)] with [a] as alpha; and a string that neither starts
    with [#] nor holds an [rgb(...)]/[rgba(...)] group of at least three
    comma-separated values gives opaque black. *)
Lemma parseColorManual_forms :
  (forall color_,
      match parseColorString canvasKit with
      | Some parse => parse (asString color_) = None
      | None => True
      end ->
      parseColor color_ = parseColorManual (asString color_))
  /\ (forall h1 h2 h3 h4 h5 h6,
         forallb JS.isHexDigit [h1; h2; h3; h4; h5; h6] = true ->
         parseColorManual (JS.str "#" ++ [h1; h2; h3; h4; h5; h6]) =
         colorOfHex (hexPair h1 h2) (hexPair h3 h4) (hexPair h5 h6)
                    (JS.Num 1))
  /\ (forall h1 h2 h3 h4 h5 h6 h7 h8,
         forallb JS.isHexDigit [h1; h2; h3; h4; h5; h6; h7; h8] = true ->
         parseColorManual (JS.str "#" ++ [h1; h2; h3; h4; h5; h6; h7; h8]) =
         colorOfHex (hexPair h1 h2) (hexPair h3 h4) (hexPair h5 h6)
                    (JS.div_const (hexPair h7 h8) 255))
  /\ (forall r_ g_ b_,
         r_ <> [] -> g_ <> [] -> b_ <> [] ->
         forallb JS.isDigit r_ = true ->
         forallb JS.isDigit g_ = true ->
         forallb JS.isDigit b_ = true ->
         parseColorManual
           (JS.str "rgb(" ++ (r_ ++ 44%N :: g_ ++ 44%N :: b_) ++ [41%N]) =
         colorOfChannels (decimalRun r_) (decimalRun g_) (decimalRun b_)
                         (JS.Num 1))
  /\ (forall r_ g_ b_ a_,
         r_ <> [] -> g_ <> [] -> b_ <> [] ->
         forallb JS.isDigit r_ = true ->
         forallb JS.isDigit g_ = true ->
         forallb JS.isDigit b_ = true ->
         forallb plainChar a_ = true ->
         parseColorManual
           (JS.str "rgba("
            ++ (r_ ++ 44%N :: g_ ++ 44%N :: b_ ++ 44%N :: a_) ++ [41%N]) =
         colorOfChannels (decimalRun r_) (decimalRun g_) (decimalRun b_)
                         (JS.parseFloat (JS.trim a_)))
  /\ (forall s,
         JS.startsWith (JS.str "#") s = false ->
         match matchRgba s with
         | Some group => (List.length (JS.split 44 group) < 3)%nat
         | None => True
         end ->
         parseColorManual s = opaqueBlack).
Proof.
  split; [|split; [|split; [|split; [|split]]]].
  - intros color_ H. unfold parseColor.
    destruct (parseColorString canvasKit) as [parse|]; [|reflexivity].
    rewrite H. reflexivity.
  - intros h1 h2 h3 h4 h5 h6 H. cbn [forallb] in H.
    repeat (apply andb_prop in H as [? H]).
    unfold parseColorManual, colorOfHex.
    cbn [JS.str map String.list_ascii_of_string N_of_ascii app
         JS.startsWith N.eqb Pos.eqb andb skipn JS.slice firstn Nat.sub
         List.length Nat.ltb Nat.leb].
    rewrite !parseInt16_pair by assumption. reflexivity.
  - intros h1 h2 h3 h4 h5 h6 h7 h8 H. cbn [forallb] in H.
    repeat (apply andb_prop in H as [? H]).
    unfold parseColorManual, colorOfHex.
    cbn [JS.str map String.list_ascii_of_string N_of_ascii app
         JS.startsWith N.eqb Pos.eqb andb skipn JS.slice firstn Nat.sub
         List.length Nat.ltb Nat.leb].
    rewrite !parseInt16_pair by assumption. reflexivity.
  - intros r_ g_ b_ Hr Hg Hb Dr Dg Db.
    pose proof (digits_plain _ Dr) as Pr. pose proof (digits_plain _ Dg) as Pg.
    pose proof (digits_plain _ Db) as Pb.
    rewrite parseColorManual_rgb_values.
    + rewrite (split_comma r_ _ Pr), (split_comma g_ _ Pg), (split_plain b_ Pb).
      cbn [map List.length Nat.leb Nat.ltb nth].
      rewrite !trim_digits, !parseFloat_digits by assumption. reflexivity.
    + reflexivity.
    + apply (matchRgba_group_commas "rgb("%string [r_; g_; b_]).
      * left. reflexivity.
      * destruct r_; [contradiction | discriminate].
      * cbn [forallb]. rewrite Pr, Pg, Pb. reflexivity.
  - intros r_ g_ b_ a_ Hr Hg Hb Dr Dg Db Pa.
    pose proof (digits_plain _ Dr) as Pr. pose proof (digits_plain _ Dg) as Pg.
    pose proof (digits_plain _ Db) as Pb.
    rewrite parseColorManual_rgb_values.
    + rewrite (split_comma r_ _ Pr), (split_comma g_ _ Pg),
        (split_comma b_ _ Pb), (split_plain a_ Pa).
      cbn [map List.length Nat.leb Nat.ltb nth].
      rewrite !trim_digits, !parseFloat_digits by assumption. reflexivity.
    + reflexivity.
    + apply (matchRgba_group_commas "rgba("%string [r_; g_; b_; a_]).
      * right. reflexivity.
      * destruct r_; [contradiction | discriminate].
      * cbn [forallb]. rewrite Pr, Pg, Pb, Pa. reflexivity.
  - intros s Hhash Hgroup. unfold parseColorManual, opaqueBlack.
    rewrite Hhash. destruct (matchRgba s) as [group|]; [|reflexivity].
    rewrite length_map.
    destruct (3 <=? List.length (JS.split 44 group))%nat eqn:E;
      [|reflexivity].
    apply Nat.leb_le in E. lia.
Qed.


End SkiaRenderer.

(* ===================================================================== *)
(** * Properties of the global-alpha stack and of the dash pattern         *)
(* ===================================================================== *)

Lemma GlobalAlpha_step_keeps_base (s : GlobalAlpha.t) (o : GlobalAlpha.op) :
  (exists rest, s = 1 :: rest) ->
  exists rest, GlobalAlpha.step s o = 1 :: rest.
Proof.
  intros [rest ->]. destruct o as [v|]; simpl.
  - exists (rest ++ [v]). reflexivity.
  - destruct rest as [|b rest' _] using rev_ind.
    + exists []. reflexivity.
    + rewrite GlobalAlpha_pop_top. exists rest'. reflexivity.
Qed.

Lemma GlobalAlpha_run_keeps_base (ops : list GlobalAlpha.op) (s : GlobalAlpha.t) :
  (exists rest, s = 1 :: rest) ->
  exists rest, fold_left GlobalAlpha.step ops s = 1 :: rest.
Proof.
  revert s. induction ops as [|o ops IH]; intros s Hs; simpl.
  - exact Hs.
  - apply IH, GlobalAlpha_step_keeps_base, Hs.
Qed.

(** C9.  A fresh global-alpha stack holds the single value 1; after every
    sequence of [push] and [pop] calls the stack is non-empty (its base
    entry 1 is still there); [pop] on a stack with more than one entry
    removes and returns the top; [pop] on a single-entry stack returns 1
    and removes nothing; and [value], the alpha every paint colour is
    resolved with, is the top entry of the stack. *)
Theorem GlobalAlpha_never_empty :
  GlobalAlpha.init = [1]
  /\ (forall ops, exists rest, GlobalAlpha.run ops = 1 :: rest)
  /\ (forall ops, GlobalAlpha.run ops <> [])
  /\ (forall s a v, GlobalAlpha.pop (a :: s ++ [v]) = (v, a :: s))
  /\ (forall a, GlobalAlpha.pop [a] = (1, [a]))
  /\ (forall ops, exists below v,
         GlobalAlpha.run ops = below ++ [v]
         /\ GlobalAlpha.value (GlobalAlpha.run ops) = v).
Proof.
  assert (Hbase : forall ops, exists rest, GlobalAlpha.run ops = 1 :: rest).
  { intros ops. apply GlobalAlpha_run_keeps_base. exists []. reflexivity. }
  repeat split.
  - exact Hbase.
  - intros ops. destruct (Hbase ops) as [rest ->]. discriminate.
  - intros s a v. apply GlobalAlpha_pop_top.
  - intros ops. destruct (Hbase ops) as [rest E].
    assert (Hne : GlobalAlpha.run ops <> []) by (rewrite E; discriminate).
    destruct (exists_last Hne) as [below [v Ev]].
    exists below, v. split; [exact Ev|].
    unfold GlobalAlpha.value. rewrite Ev. apply last_last.
Qed.

(** ** Dash and space lengths *)

Lemma Qleb_false (a b : Q) : b < a -> Qleb a b = false.
Proof.
  intros H. unfold Qleb. destruct (Qlt_le_dec b a); [reflexivity|].
  exfalso. lra.
Qed.

Lemma Qleb_true (a b : Q) : a <= b -> Qleb a b = true.
Proof.
  intros H. unfold Qleb. destruct (Qlt_le_dec b a); [|reflexivity].
  exfalso. lra.
Qed.

Lemma Qltb_true (a b : Q) : a < b -> Qltb a b = true.
Proof.
  intros H. unfold Qltb. destruct (Qlt_le_dec a b); [reflexivity|].
  exfalso. lra.
Qed.

Lemma Qltb_false (a b : Q) : b <= a -> Qltb a b = false.
Proof.
  intros H. unfold Qltb. destruct (Qlt_le_dec a b); [|reflexivity].
  exfalso. lra.
Qed.

Lemma base_lengths_positive (style_ : BORDER_STYLE) (w : Q) :
  0 < w -> 0 < baseDashLength style_ w /\ 0 < baseSpaceLength style_ w.
Proof.
  intros Hw. unfold baseDashLength, baseSpaceLength.
  destruct (isDOTTED style_); [split; exact Hw|].
  destruct (Qlt_le_dec w 3); split; lra.
Qed.

(** In the long-side branch there are at least two dashes, so neither
    divisor of the balancing is zero. *)
Lemma numberOfDashes_ge_2 (d s L : Q) :
  0 < d -> 0 < s -> d * 2 + s < L ->
  2 <= Math_floor ((L + s) / (d + s)).
Proof.
  intros Hd Hs HL. unfold Math_floor.
  assert (H2 : 2 <= (L + s) / (d + s)).
  { apply Qle_shift_div_l; lra. }
  change 2 with (inject_Z 2). rewrite <- Zle_Qle.
  change 2%Z with (Qfloor (inject_Z 2)) at 1.
  apply Qfloor_resp_le. exact H2.
Qed.

(** C4 (as the code has it).  Before the balancing, a dotted side of width
    [w] has dash length [w] and space length [w]; a dashed side has dash
    length [w * 2] and space length [w] when [w] is at least 3, and dash
    length [w * 3] and space length [w * 2] when [w] is below 3.  So a 2px
    dashed border on a side of length 100 gets dash 6 and, after the
    balancing, space 40/9 (about 4.44). *)
Theorem base_dash_lengths :
  (forall w,
      (baseDashLength DOTTED w = w /\ baseSpaceLength DOTTED w = w)
      /\ (3 <= w ->
          baseDashLength DASHED w = w * 2 /\ baseSpaceLength DASHED w = w)
      /\ (w < 3 ->
          baseDashLength DASHED w = w * 3
          /\ baseSpaceLength DASHED w = w * 2))
  /\ fst (dashPattern DASHED 2 100) == 6
  /\ snd (dashPattern DASHED 2 100) == 40 # 9.
Proof.
  split; [|split; reflexivity].
  intros w. unfold baseDashLength, baseSpaceLength. cbn [isDOTTED].
  split; [split; reflexivity|].
  destruct (Qlt_le_dec w 3); split; intros H;
    try (split; reflexivity); exfalso; lra.
Qed.

(** C5 (as the code has it).  The balancing is applied to every dashed or
    dotted side alike.  In its long-side branch (length above
    [2 * dash + space], for a positive width) the number of dashes is at
    least 2, the dash length stays the base length, and the space is
    [minSpace] when [maxSpace] is not positive or when [minSpace] is
    strictly closer to the base space than [maxSpace]; otherwise, ties
    included, it is [maxSpace]. *)
Theorem long_side_space_choice :
  forall style_ w L,
    0 < w ->
    let d := baseDashLength style_ w in
    let s := baseSpaceLength style_ w in
    d * 2 + s < L ->
    let numberOfDashes := Math_floor ((L + s) / (d + s)) in
    let minSpace := (L - numberOfDashes * d) / (numberOfDashes - 1) in
    let maxSpace := (L - (numberOfDashes + 1) * d) / numberOfDashes in
    2 <= numberOfDashes
    /\ fst (dashPattern style_ w L) = d
    /\ (maxSpace <= 0 \/ Qabs (s - minSpace) < Qabs (s - maxSpace) ->
        snd (dashPattern style_ w L) = minSpace)
    /\ (0 < maxSpace -> Qabs (s - maxSpace) <= Qabs (s - minSpace) ->
        snd (dashPattern style_ w L) = maxSpace).
Proof.
  intros style_ w L Hw d s HL numberOfDashes minSpace maxSpace.
  destruct (base_lengths_positive style_ w Hw) as [Hd Hs].
  fold d in Hd. fold s in Hs.
  assert (Hpattern :
            dashPattern style_ w L =
            (d, if Qleb maxSpace 0
                   || Qltb (Math_abs (s - minSpace)) (Math_abs (s - maxSpace))
                then minSpace else maxSpace)).
  { unfold dashPattern, balanceDash. fold d. fold s.
    rewrite (Qleb_false L (d * 2)) by lra.
    rewrite (Qleb_false L (d * 2 + s)) by lra.
    reflexivity. }
  split; [apply numberOfDashes_ge_2; assumption|].
  rewrite Hpattern. cbn [fst snd]. unfold Math_abs.
  split; [reflexivity|]. split.
  - intros [Hmax | Hcloser].
    + rewrite (Qleb_true _ _ Hmax). reflexivity.
    + rewrite (Qltb_true _ _ Hcloser), orb_true_r. reflexivity.
  - intros Hmax Htie.
    rewrite (Qleb_false _ _ Hmax), (Qltb_false _ _ Htie). reflexivity.
Qed.

(* ===================================================================== *)
(** * The properties on concrete inputs                                   *)
(* ===================================================================== *)

(** C1 on [Sample.tree]: the steps come in the order of the eight steps
    (the paints are numbered by their step), and rendering the tree is
    running them in that order. *)
Lemma renderStack_painting_order_witness :
  map stepTag (paintingOrder Sample.tree) =
  [(false, 1); (false, 2); (true, 2); (true, 1); (false, 4); (true, 4);
   (false, 5); (true, 5); (false, 6); (true, 6); (false, 60); (true, 60);
   (false, 7); (true, 7); (false, 8); (true, 8)]%N
  /\ renderStack Sample.canvasKit Sample.options Sample.segmentGraphemes
       Sample.transformPath Sample.renderOtherContent Sample.tree
       (newRenderer 0)
     = forEach (runStep Sample.canvasKit Sample.options
                  Sample.segmentGraphemes Sample.transformPath
                  Sample.renderOtherContent)
               (paintingOrder Sample.tree) (newRenderer 0).
Proof.
  split.
  - reflexivity.
  - exact (proj1 (renderStack_painting_order Sample.canvasKit Sample.options
                    Sample.segmentGraphemes Sample.transformPath
                    Sample.renderOtherContent)
                 Sample.tree (newRenderer 0)).
Defined.

(** C2 on [Sample.tree], which holds a paint with an opacity effect: after
    the render both stacks are back to their initial state. *)
Lemma applyEffects_unwinds_then_applies_witness :
  let after :=
    stateOf (render Sample.canvasKit Sample.options Sample.segmentGraphemes
               Sample.transformPath Sample.parseStackingContexts
               Sample.renderOtherContent
               (Sample.containerOf Sample.plainStyles [] 1%N) (newRenderer 0)) in
  _activeEffects after = []
  /\ globalAlpha after = [1]
  /\ GlobalAlpha.value (globalAlpha after) = 1
  /\ applyEffects [] after = (tt, [], after).
Proof.
  exact (proj2 (proj2 (applyEffects_unwinds_then_applies Sample.canvasKit
                         Sample.options Sample.segmentGraphemes
                         Sample.transformPath Sample.parseStackingContexts
                         Sample.renderOtherContent))
               (Sample.containerOf Sample.plainStyles [] 1%N) 0%N).
Defined.

(** C3 on the text "Hi" with one grey shadow, offset by (2, 3) and blurred
    by 4: [renderTextNode] draws the glyph run with the fill paint [1]
    first (call 8 of the trace) and the blurred, offset copy with the
    shadow paint [2] after it (call 15), so the shadow is painted over the
    glyphs it belongs under; the claim has the shadows drawn before the
    main fill. *)
Theorem textShadows_painted_over_fill :
  let tr :=
    traceOf (renderTextNode Sample.canvasKit Sample.options
               Sample.segmentGraphemes Sample.textNode Sample.shadowedStyles
               (newRenderer 0)) in
  tr = [newFont 0 None None; setSize 0 16; setTypeface 0 3;
        setSubpixel 0 true;
        newPaint 1; setStyle 1 Fill; setAntiAlias 1 true;
        setColor 1 (multiplyByAlpha
                      (Color4f (JS.Num (255 # 255)) (JS.Num (0 # 255))
                               (JS.Num (0 # 255)) (JS.Num 1)) 1);
        drawText (JS.str "Hi") 10 32 1 0;
        copyPaint 2 1;
        setColor 2 (multiplyByAlpha
                      (Color4f (JS.Num (128 # 255)) (JS.Num (128 # 255))
                               (JS.Num (128 # 255)) (JS.Num 1)) 1);
        save; translate 2 3; MakeBlur 3 (4 # 2); setMaskFilter 2 3;
        drawText (JS.str "Hi") 10 32 2 0;
        restore; delete 2; delete 3;
        delete 1; delete 0]
  /\ firstIndex (drawsTextWith 1) tr = Some 8%nat
  /\ firstIndex (drawsTextWith 2) tr = Some 15%nat
  /\ (8 < 15)%nat.
Proof. vm_compute. repeat split; try reflexivity. lia. Qed.

(** C4 at widths 5 and 2: the dashed base lengths are [2w] and [w] at 5
    and [3w] and [2w] at 2. *)
Lemma base_dash_lengths_witness :
  3 <= 5 /\ 2 < 3
  /\ baseDashLength DASHED 5 = 5 * 2 /\ baseSpaceLength DASHED 5 = 5
  /\ baseDashLength DASHED 2 = 2 * 3 /\ baseSpaceLength DASHED 2 = 2 * 2.
Proof.
  assert (H5 : 3 <= 5) by (vm_compute; discriminate).
  assert (H2 : 2 < 3) by reflexivity.
  split; [exact H5 | split; [exact H2|]].
  destruct (proj1 base_dash_lengths 5) as [_ [Hwide _]].
  destruct (proj1 base_dash_lengths 2) as [_ [_ Hnarrow]].
  destruct (Hwide H5) as [A B]. destruct (Hnarrow H2) as [C D].
  repeat split; assumption.
Defined.

(** The claim C4 as the specification words it fails at width 2: the base
    dash length of a dashed side is 6, not [2 * 2], its base space length
    is 4, not 2, and on a side of length 100 the pattern is dash 6 and
    space 40/9, not about 4 and about 2. *)
Lemma base_dash_lengths_counterexample :
  baseDashLength DASHED 2 == 6
  /\ baseSpaceLength DASHED 2 == 4
  /\ ~ baseDashLength DASHED 2 == 2 * 2
  /\ ~ baseSpaceLength DASHED 2 == 2
  /\ fst (dashPattern DASHED 2 100) == 6
  /\ snd (dashPattern DASHED 2 100) == 40 # 9.
Proof.
  repeat split; try reflexivity; vm_compute; discriminate.
Qed.

(** C5 on a dashed side of width 5 and length 46: three dashes,
    [minSpace] 8 and [maxSpace] 2 are equally far from the base space 5,
    and the space chosen is [maxSpace]. *)
Lemma long_side_space_choice_witness :
  0 < 5
  /\ baseDashLength DASHED 5 * 2 + baseSpaceLength DASHED 5 < 46
  /\ snd (dashPattern DASHED 5 46) =
     (46 - (Math_floor ((46 + baseSpaceLength DASHED 5)
                        / (baseDashLength DASHED 5 + baseSpaceLength DASHED 5))
            + 1) * baseDashLength DASHED 5)
     / Math_floor ((46 + baseSpaceLength DASHED 5)
                   / (baseDashLength DASHED 5 + baseSpaceLength DASHED 5)).
Proof.
  assert (Hw : 0 < 5) by reflexivity.
  assert (HL : baseDashLength DASHED 5 * 2 + baseSpaceLength DASHED 5 < 46)
    by reflexivity.
  split; [exact Hw | split; [exact HL|]].
  destruct (long_side_space_choice DASHED 5 46 Hw HL) as [_ [_ [_ Hmax]]].
  apply Hmax.
  - reflexivity.
  - vm_compute. discriminate.
Defined.

(** The claim C5 as the specification words it fails twice: a dotted side
    of width 1 and length 10 is balanced (its space becomes 4/5, not the
    base space 1); and on the tie of the dashed side of width 5 and length
    46 the space chosen is [maxSpace] 2, not [minSpace] 8. *)
Lemma long_side_space_choice_counterexample :
  (snd (dashPattern DOTTED 1 10) == 4 # 5
   /\ ~ snd (dashPattern DOTTED 1 10) == baseSpaceLength DOTTED 1)
  /\ (let d := baseDashLength DASHED 5 in
      let s := baseSpaceLength DASHED 5 in
      let n := Math_floor ((46 + s) / (d + s)) in
      let minSpace := (46 - n * d) / (n - 1) in
      let maxSpace := (46 - (n + 1) * d) / n in
      minSpace == 8 /\ maxSpace == 2
      /\ Qabs (s - minSpace) == Qabs (s - maxSpace)
      /\ snd (dashPattern DASHED 5 46) == maxSpace
      /\ ~ snd (dashPattern DASHED 5 46) == minSpace).
Proof.
  repeat split; try reflexivity; vm_compute; discriminate.
Qed.

(** Two colours as [asString] writes them, with the same channels. *)
Definition steelBlue : Color :=
  {| asString := JS.str "rgb(51,102,153)"; isTransparent := false |}.
Definition steelBlueFaded : Color :=
  {| asString := JS.str "rgba(51,102,153,0.8)"; isTransparent := false |}.


(** C7 on "A", a CJK ideograph and "B", with fonts that measure glyph by
    glyph ([Sample.canvasKitByGlyph]): the primary font [0] has no glyph
    for the ideograph, so the temporary font [5] is built from the fallback
    typeface, draws it at x = 18 and is deleted, as the claim says.  But
    the advance is not the width the fallback font measures for the
    ideograph, which is 12: the code asks the fallback font for the widths
    of the glyph identifiers the primary font gave, [0], and gets the
    width 5 of the fallback font's glyph 0.  "B" is drawn at 18 + 5 = 23,
    where the claim has it at 18 + 12 = 30. *)
Theorem fallback_advance_measures_primary_glyph_ids :
  let tr :=
    traceOf (renderTextWithLetterSpacing Sample.canvasKitByGlyph
               Sample.options Sample.segmentGraphemes Sample.mixed 0 12 4
               Sample.font (newRenderer 5)) in
  let ideograph := [20013%N] in
  let primaryIds :=
    Font_getGlyphIDs Sample.canvasKitByGlyph (fontTypeface Sample.font)
                     ideograph in
  let fallbackIds :=
    Font_getGlyphIDs Sample.canvasKitByGlyph (Some Sample.fallbackTypeface)
                     ideograph in
  tr = [drawText [65%N] 10 32 4 0;
        newFont 5 (Some Sample.fallbackTypeface) (Some 16);
        drawText ideograph 18 32 4 5;
        delete 5;
        drawText [66%N] 23 32 4 0]
  /\ primaryIds = [0%N]
  /\ fallbackIds = [20013%N]
  /\ Font_getGlyphWidths Sample.canvasKitByGlyph
       (Some Sample.fallbackTypeface) 16 fallbackIds 4 = [12]
  /\ Font_getGlyphWidths Sample.canvasKitByGlyph
       (Some Sample.fallbackTypeface) 16 primaryIds 4 = [5]
  /\ 18 + 5 + 0 == 23
  /\ ~ 18 + 12 + 0 == 23.
Proof.
  vm_compute. repeat split; try reflexivity. discriminate.
Qed.

(** C8 on an elliptical layer with radii 40 and 10 over [Sample.box]:
    the centre of the box is (60, 30), written [120 # 2] and [60 # 2]; the
    y axis is scaled by 10/40; the rectangle drawn runs from y = -10
    ([-400 # 40]) to y = 70 ([28000 # 400]). *)
Lemma radial_gradient_layer_witness :
  0 < 40 /\ 0 < 10 /\ ~ 40 == 10
  /\ radialShaderBuilt Sample.canvasKit Sample.rendering 50 10 40 Sample.stops
     = true
  /\ traceOf (renderRadialGradientLayer Sample.canvasKit
                (Sample.containerOf Sample.plainStyles [] 1%N)
                Sample.rendering 50 10 (40, 10) Sample.stops (newRenderer 1))
     = radialPrologue Sample.canvasKit Sample.rendering 50 10 40
                      Sample.stops 1
       ++ [save; translate (120 # 2) (60 # 2);
           concat [1; 0; 0; 0; 10 # 40; 0; 0; 0; 1];
           translate (-120 # 2) (-60 # 2);
           drawRect [10; -400 # 40; 110; 28000 # 400] 3;
           restore]
       ++ radialEpilogue 1.
Proof.
  assert (Hrx : 0 < 40) by reflexivity.
  assert (Hry : 0 < 10) by reflexivity.
  assert (Hne : ~ 40 == 10) by (vm_compute; discriminate).
  split; [exact Hrx | split; [exact Hry | split; [exact Hne|]]].
  split; [reflexivity|].
  destruct (radial_gradient_layer Sample.canvasKit
              (Sample.containerOf Sample.plainStyles [] 1%N)
              Sample.rendering 50 10 40 10 Sample.stops (newRenderer 1))
    as [_ [_ [Hdrawn _]]].
  destruct (Hdrawn Hrx Hry eq_refl) as [_ Hellipse].
  rewrite (Hellipse Hne).
  vm_compute. reflexivity.
Defined.

(** The claim C8 as the specification words it fails on a backend without
    [Shader.MakeRadialGradient]: with equal positive radii the layer's
    path is not filled, nothing is drawn at all. *)
Lemma radial_gradient_layer_counterexample :
  0 < 40 /\ 40 == 40
  /\ traceOf (renderRadialGradientLayer Sample.canvasKitWithoutRadial
                (Sample.containerOf Sample.plainStyles [] 1%N)
                Sample.rendering 50 10 (40, 40) Sample.stops (newRenderer 1))
     = []
  /\ existsb isDraw
       (traceOf (renderRadialGradientLayer Sample.canvasKitWithoutRadial
                   (Sample.containerOf Sample.plainStyles [] 1%N)
                   Sample.rendering 50 10 (40, 40) Sample.stops
                   (newRenderer 1)))
     = false.
Proof. repeat split; reflexivity. Qed.

(** C10 on the dashed top side, 2 wide, of [Sample.boxCurves]: the calls
    of the method, between one [save] and one [restore]. *)
Lemma renderDashedDottedBorder_balanced_witness :
  traceOf (renderDashedDottedBorder Sample.canvasKit Sample.red 2 0
             Sample.boxCurves DASHED (newRenderer 1))
  = [save;
     newPaint 1; setStyle 1 Stroke; setAntiAlias 1 true;
     setColor 1 (multiplyByAlpha
                   (Color4f (JS.Num (255 # 255)) (JS.Num (0 # 255))
                            (JS.Num (0 # 255)) (JS.Num 1)) 1);
     newPath 2; moveTo 2 0 0; lineTo 2 100 0; lineTo 2 98 2; lineTo 2 2 2;
     clipPath 2; delete 2;
     setStrokeWidth 1 (51 # 10); MakeDash 3 [6; 40 # 9] 0;
     setPathEffect 1 3;
     newPath 4; moveTo 4 0 0; lineTo 4 100 0;
     drawPath 4 1;
     delete 1; delete 4; delete 3;
     restore]
  /\ saveDepth
       (traceOf (renderDashedDottedBorder Sample.canvasKit Sample.red 2 0
                   Sample.boxCurves DASHED (newRenderer 1))) = 0%Z
  /\ leaked
       (traceOf (renderDashedDottedBorder Sample.canvasKit Sample.red 2 0
                   Sample.boxCurves DASHED (newRenderer 1))) = [].
Proof.
  destruct (renderDashedDottedBorder_balanced Sample.canvasKit Sample.red 2 0
              Sample.boxCurves DASHED (newRenderer 1))
    as [_ [Hdepth [Hleak _]]].
  split; [vm_compute; reflexivity | split; [exact Hdepth | exact Hleak]].
Defined.

(** C9 on a short run: a push, then three pops, leave the base entry. *)
Lemma GlobalAlpha_never_empty_witness :
  GlobalAlpha.run [GlobalAlpha.Push (1 # 2); GlobalAlpha.Pop;
                   GlobalAlpha.Pop; GlobalAlpha.Pop] = [1]
  /\ GlobalAlpha.run [GlobalAlpha.Push (1 # 2); GlobalAlpha.Pop;
                      GlobalAlpha.Pop; GlobalAlpha.Pop] <> [].
Proof.
  split; [reflexivity|].
  exact (proj1 (proj2 (proj2 GlobalAlpha_never_empty))
               [GlobalAlpha.Push (1 # 2); GlobalAlpha.Pop;
                GlobalAlpha.Pop; GlobalAlpha.Pop]).
Defined.

(* ===================================================================== *)
(** * Native objects and canvas depth, method by method                   *)
(* ===================================================================== *)

(** The objects alive are distinct and were handed out by the backend's
    allocator before its next handle. *)
Definition bounded (r : Renderer) (live : list Handle) : Prop :=
  NoDup live /\ Forall (fun h => (h < nextHandle r)%N) live.

Definition activeDepth (r : Renderer) : Z :=
  Z.of_nat (List.length (_activeEffects r)).

(** [runs pre m post d]: started with the objects [pre] alive (besides any
    others, which it leaves alone), the method [m] ends with the objects
    [post result] alive, and the canvas ends [d] levels of save/restore
    deeper than the growth of [_activeEffects] accounts for. *)
Definition runs {A} (pre : list Handle) (m : M A) (post : A -> list Handle)
    (d : Z) : Prop :=
  forall r frame,
    bounded r (frame ++ pre) ->
    liveAfter (frame ++ pre) (traceOf (m r)) = frame ++ post (resultOf (m r))
    /\ bounded (stateOf (m r)) (frame ++ post (resultOf (m r)))
    /\ (saveDepth (traceOf (m r)) + activeDepth r
        = d + activeDepth (stateOf (m r)))%Z.

(** Calls that neither create nor delete a native object. *)
Definition keepsObjects (c : Call) : bool :=
  match c with
  | delete _ => false
  | _ => match created c with Some _ => false | None => true end
  end.

Lemma liveStep_keepsObjects (live : list Handle) (c : Call) :
  keepsObjects c = true -> liveStep live c = live.
Proof. destruct c; simpl; intros H; try discriminate; reflexivity. Qed.

Lemma liveStep_created (live : list Handle) (c : Call) (h : Handle) :
  created c = Some h -> liveStep live c = live ++ [h].
Proof.
  destruct c; simpl; intros H; try discriminate;
    injection H as ->; reflexivity.
Qed.

Lemma saveDepth_created (c : Call) (h : Handle) :
  created c = Some h -> saveDepth [c] = 0%Z.
Proof. destruct c; simpl; intros H; try discriminate; reflexivity. Qed.

Lemma filter_absent (h : Handle) (l : list Handle) :
  ~ In h l -> filter (fun h' => negb (h' =? h)%N) l = l.
Proof.
  induction l as [|a l IH]; intros Hin; [reflexivity|]. simpl.
  destruct (N.eqb_spec a h) as [->|Hne].
  - exfalso. apply Hin. left. reflexivity.
  - simpl. rewrite IH; [reflexivity|]. intros H. apply Hin. right. exact H.
Qed.

Lemma filter_deleted (h : Handle) (l1 l2 : list Handle) :
  NoDup (l1 ++ h :: l2) ->
  filter (fun h' => negb (h' =? h)%N) (l1 ++ h :: l2) = l1 ++ l2.
Proof.
  intros Hnd. pose proof (NoDup_remove_2 _ _ _ Hnd) as Hnot.
  rewrite filter_app. simpl. rewrite N.eqb_refl. simpl.
  rewrite !filter_absent; [reflexivity| |];
    intros H; apply Hnot, in_or_app; [right|left]; exact H.
Qed.

Lemma bounded_grow (r r' : Renderer) (live : list Handle) :
  (nextHandle r <= nextHandle r')%N -> bounded r live -> bounded r' live.
Proof.
  intros Hle [Hnd Hall]. split; [exact Hnd|].
  eapply Forall_impl; [|exact Hall]. cbv beta. intros h Hh. lia.
Qed.

Lemma runs_ret {A} (pre : list Handle) (a : A) (post : A -> list Handle) :
  post a = pre -> runs pre (ret a) post 0.
Proof.
  intros E r frame Hb. unfold ret, traceOf, resultOf, stateOf. simpl.
  rewrite E. repeat split; try apply Hb. 
Qed.

Lemma runs_call (pre : list Handle) (c : Call) (d : Z) :
  keepsObjects c = true -> saveDepth [c] = d ->
  runs pre (call c) (fun _ => pre) d.
Proof.
  intros Hc Hd r frame Hb. unfold call, traceOf, resultOf, stateOf.
  cbn [fst snd liveAfter]. rewrite (liveStep_keepsObjects _ _ Hc), Hd.
  repeat split; try apply Hb.
Qed.

Lemma runs_alloc (pre : list Handle) (mk : Handle -> Call) :
  (forall h, created (mk h) = Some h) ->
  runs pre (alloc mk) (fun h => pre ++ [h]) 0.
Proof.
  intros Hmk r frame [Hnd Hall]. unfold alloc, traceOf, resultOf, stateOf.
  cbn [fst snd liveAfter].
  rewrite (liveStep_created _ _ _ (Hmk _)), (saveDepth_created _ _ (Hmk _)).
  rewrite <- app_assoc. repeat split.
  - rewrite app_assoc. apply NoDup_app; [exact Hnd | repeat constructor; intros [] |].
    intros h Hin [<-|[]]. rewrite Forall_forall in Hall.
    specialize (Hall _ Hin). lia.
  - rewrite app_assoc. apply Forall_app. split.
    + eapply Forall_impl; [|exact Hall]. cbn. intros h Hh. lia.
    + repeat constructor. cbn. lia.
Qed.

Lemma runs_delete (pre post : list Handle) (h : Handle) (l1 l2 : list Handle) :
  pre = l1 ++ h :: l2 -> post = l1 ++ l2 ->
  runs pre (call (delete h)) (fun _ => post) 0.
Proof.
  intros -> -> r frame [Hnd Hall]. unfold call, traceOf, resultOf, stateOf.
  cbn [fst snd liveAfter liveStep saveDepth].
  rewrite app_assoc in Hnd, Hall |- *. rewrite (filter_deleted _ _ _ Hnd).
  rewrite <- app_assoc. repeat split.
  - rewrite app_assoc. eapply NoDup_remove_1. exact Hnd.
  - rewrite app_assoc. apply Forall_app in Hall as [H1 H2].
    apply Forall_app. split; [exact H1|]. inversion H2. assumption.
Qed.

Lemma runs_bind {A B} (pre : list Handle) (m : M A) (k : A -> M B)
    (mid : A -> list Handle) (post : B -> list Handle) (d1 d2 d : Z) :
  runs pre m mid d1 ->
  (forall a, runs (mid a) (k a) post d2) ->
  d = (d1 + d2)%Z ->
  runs pre (bind m k) post d.
Proof.
  intros Hm Hk Hd r frame Hb. subst d.
  rewrite traceOf_bind, stateOf_bind, resultOf_bind.
  destruct (Hm r frame Hb) as (L1 & B1 & D1).
  destruct (Hk (resultOf (m r)) (stateOf (m r)) frame B1) as (L2 & B2 & D2).
  rewrite liveAfter_app, L1, L2, saveDepth_app.
  repeat split; try apply B2. lia.
Qed.

(** A method that is sound from no objects of its own is sound beside any
    others. *)
Lemma runs_frame {A} (pre : list Handle) (m : M A) (post : A -> list Handle)
    (d : Z) :
  runs [] m post d -> runs pre m (fun a => pre ++ post a) d.
Proof.
  intros H r frame Hb. specialize (H r (frame ++ pre)).
  rewrite !app_nil_r, <- !app_assoc in H. apply H. exact Hb.
Qed.

Lemma runs_clean {A} (pre : list Handle) (m : M A) (d : Z) :
  runs [] m (fun _ => []) d -> runs pre m (fun _ => pre) d.
Proof.
  intros H r frame Hb. specialize (H r (frame ++ pre)).
  rewrite !app_nil_r in H. apply H. exact Hb.
Qed.

Lemma runs_when (pre : list Handle) (b : bool) (m : M unit) :
  runs pre m (fun _ => pre) 0 -> runs pre (when b m) (fun _ => pre) 0.
Proof. intros H. destruct b; [exact H | apply runs_ret; reflexivity]. Qed.

Lemma runs_forEach {A} (pre : list Handle) (f : A -> M unit) (l : list A) :
  (forall a, In a l -> runs pre (f a) (fun _ => pre) 0) ->
  runs pre (forEach f l) (fun _ => pre) 0.
Proof.
  induction l as [|a l IH]; intros H; simpl.
  - apply runs_ret. reflexivity.
  - eapply runs_bind; [apply H; left; reflexivity | intros u | reflexivity].
    apply IH. intros a' Ha'. apply H. right. exact Ha'.
Qed.

Lemma runs_forEachIndexed {A} (pre : list Handle) (f : A -> nat -> M unit)
    (l : list A) :
  (forall a i, runs pre (f a i) (fun _ => pre) 0) ->
  runs pre (forEachIndexed f l) (fun _ => pre) 0.
Proof.
  intros H. unfold forEachIndexed. generalize 0%nat.
  induction l as [|a l IH]; intros i; cbn [forEachFrom].
  - apply runs_ret. reflexivity.
  - eapply runs_bind; [apply H | intros u; apply IH | reflexivity].
Qed.

Lemma runs_reduce {A B} (pre : list Handle) (f : B -> A -> M B) (l : list A)
    (b : B) :
  (forall b' a, runs pre (f b' a) (fun _ => pre) 0) ->
  runs pre (reduce f l b) (fun _ => pre) 0.
Proof.
  intros H. revert b. induction l as [|a l IH]; intros b; simpl.
  - apply runs_ret. reflexivity.
  - eapply runs_bind; [apply H | intros b'; apply IH | reflexivity].
Qed.

Lemma runs_readAlpha (pre : list Handle) :
  runs pre readAlpha (fun _ => pre) 0.
Proof. intros r frame Hb. cbn. repeat split; try apply Hb. Qed.

Lemma runs_pushAlpha (pre : list Handle) (v : Q) :
  runs pre (pushAlpha v) (fun _ => pre) 0.
Proof. intros r frame Hb. cbn. repeat split; try apply Hb. Qed.

Lemma runs_popAlpha (pre : list Handle) :
  runs pre popAlpha (fun _ => pre) 0.
Proof. intros r frame Hb. cbn. repeat split; try apply Hb. Qed.

(** [_activeEffects.push]: the array grows by one, the canvas stays. *)
Lemma runs_pushActive (pre : list Handle) (e : IElementEffect) :
  runs pre (pushActive e) (fun _ => pre) (-1).
Proof.
  intros r frame Hb. unfold pushActive, traceOf, resultOf, stateOf, activeDepth.
  cbn [fst snd liveAfter saveDepth _activeEffects].
  rewrite length_app. cbn [List.length].
  repeat split; try apply Hb. lia.
Qed.

Lemma runs_depth {A} (pre : list Handle) (m : M A) (post : A -> list Handle)
    (d d' : Z) :
  runs pre m post d' -> d' = d -> runs pre m post d.
Proof. intros H <-. exact H. Qed.

Lemma runs_framed {A} (pre : list Handle) (m : M A)
    (post0 post : A -> list Handle) (d0 d : Z) :
  runs [] m post0 d0 -> (forall a, post a = pre ++ post0 a) -> d0 = d ->
  runs pre m post d.
Proof.
  intros H Hpost <- r frame Hb.
  specialize (H r (frame ++ pre)). rewrite !app_nil_r in H.
  specialize (H Hb). rewrite Hpost, app_assoc. exact H.
Qed.

Lemma runs_frame_depth {A} (pre : list Handle) (m : M A)
    (post0 : A -> list Handle) (d0 d : Z) :
  runs [] m post0 d0 -> d0 = d -> runs pre m (fun a => pre ++ post0 a) d.
Proof. intros H <-. apply runs_frame. exact H. Qed.

Create HintDb runs.

(** The position of a handle among the live objects of a goal. *)
Ltac split_handles h l :=
  lazymatch l with
  | h :: ?t => constr:((@nil Handle, t))
  | ?a :: ?t =>
      let p := split_handles h t in
      lazymatch p with (?l1, ?l2) => constr:((a :: l1, l2)) end
  end.

Ltac runs_norm :=
  lazy beta iota zeta;
  lazymatch goal with
  | |- runs ?pre ?m ?post ?d =>
      let pre' := eval cbv [app] in pre in
      change (runs pre' m post d)
  end.

(** Walks through a method statement by statement. *)
Ltac runs_go :=
  runs_norm;
  lazymatch goal with
  | |- runs _ (bind _ _) _ _ =>
      eapply runs_bind; [runs_go | intros ?; runs_go | reflexivity]
  | |- runs ?pre (ret ?a) _ _ =>
      first [ apply (runs_ret pre a (fun _ => pre)); reflexivity
            | apply runs_ret; reflexivity
            | eapply runs_depth; [apply runs_ret; reflexivity | reflexivity] ]
  | |- runs ?pre (call (delete ?h)) _ _ =>
      let p := split_handles h pre in
      lazymatch p with
      | (?l1, ?l2) =>
          first [ eapply (runs_delete pre _ h l1 l2); reflexivity
                | eapply runs_depth;
                  [eapply (runs_delete pre _ h l1 l2); reflexivity
                  | reflexivity] ]
      end
  | |- runs _ (call _) _ _ =>
      first [ eapply runs_call; lazy; reflexivity
            | eapply runs_depth;
              [eapply runs_call; lazy; reflexivity | reflexivity] ]
  | |- runs _ (alloc _) _ _ =>
      first [ eapply runs_alloc; reflexivity
            | eapply runs_depth; [eapply runs_alloc; reflexivity | reflexivity] ]
  | |- runs _ (when _ _) _ _ => eapply runs_when; runs_go
  | |- runs _ (forEach _ _) _ _ => eapply runs_forEach; intros ? ?; runs_go
  | |- runs _ (forEachIndexed _ _) _ _ =>
      eapply runs_forEachIndexed; intros ? ?; runs_go
  | |- runs _ (reduce _ _ _) _ _ => eapply runs_reduce; intros ? ?; runs_go
  | |- runs _ (if ?b then _ else _) _ _ => destruct b; runs_go
  | |- runs _ (match ?x with _ => _ end) _ _ => destruct x; runs_go
  | |- runs _ _ ?post _ =>
      tryif is_evar post
      then (eapply runs_frame_depth;
            [solve [eauto 3 with runs] | reflexivity])
      else (eapply runs_framed;
            [solve [eauto 3 with runs] | intros ?; reflexivity
            | reflexivity])
  end.

#[local] Hint Resolve runs_readAlpha runs_pushAlpha runs_popAlpha
  runs_pushActive : runs.

(** [depthOf m d]: the canvas depth alone. *)
Definition depthOf {A} (m : M A) (d : Z) : Prop :=
  forall r,
    (saveDepth (traceOf (m r)) + activeDepth r
     = d + activeDepth (stateOf (m r)))%Z.

Lemma depthOf_runs {A} (m : M A) (post : A -> list Handle) (d0 d : Z) :
  runs [] m post d0 -> d0 = d -> depthOf m d.
Proof.
  intros H <- r. destruct (H r []) as (_ & _ & D); [|exact D].
  split; constructor.
Qed.

Lemma depthOf_bind {A B} (m : M A) (k : A -> M B) (d1 d2 d : Z) :
  depthOf m d1 -> (forall a, depthOf (k a) d2) -> d = (d1 + d2)%Z ->
  depthOf (bind m k) d.
Proof.
  intros Hm Hk Hd r. subst d. rewrite traceOf_bind, stateOf_bind, saveDepth_app.
  specialize (Hm r). specialize (Hk (resultOf (m r)) (stateOf (m r))). lia.
Qed.

Lemma depthOf_forEach {A} (f : A -> M unit) (l : list A) :
  (forall a, depthOf (f a) 0) -> depthOf (forEach f l) 0.
Proof.
  intros H. induction l as [|a l IH]; simpl.
  - intros r. reflexivity.
  - eapply depthOf_bind; [apply H | intros u; exact IH | reflexivity].
Qed.

Lemma depthOf_forEachIndexed {A} (f : A -> nat -> M unit) (l : list A) :
  (forall a i, depthOf (f a i) 0) -> depthOf (forEachIndexed f l) 0.
Proof.
  intros H. unfold forEachIndexed. generalize 0%nat.
  induction l as [|a l IH]; intros i; cbn [forEachFrom].
  - intros r. reflexivity.
  - eapply depthOf_bind; [apply H | intros u; apply IH | reflexivity].
Qed.

Lemma depthOf_ext {A} (m m' : M A) (d : Z) :
  (forall r, m r = m' r) -> depthOf m' d -> depthOf m d.
Proof. intros E H r. rewrite E. apply H. Qed.

Lemma depthOf_ret {A} (a : A) : depthOf (ret a) 0.
Proof. intros r. reflexivity. Qed.

Lemma depthOf_call (c : Call) (d : Z) :
  saveDepth [c] = d -> depthOf (call c) d.
Proof.
  intros <- r. unfold call, traceOf, stateOf. cbn [fst snd]. reflexivity.
Qed.

Lemma depthOf_alloc (mk : Handle -> Call) :
  (forall h, saveDepth [mk h] = 0%Z) -> depthOf (alloc mk) 0.
Proof.
  intros H r. unfold alloc, traceOf, stateOf, activeDepth.
  cbn [fst snd _activeEffects]. rewrite H. reflexivity.
Qed.

Create HintDb depths.

Ltac depthOf_go :=
  lazy beta iota zeta;
  lazymatch goal with
  | |- depthOf (bind _ _) _ =>
      eapply depthOf_bind; [depthOf_go | intros ?; depthOf_go | reflexivity]
  | |- depthOf (forEach _ _) _ =>
      eapply depthOf_forEach; intros ?; depthOf_go
  | |- depthOf (forEachIndexed _ _) _ =>
      eapply depthOf_forEachIndexed; intros ? ?; depthOf_go
  | |- depthOf (ret _) _ => apply depthOf_ret
  | |- depthOf (call _) _ => apply depthOf_call; lazy; reflexivity
  | |- depthOf (alloc _) _ => apply depthOf_alloc; intros ?; reflexivity
  | |- depthOf (if ?b then _ else _) _ => destruct b; depthOf_go
  | |- depthOf (match ?x with _ => _ end) _ => destruct x; depthOf_go
  | |- depthOf _ _ =>
      first [ solve [eauto 3 with depths]
            | eapply depthOf_runs; [runs_go | reflexivity] ]
  end.


(* ===================================================================== *)
(** * What is drawn, and where                                            *)
(* ===================================================================== *)

(** Every call a method makes satisfies [p]. *)
Definition emits {A} (p : Call -> bool) (m : M A) : Prop :=
  forall r, forallb p (traceOf (m r)) = true.

Lemma emits_ret {A} (p : Call -> bool) (a : A) : emits p (ret a).
Proof. intros r. reflexivity. Qed.

Lemma emits_call (p : Call -> bool) (c : Call) :
  p c = true -> emits p (call c).
Proof. intros H r. cbn. rewrite H. reflexivity. Qed.

Lemma emits_alloc (p : Call -> bool) (mk : Handle -> Call) :
  (forall h, p (mk h) = true) -> emits p (alloc mk).
Proof. intros H r. cbn. rewrite H. reflexivity. Qed.

Lemma emits_bind {A B} (p : Call -> bool) (m : M A) (k : A -> M B) :
  emits p m -> (forall a, emits p (k a)) -> emits p (bind m k).
Proof.
  intros Hm Hk r. rewrite traceOf_bind, forallb_app, Hm, Hk. reflexivity.
Qed.

Lemma emits_when (p : Call -> bool) (b : bool) (m : M unit) :
  emits p m -> emits p (when b m).
Proof. intros H. destruct b; [exact H | apply emits_ret]. Qed.

Lemma emits_forEach {A} (p : Call -> bool) (f : A -> M unit) (l : list A) :
  (forall a, emits p (f a)) -> emits p (forEach f l).
Proof.
  intros H. induction l as [|a l IH]; simpl.
  - apply emits_ret.
  - apply emits_bind; [apply H | intros _; exact IH].
Qed.

Lemma emits_forEachIndexed {A} (p : Call -> bool) (f : A -> nat -> M unit)
    (l : list A) :
  (forall a i, emits p (f a i)) -> emits p (forEachIndexed f l).
Proof.
  intros H. unfold forEachIndexed. generalize 0%nat.
  induction l as [|a l IH]; intros i; cbn [forEachFrom].
  - apply emits_ret.
  - apply emits_bind; [apply H | intros _; apply IH].
Qed.

Lemma emits_reduce {A B} (p : Call -> bool) (f : B -> A -> M B) (l : list A)
    (b : B) :
  (forall b' a, emits p (f b' a)) -> emits p (reduce f l b).
Proof.
  intros H. revert b. induction l as [|a l IH]; intros b; simpl.
  - apply emits_ret.
  - apply emits_bind; [apply H | intros b'; apply IH].
Qed.

Lemma emits_readAlpha (p : Call -> bool) : emits p readAlpha.
Proof. intros r. reflexivity. Qed.

Lemma emits_pushAlpha (p : Call -> bool) (v : Q) : emits p (pushAlpha v).
Proof. intros r. reflexivity. Qed.

Lemma emits_pushActive (p : Call -> bool) (e : IElementEffect) :
  emits p (pushActive e).
Proof. intros r. reflexivity. Qed.

Lemma emits_popWhileActive (p : Call -> bool) :
  p restore = true ->
  emits p (fun r => popWhileActive (List.length (_activeEffects r)) r).
Proof.
  intros H [active alpha h]. cbn [_activeEffects].
  rewrite popWhileActive_all. unfold traceOf. cbn [fst snd].
  induction (List.length active) as [|n IH]; [reflexivity|].
  cbn [repeat forallb]. rewrite H, IH. reflexivity.
Qed.

Create HintDb emits.
#[local] Hint Resolve emits_ret emits_readAlpha emits_pushAlpha
  emits_pushActive : emits.

Ltac emits_go :=
  lazy beta iota zeta;
  lazymatch goal with
  | |- emits _ (bind _ _) => apply emits_bind; [emits_go | intros ?; emits_go]
  | |- emits _ (ret _) => apply emits_ret
  | |- emits _ (call _) => apply emits_call; reflexivity
  | |- emits _ (alloc _) => apply emits_alloc; intros ?; reflexivity
  | |- emits _ (when _ _) => apply emits_when; emits_go
  | |- emits _ (forEach _ _) => apply emits_forEach; intros ?; emits_go
  | |- emits _ (forEachIndexed _ _) =>
      apply emits_forEachIndexed; intros ? ?; emits_go
  | |- emits _ (reduce _ _ _) => apply emits_reduce; intros ? ?; emits_go
  | |- emits _ (if ?b then _ else _) => destruct b; emits_go
  | |- emits _ (match ?x with _ => _ end) => destruct x; emits_go
  | |- emits _ _ => solve [eauto 3 with emits]
  end.

(** The calls of the background-and-borders step: no text, no PDF tag. *)
Definition noTextNoTag (c : Call) : bool :=
  match c with
  | drawText _ _ _ _ _ | SetPDFTagId _ => false
  | _ => true
  end.

(** The calls of a text node: no PDF tag, no path drawn. *)
Definition noTagNoPath (c : Call) : bool :=
  match c with
  | SetPDFTagId _ | drawPath _ _ => false
  | _ => true
  end.

(** The texts a trace draws, in order. *)
Fixpoint drawnTexts (tr : Trace) : list JS.JSString :=
  match tr with
  | [] => []
  | drawText t _ _ _ _ :: tr' => t :: drawnTexts tr'
  | _ :: tr' => drawnTexts tr'
  end.

Lemma drawnTexts_app (t1 t2 : Trace) :
  drawnTexts (t1 ++ t2) = drawnTexts t1 ++ drawnTexts t2.
Proof.
  induction t1 as [|c t1 IH]; [reflexivity|].
  destruct c; simpl; rewrite ?IH; reflexivity.
Qed.

(** Whether a text is drawn on the line [ty] with the paint [paint]. *)
Definition drawsOnLine (ty : Q) (paint : Handle) (c : Call) : bool :=
  match c with
  | drawText _ _ ty' p _ => Qeq_bool ty' ty && (p =? paint)%N
  | _ => true
  end.

Definition isMoveTo (c : Call) : bool :=
  match c with moveTo _ _ _ => true | _ => false end.
Definition isLineTo (c : Call) : bool :=
  match c with lineTo _ _ _ => true | _ => false end.
Definition isCubicTo (c : Call) : bool :=
  match c with cubicTo _ _ _ _ _ _ _ => true | _ => false end.

(** The start of a point of a path, as [formatSkiaPath] reads it. *)
Definition startOf (point : Path) : Vector :=
  match point with PBezier c => start c | PVector v => v end.

(** The save level a trace ends on when it starts [open] saves deep, or
    [None] when it restores a level it has not saved. *)
Fixpoint levelAfter (open : nat) (tr : Trace) : option nat :=
  match tr with
  | [] => Some open
  | save :: tr' => levelAfter (S open) tr'
  | restore :: tr' =>
      match open with
      | O => None
      | S below => levelAfter below tr'
      end
  | _ :: tr' => levelAfter open tr'
  end.

(** A trace nests its [save]s and [restore]s: every [restore] closes a
    [save] made earlier in the trace, and no [save] is left open. *)
Definition nests (tr : Trace) : bool :=
  match levelAfter 0 tr with
  | Some O => true
  | _ => false
  end.

Definition calm (c : Call) : bool := negb (isSaveOrRestore c).

Lemma levelAfter_app (open : nat) (t1 t2 : Trace) :
  levelAfter open (t1 ++ t2) =
  match levelAfter open t1 with
  | Some level => levelAfter level t2
  | None => None
  end.
Proof.
  revert open. induction t1 as [|c t1 IH]; intros open; [reflexivity|].
  destruct c; cbn [app levelAfter]; try apply IH.
  destruct open; [reflexivity | apply IH].
Qed.

Lemma levelAfter_calm (open : nat) (tr : Trace) :
  forallb calm tr = true -> levelAfter open tr = Some open.
Proof.
  induction tr as [|c tr IH]; [reflexivity|]. cbn [forallb]. intros H.
  apply andb_prop in H as [Hc Htr].
  destruct c; try discriminate; cbn [levelAfter]; apply IH, Htr.
Qed.

(** Started [a] saves deep, the method never restores a level that is not
    open and ends [b] saves deep. *)
Definition climbs {A} (m : M A) (a b : nat) : Prop :=
  forall r, levelAfter a (traceOf (m r)) = Some b.

Lemma climbs_bind {A B} (m : M A) (k : A -> M B) (a b c : nat) :
  climbs m a b -> (forall x, climbs (k x) b c) -> climbs (bind m k) a c.
Proof.
  intros Hm Hk r. rewrite traceOf_bind, levelAfter_app, Hm. apply Hk.
Qed.

Lemma climbs_save (a : nat) : climbs (call save) a (S a).
Proof. intros r. reflexivity. Qed.

Lemma climbs_restore (a : nat) : climbs (call restore) (S a) a.
Proof. intros r. reflexivity. Qed.

Lemma climbs_calm {A} (m : M A) (a : nat) : emits calm m -> climbs m a a.
Proof. intros H r. apply levelAfter_calm, H. Qed.

Section Resources.

Variable canvasKit : CanvasKitAPI.
Variable options : SkiaRenderOptions.
Variable segmentGraphemes : JS.JSString -> list JS.JSString.
Variable transformPath : list Path -> Q -> Q -> Q -> Q -> list Path.
Variable parseStackingContexts : ElementContainer -> StackingContext.
Variable renderOtherContent : ElementPaint -> Q -> Handle -> Trace * Handle.

Lemma runs_parseColorWithAlpha (c : Color) :
  runs [] (parseColorWithAlpha canvasKit c) (fun _ => []) 0.
Proof. unfold parseColorWithAlpha. runs_go. Qed.

Lemma runs_createPaint (s : PaintStyle) :
  runs [] (createPaint canvasKit s) (fun paint => [paint]) 0.
Proof. unfold createPaint. runs_go. Qed.

Lemma runs_formatSkiaPath (h : Handle) (paths : list Path) :
  runs [] (formatSkiaPath h paths) (fun _ => []) 0.
Proof. unfold formatSkiaPath. runs_go. Qed.

#[local] Hint Resolve runs_parseColorWithAlpha runs_createPaint
  runs_formatSkiaPath : runs.

Lemma runs_createSkiaPath (paths : list Path) :
  runs [] (createSkiaPath paths) (fun path => [path]) 0.
Proof. unfold createSkiaPath. runs_go. Qed.

#[local] Hint Resolve runs_createSkiaPath : runs.


Lemma runs_applyEffect (e : IElementEffect) :
  runs [] (applyEffect e) (fun _ => []) 0.
Proof. unfold applyEffect. runs_go. Qed.

Lemma runs_renderLetter tb ls bl paint font left_ letter :
  runs [] (renderLetter canvasKit options tb ls bl paint font left_ letter)
       (fun _ => []) 0.
Proof.
  unfold renderLetter.
  eapply (runs_bind _ _ _
            (fun o => match o with Some f => [fontHandle f] | None => [] end));
    [runs_go | intros [f|]; runs_go | reflexivity].
Qed.

#[local] Hint Resolve runs_applyEffect runs_renderLetter : runs.

Lemma runs_renderTextWithLetterSpacing tb ls bl paint font :
  runs [] (renderTextWithLetterSpacing canvasKit options segmentGraphemes
             tb ls bl paint font)
       (fun _ => []) 0.
Proof. unfold renderTextWithLetterSpacing. runs_go. Qed.

Lemma runs_createSkiaFont (st : CSSParsedDeclaration) :
  runs [] (createSkiaFont canvasKit st) (fun font => [fontHandle font]) 0.
Proof. unfold createSkiaFont. runs_go. Qed.

#[local] Hint Resolve runs_renderTextWithLetterSpacing runs_createSkiaFont
  : runs.

Lemma runs_renderTextShadow tb st fillPaint font sh :
  runs [] (renderTextShadow canvasKit options segmentGraphemes tb st
             fillPaint font sh)
       (fun _ => []) 0.
Proof. unfold renderTextShadow. runs_go. Qed.

Lemma runs_renderTextDecorations tb st :
  runs [] (renderTextDecorations canvasKit tb st) (fun _ => []) 0.
Proof. unfold renderTextDecorations. runs_go. Qed.

#[local] Hint Resolve runs_renderTextShadow runs_renderTextDecorations : runs.

Lemma runs_renderTextFill tb st font :
  runs [] (renderTextFill canvasKit options segmentGraphemes tb st font)
       (fun _ => []) 0.
Proof. unfold renderTextFill. runs_go. Qed.

Lemma runs_renderTextStroke tb st font :
  runs [] (renderTextStroke canvasKit options segmentGraphemes tb st font)
       (fun _ => []) 0.
Proof. unfold renderTextStroke. runs_go. Qed.

#[local] Hint Resolve runs_renderTextFill runs_renderTextStroke : runs.

Lemma runs_renderTextNode txt st :
  runs [] (renderTextNode canvasKit options segmentGraphemes txt st)
       (fun _ => []) 0.
Proof. unfold renderTextNode. runs_go. Qed.

Lemma runs_mask (paths : list Path) :
  runs [] (mask options paths) (fun _ => []) 0.
Proof. unfold mask. runs_go. Qed.

Lemma runs_renderRepeat path shader ox oy :
  runs [] (renderRepeat canvasKit path shader ox oy) (fun _ => []) 0.
Proof. unfold renderRepeat. runs_go. Qed.

#[local] Hint Resolve runs_renderTextNode runs_mask runs_renderRepeat : runs.

Lemma runs_renderURLLayer rendering url_image :
  runs [] (renderURLLayer canvasKit rendering url_image) (fun _ => []) 0.
Proof. unfold renderURLLayer. runs_go. Qed.

Lemma runs_renderSolidBorder color_ side curvePoints :
  runs [] (renderSolidBorder canvasKit color_ side curvePoints)
       (fun _ => []) 0.
Proof. unfold renderSolidBorder. runs_go. Qed.

#[local] Hint Resolve runs_renderURLLayer runs_renderSolidBorder : runs.

Lemma runs_renderDoubleBorder color_ width_ side curvePoints :
  runs [] (renderDoubleBorder canvasKit color_ width_ side curvePoints)
       (fun _ => []) 0.
Proof. unfold renderDoubleBorder. runs_go. Qed.

Lemma runs_renderDashedDottedBorder color_ width_ side curvePoints style_ :
  runs [] (renderDashedDottedBorder canvasKit color_ width_ side curvePoints
             style_)
       (fun _ => []) 0.
Proof. unfold renderDashedDottedBorder. runs_go. Qed.

Lemma runs_renderBoxShadow paint_ shadow :
  runs [] (renderBoxShadow canvasKit options transformPath paint_ shadow)
       (fun _ => []) 0.
Proof. unfold renderBoxShadow. runs_go. Qed.

#[local] Hint Resolve runs_renderDoubleBorder runs_renderDashedDottedBorder
  runs_renderBoxShadow : runs.

Lemma runs_renderBorder paint_ border side :
  runs [] (renderBorder canvasKit paint_ border side) (fun _ => []) 0.
Proof. unfold renderBorder. runs_go. Qed.

Lemma runs_renderRadialGradientLayer cont rendering px py radius stops :
  runs [] (renderRadialGradientLayer canvasKit cont rendering px py radius
             stops)
       (fun _ => []) 0.
Proof.
  unfold renderRadialGradientLayer. destruct radius as [rx ry].
  destruct (Qgtb rx 0 && Qgtb ry 0); [|runs_go].
  eapply (runs_bind _ _ _
            (fun o => match o with Some sh => [sh] | None => [] end));
    [runs_go | intros [sh|]; runs_go | reflexivity].
Qed.

#[local] Hint Resolve runs_renderBorder runs_renderRadialGradientLayer : runs.

(** ** The effect stack *)

Lemma liveAfter_restores (live : list Handle) (n : nat) :
  liveAfter live (repeat restore n) = live.
Proof. induction n as [|n IH]; [reflexivity | exact IH]. Qed.

Lemma saveDepth_restores (n : nat) :
  saveDepth (repeat restore n) = (- Z.of_nat n)%Z.
Proof. induction n as [|n IH]; [reflexivity|]. cbn [repeat saveDepth]. lia. Qed.

Lemma runs_popWhileActive :
  runs [] (fun r => popWhileActive (List.length (_activeEffects r)) r)
       (fun _ => []) 0.
Proof.
  intros [active alpha h] frame Hb. cbn [_activeEffects].
  rewrite popWhileActive_all. unfold traceOf, resultOf, stateOf, activeDepth.
  cbn [fst snd _activeEffects List.length].
  rewrite liveAfter_restores, saveDepth_restores.
  repeat split; try apply Hb. lia.
Qed.

#[local] Hint Resolve runs_popWhileActive : runs.

Lemma runs_applyEffects (effects : list IElementEffect) :
  runs [] (applyEffects effects) (fun _ => []) 0.
Proof. unfold applyEffects. runs_go. Qed.

#[local] Hint Resolve runs_applyEffects : runs.

(** ** Background layers *)

(** A linear-gradient layer for which the backend answers a shader but
    whose width or height is not positive. *)
Definition dropsShader (layer : BackgroundImage) : bool :=
  match layer with
  | LinearGradient rendering (lineLength, x0, x1, y0, y1) stops =>
      match Shader_MakeLinearGradient canvasKit with
      | Some make =>
          make [x0; y0] [x1; y1]
               (map (fun s => parseColor canvasKit (cs_color s))
                    (stops lineLength))
               (map cs_stop (stops lineLength))
          && negb (Qgtb (br_width rendering) 0 && Qgtb (br_height rendering) 0)
      | None => false
      end
  | _ => false
  end.

Lemma runs_ext {A} (pre : list Handle) (m m' : M A)
    (post : A -> list Handle) (d : Z) :
  (forall r, m r = m' r) -> runs pre m' post d -> runs pre m post d.
Proof. intros E H r frame Hb. rewrite E. apply H. exact Hb. Qed.

(** The linear-gradient branch by its two tests: whether the backend
    answered a shader, and whether the layer has a positive size. *)
Definition linearGradientLayerByCases (rendering : BackgroundRendering)
    (direction : Q * Q * Q * Q * Q) (stops : Q -> list ColorStop) : M unit :=
  let '(lineLength, x0, x1, y0, y1) := direction in
  let colors :=
    map (fun s => parseColor canvasKit (cs_color s)) (stops lineLength) in
  let positions := map cs_stop (stops lineLength) in
  if match Shader_MakeLinearGradient canvasKit with
     | Some make => make [x0; y0] [x1; y1] colors positions
     | None => false
     end
  then
    sh <- alloc (fun h => MakeLinearGradient h [x0; y0] [x1; y1]
                            colors positions) ;;
    if Qgtb (br_width rendering) 0 && Qgtb (br_height rendering) 0
    then renderRepeat canvasKit (br_path rendering) sh
                      (br_x rendering) (br_y rendering) ;;
         call (delete sh)
    else ret tt
  else ret tt.

Lemma renderLinearGradientLayer_cases rendering direction stops r :
  renderLinearGradientLayer canvasKit rendering direction stops r =
  linearGradientLayerByCases rendering direction stops r.
Proof.
  destruct direction as [[[[lineLength x0] x1] y0] y1].
  unfold renderLinearGradientLayer, linearGradientLayerByCases.
  destruct (Shader_MakeLinearGradient canvasKit) as [make|]; [|reflexivity].
  destruct (make _ _ _ _); [|reflexivity].
  rewrite bind_assoc. apply bind_ext. intros h r'. rewrite bind_ret_l.
  reflexivity.
Qed.

Lemma runs_renderLinearGradientLayer rendering direction stops :
  dropsShader (LinearGradient rendering direction stops) = false ->
  runs [] (renderLinearGradientLayer canvasKit rendering direction stops)
       (fun _ => []) 0.
Proof.
  intros Hkeep.
  apply (runs_ext _ _ (linearGradientLayerByCases rendering direction stops));
    [intros r; apply renderLinearGradientLayer_cases|].
  destruct direction as [[[[lineLength x0] x1] y0] y1].
  unfold dropsShader in Hkeep. unfold linearGradientLayerByCases.
  destruct (Shader_MakeLinearGradient canvasKit) as [make|]; [|runs_go].
  destruct (make _ _ _ _); [|runs_go].
  cbn [andb] in Hkeep. apply negb_false_iff in Hkeep. rewrite Hkeep.
  runs_go.
Qed.

Lemma runs_renderBackgroundImage (cont : ElementContainer) :
  existsb dropsShader (backgroundImage (styles cont)) = false ->
  runs [] (renderBackgroundImage canvasKit cont) (fun _ => []) 0.
Proof.
  intros Hkeep. unfold renderBackgroundImage.
  apply runs_forEach. intros layer Hin. apply in_rev in Hin.
  assert (Hlayer : dropsShader layer = false).
  { destruct (dropsShader layer) eqn:E; [|reflexivity].
    rewrite <- Hkeep. symmetry. apply existsb_exists. exists layer.
    split; assumption. }
  destruct layer as [rd url | rd dir stops | rd px py rad stops |].
  - runs_go.
  - apply runs_renderLinearGradientLayer. exact Hlayer.
  - runs_go.
  - runs_go.
Qed.

#[local] Hint Resolve runs_renderBackgroundImage : runs.

Lemma depthOf_renderLinearGradientLayer rendering direction stops :
  depthOf (renderLinearGradientLayer canvasKit rendering direction stops) 0.
Proof.
  apply (depthOf_ext _ (linearGradientLayerByCases rendering direction stops));
    [intros r; apply renderLinearGradientLayer_cases|].
  destruct direction as [[[[lineLength x0] x1] y0] y1].
  unfold linearGradientLayerByCases. depthOf_go.
Qed.

#[local] Hint Resolve depthOf_renderLinearGradientLayer : depths.

Lemma depthOf_renderBackgroundImage (cont : ElementContainer) :
  depthOf (renderBackgroundImage canvasKit cont) 0.
Proof. unfold renderBackgroundImage. depthOf_go. Qed.

#[local] Hint Resolve depthOf_renderBackgroundImage : depths.

Lemma depthOf_renderNodeBackgroundAndBorders (paint_ : ElementPaint) :
  depthOf (renderNodeBackgroundAndBorders canvasKit options transformPath
             paint_) 0.
Proof. unfold renderNodeBackgroundAndBorders. depthOf_go. Qed.

Lemma runs_renderNodeBackgroundAndBorders (paint_ : ElementPaint) :
  existsb dropsShader (backgroundImage (styles (container paint_))) = false ->
  runs [] (renderNodeBackgroundAndBorders canvasKit options transformPath
             paint_)
       (fun _ => []) 0.
Proof. intros Hkeep. unfold renderNodeBackgroundAndBorders. runs_go. Qed.

(** ** Content, steps and the whole tree *)

(** What the content left abstract has to respect: it keeps the canvas
    depth, *)
Definition otherContentBalanced : Prop :=
  forall p alpha h, saveDepth (fst (renderOtherContent p alpha h)) = 0%Z.

(** and it deletes what it creates, taking its handles from the
    allocator. *)
Definition otherContentFrees : Prop :=
  forall p alpha h live,
    Forall (fun h' => (h' < h)%N) live ->
    liveAfter live (fst (renderOtherContent p alpha h)) = live
    /\ (h <= snd (renderOtherContent p alpha h))%N.

Lemma depthOf_otherContent (p : ElementPaint) :
  otherContentBalanced -> depthOf (otherContent renderOtherContent p) 0.
Proof.
  intros H r. unfold otherContent, traceOf, stateOf, activeDepth.
  specialize (H p (GlobalAlpha.value (globalAlpha r)) (nextHandle r)).
  destruct (renderOtherContent p _ _) as [tr h]. cbn in *. lia.
Qed.

Lemma runs_otherContent (p : ElementPaint) :
  otherContentBalanced -> otherContentFrees ->
  runs [] (otherContent renderOtherContent p) (fun _ => []) 0.
Proof.
  intros Hd Hf r frame [Hnd Hall]. rewrite app_nil_r in *.
  unfold otherContent, traceOf, resultOf, stateOf, activeDepth.
  specialize (Hd p (GlobalAlpha.value (globalAlpha r)) (nextHandle r)).
  specialize (Hf p (GlobalAlpha.value (globalAlpha r)) (nextHandle r)
                 frame Hall).
  destruct (renderOtherContent p _ _) as [tr h]. cbn in *.
  destruct Hf as [Hlive Hle].
  repeat split; try assumption; try lia.
  eapply Forall_impl; [|exact Hall]. cbn. intros h' Hh'. lia.
Qed.

#[local] Hint Resolve depthOf_otherContent : depths.
#[local] Hint Resolve runs_otherContent : runs.

Lemma depthOf_renderNodeContent (paint_ : ElementPaint) :
  otherContentBalanced ->
  depthOf (renderNodeContent canvasKit options segmentGraphemes
             renderOtherContent paint_) 0.
Proof. intros Hd. unfold renderNodeContent. depthOf_go. Qed.

Lemma runs_renderNodeContent (paint_ : ElementPaint) :
  otherContentBalanced -> otherContentFrees ->
  runs [] (renderNodeContent canvasKit options segmentGraphemes
             renderOtherContent paint_)
       (fun _ => []) 0.
Proof. intros Hd Hf. unfold renderNodeContent. runs_go. Qed.

(** A step of the painting order that drops no shader. *)
Definition keepsShaders (s : PaintStep) : bool :=
  match s with
  | BackgroundAndBorders e =>
      negb (existsb dropsShader (backgroundImage (styles (container e))))
  | Content _ => true
  end.

Lemma depthOf_renderStack (stack : StackingContext) :
  otherContentBalanced ->
  depthOf (renderStack canvasKit options segmentGraphemes transformPath
             renderOtherContent stack) 0.
Proof.
  intros Hd. eapply depthOf_ext; [intros r; apply renderStack_as_steps|].
  apply depthOf_forEach. intros [e|e]; cbn [runStep].
  - apply depthOf_renderNodeBackgroundAndBorders.
  - apply depthOf_renderNodeContent. exact Hd.
Qed.

Lemma runs_renderStack (stack : StackingContext) :
  otherContentBalanced -> otherContentFrees ->
  forallb keepsShaders (paintingOrder stack) = true ->
  runs [] (renderStack canvasKit options segmentGraphemes transformPath
             renderOtherContent stack)
       (fun _ => []) 0.
Proof.
  intros Hd Hf Hkeep.
  eapply runs_ext; [intros r; apply renderStack_as_steps|].
  apply runs_forEach. intros s Hin.
  rewrite forallb_forall in Hkeep. specialize (Hkeep s Hin).
  destruct s as [e|e]; cbn [runStep keepsShaders] in *.
  - apply runs_renderNodeBackgroundAndBorders.
    apply negb_true_iff. exact Hkeep.
  - apply runs_renderNodeContent; assumption.
Qed.

#[local] Hint Resolve depthOf_renderStack : depths.
#[local] Hint Resolve runs_renderStack : runs.

Lemma depthOf_render (element_ : ElementContainer) :
  otherContentBalanced ->
  depthOf (render canvasKit options segmentGraphemes transformPath
             parseStackingContexts renderOtherContent element_) 0.
Proof. intros Hd. unfold render. depthOf_go. Qed.

Lemma runs_render (element_ : ElementContainer) :
  otherContentBalanced -> otherContentFrees ->
  forallb keepsShaders (paintingOrder (parseStackingContexts element_)) = true ->
  runs [] (render canvasKit options segmentGraphemes transformPath
             parseStackingContexts renderOtherContent element_)
       (fun _ => []) 0.
Proof. intros Hd Hf Hkeep. unfold render. runs_go. Qed.

(** ** What the methods guarantee *)

Lemma runs_tidy {A} (m : M A) (r : Renderer) :
  runs [] m (fun _ => []) 0 -> keepsStacks m ->
  saveDepth (traceOf (m r)) = 0%Z
  /\ leaked (traceOf (m r)) = []
  /\ stacks (stateOf (m r)) = stacks r.
Proof.
  intros H Hk. destruct (H r []) as (L & _ & D); [split; constructor|].
  specialize (Hk r). split; [|split; [exact L | exact Hk]].
  unfold activeDepth in D. unfold stacks in Hk.
  pose proof (f_equal fst Hk) as Ha. cbn [fst] in Ha. rewrite Ha in D. lia.
Qed.

(** X1.  Every border, whatever its style (solid, double, dashed, dotted, or
    none at all), leaves the canvas at the save level it found, deletes
    every native object it creates (paths, paint, path effect) and leaves
    the effect and alpha stacks alone. *)
Theorem renderBorder_tidy (paint_ : ElementPaint) (border : Border)
    (side : nat) (r : Renderer) :
  let o := renderBorder canvasKit paint_ border side r in
  saveDepth (traceOf o) = 0%Z
  /\ leaked (traceOf o) = []
  /\ stacks (stateOf o) = stacks r.
Proof.
  apply runs_tidy; [apply runs_renderBorder | apply keeps_renderBorder].
Qed.

Lemma calm_createPaint (s : PaintStyle) :
  emits calm (createPaint canvasKit s).
Proof. unfold createPaint. emits_go. Qed.

Lemma calm_createSkiaPath (paths : list Path) :
  emits calm (createSkiaPath paths).
Proof. unfold createSkiaPath, formatSkiaPath. emits_go. Qed.

Lemma calm_mask (paths : list Path) : emits calm (mask options paths).
Proof. unfold mask, formatSkiaPath. emits_go. Qed.

#[local] Hint Resolve calm_createPaint calm_createSkiaPath calm_mask : emits.

Ltac climbs_go :=
  lazy beta iota zeta;
  lazymatch goal with
  | |- climbs (bind _ _) _ _ =>
      eapply climbs_bind; [climbs_go | intros ?; climbs_go]
  | |- climbs (call save) _ _ => apply climbs_save
  | |- climbs (call restore) _ _ => apply climbs_restore
  | |- climbs (if ?b then _ else _) _ _ => destruct b; climbs_go
  | |- climbs _ _ _ => apply climbs_calm; emits_go
  end.

Lemma climbs_renderBoxShadow paint_ shadow :
  climbs (renderBoxShadow canvasKit options transformPath paint_ shadow) 0 0.
Proof. unfold renderBoxShadow. climbs_go. Qed.


(** X3.  A text node, with any number of text bounds, paint-order layers, text
    shadows, decoration lines and fallback fonts, leaves the canvas at the
    save level it found and deletes every native object it creates: its
    font, the fill, stroke, shadow and decoration paints, the blur filters
    and the fallback fonts of single graphemes. *)
Theorem renderTextNode_tidy (txt : TextContainer) (st : CSSParsedDeclaration)
    (r : Renderer) :
  let o := renderTextNode canvasKit options segmentGraphemes txt st r in
  saveDepth (traceOf o) = 0%Z
  /\ leaked (traceOf o) = []
  /\ stacks (stateOf o) = stacks r.
Proof.
  apply runs_tidy; [apply runs_renderTextNode | apply keeps_renderTextNode].
Qed.

(** X4.  The background layers of a container, when no linear-gradient layer
    with a shader has a width or height that is not positive: every image,
    shader, path and paint created for a layer is deleted, and the canvas
    is back at its save level. *)
Theorem renderBackgroundImage_tidy (cont : ElementContainer) (r : Renderer) :
  existsb dropsShader (backgroundImage (styles cont)) = false ->
  let o := renderBackgroundImage canvasKit cont r in
  saveDepth (traceOf o) = 0%Z
  /\ leaked (traceOf o) = []
  /\ stacks (stateOf o) = stacks r.
Proof.
  intros Hkeep. apply runs_tidy;
    [apply runs_renderBackgroundImage; exact Hkeep
    | apply keeps_renderBackgroundImage].
Qed.

(** X5.  A linear-gradient layer whose width or height is not positive, on a
    backend that answers a shader: the shader is created, nothing is drawn
    and the shader is never deleted. *)
Theorem linearGradient_shader_dropped (rendering : BackgroundRendering)
    (lineLength x0 x1 y0 y1 : Q) (stops : Q -> list ColorStop)
    (r : Renderer) :
  dropsShader (LinearGradient rendering (lineLength, x0, x1, y0, y1) stops)
  = true ->
  let o := renderLinearGradientLayer canvasKit rendering
             (lineLength, x0, x1, y0, y1) stops r in
  traceOf o =
    [MakeLinearGradient (nextHandle r) [x0; y0] [x1; y1]
       (map (fun s => parseColor canvasKit (cs_color s)) (stops lineLength))
       (map cs_stop (stops lineLength))]
  /\ leaked (traceOf o) = [nextHandle r]
  /\ existsb isDraw (traceOf o) = false.
Proof.
  intros Hdrop. cbv zeta. rewrite renderLinearGradientLayer_cases.
  unfold dropsShader in Hdrop. unfold linearGradientLayerByCases.
  destruct (Shader_MakeLinearGradient canvasKit) as [make|]; [|discriminate].
  apply andb_prop in Hdrop as [Hmade Hsize]. rewrite Hmade.
  apply negb_true_iff in Hsize. rewrite Hsize.
  repeat split.
Qed.

(** X6.  [applyEffects] moves the canvas' save level by the number of effects
    requested minus the number of effects that were active, and deletes
    the clip paths it creates. *)
Theorem applyEffects_depth (effects : list IElementEffect) (r : Renderer) :
  saveDepth (traceOf (applyEffects effects r))
  = (Z.of_nat (List.length effects)
     - Z.of_nat (List.length (_activeEffects r)))%Z
  /\ leaked (traceOf (applyEffects effects r)) = [].
Proof.
  destruct (runs_applyEffects effects r []) as (L & _ & D);
    [split; constructor|].
  split; [|exact L].
  pose proof (applyEffects_stacks effects r) as Hs.
  pose proof (f_equal fst Hs) as Ha. cbn [fst stacks] in Ha.
  unfold activeDepth in D. rewrite Ha in D. lia.
Qed.

Lemma render_ends_unwound (element_ : ElementContainer) (r : Renderer) :
  _activeEffects
    (stateOf (render canvasKit options segmentGraphemes transformPath
                parseStackingContexts renderOtherContent element_ r)) = [].
Proof.
  unfold render. rewrite !stateOf_bind.
  match goal with
  | |- _activeEffects (stateOf (applyEffects [] ?r')) = _ =>
      pose proof (applyEffects_stacks [] r') as Hs
  end.
  exact (f_equal fst Hs).
Qed.




(** ** What is drawn *)

Lemma emits_parseColorWithAlpha p c : emits p (parseColorWithAlpha canvasKit c).
Proof. unfold parseColorWithAlpha. emits_go. Qed.

#[local] Hint Resolve emits_parseColorWithAlpha : emits.

Lemma noTextNoTag_createPaint s :
  emits noTextNoTag (createPaint canvasKit s).
Proof. unfold createPaint. emits_go. Qed.

Lemma noTextNoTag_createSkiaPath paths :
  emits noTextNoTag (createSkiaPath paths).
Proof. unfold createSkiaPath, formatSkiaPath. emits_go. Qed.

#[local] Hint Resolve noTextNoTag_createPaint noTextNoTag_createSkiaPath
  : emits.

Lemma noTextNoTag_applyEffects effects :
  emits noTextNoTag (applyEffects effects).
Proof.
  unfold applyEffects. apply emits_bind.
  - apply emits_popWhileActive. reflexivity.
  - intros _. apply emits_forEach. intros e. unfold applyEffect. emits_go.
Qed.

Lemma noTextNoTag_renderBackgroundImage cont :
  emits noTextNoTag (renderBackgroundImage canvasKit cont).
Proof.
  unfold renderBackgroundImage, renderURLLayer, renderLinearGradientLayer,
    renderRadialGradientLayer, renderRepeat.
  emits_go.
Qed.

Lemma noTextNoTag_renderBoxShadow paint_ shadow :
  emits noTextNoTag
        (renderBoxShadow canvasKit options transformPath paint_ shadow).
Proof. unfold renderBoxShadow, mask, formatSkiaPath. emits_go. Qed.

Lemma noTextNoTag_renderBorder paint_ border side :
  emits noTextNoTag (renderBorder canvasKit paint_ border side).
Proof.
  unfold renderBorder, renderDashedDottedBorder, renderDoubleBorder,
    renderSolidBorder.
  emits_go.
Qed.

#[local] Hint Resolve noTextNoTag_applyEffects
  noTextNoTag_renderBackgroundImage noTextNoTag_renderBoxShadow
  noTextNoTag_renderBorder : emits.

(** X9.  The background-and-borders step of an element never draws text and
    never sets a PDF tag: all text, and every tag bracket, belongs to
    content steps. *)
Theorem background_step_draws_no_text (paint_ : ElementPaint) (r : Renderer) :
  forallb noTextNoTag
    (traceOf (renderNodeBackgroundAndBorders canvasKit options transformPath
                paint_ r)) = true.
Proof.
  revert r. change (emits noTextNoTag
                      (renderNodeBackgroundAndBorders canvasKit options
                         transformPath paint_)).
  unfold renderNodeBackgroundAndBorders. emits_go.
Qed.


(** ** Text *)

Lemma renderLetter_draws tb ls bl paint font left_ letter r :
  drawnTexts (traceOf (renderLetter canvasKit options tb ls bl paint font
                         left_ letter r)) = [letter].
Proof.
  unfold renderLetter.
  destruct (glyphsMissing _); [|reflexivity].
  destruct (fallbackFontProvider options) as [provider|]; [|reflexivity].
  destruct (provider letter); reflexivity.
Qed.

Lemma reduce_renderLetter_draws tb ls bl paint font letters left_ r :
  drawnTexts (traceOf (reduce (renderLetter canvasKit options tb ls bl paint
                                 font) letters left_ r)) = letters.
Proof.
  revert left_ r. induction letters as [|letter letters IH]; intros left_ r.
  - reflexivity.
  - simpl reduce. rewrite traceOf_bind, drawnTexts_app, renderLetter_draws, IH.
    reflexivity.
Qed.

Lemma drawsOnLine_here ty paint t tx font :
  drawsOnLine ty paint (drawText t tx ty paint font) = true.
Proof. cbn. rewrite Qeq_bool_refl, N.eqb_refl. reflexivity. Qed.

Lemma drawsOnLine_renderLetter tb ls bl paint font left_ letter :
  emits (drawsOnLine (top (bounds tb) + bl) paint)
        (renderLetter canvasKit options tb ls bl paint font left_ letter).
Proof.
  unfold renderLetter. apply emits_bind; [emits_go|]. intros fallbackFont.
  apply emits_bind; [apply emits_call, drawsOnLine_here|]. intros _.
  emits_go.
Qed.

(** X10.  [renderTextWithLetterSpacing] draws the whole text with one [drawText]
    when the letter spacing is zero and the font has a glyph for every
    code unit; otherwise it draws the graphemes the segmenter answers, each
    exactly once and in their order.  Every draw is on the baseline
    [top + baseline] with the paint given, the fallback fonts created on
    the way are all deleted, and the canvas keeps its save level. *)
Theorem text_drawn_grapheme_by_grapheme (tb : TextBounds)
    (letterSpacing_ baseline_ : Q) (paint : Handle) (font : SkiaFont)
    (r : Renderer) :
  let o := renderTextWithLetterSpacing canvasKit options segmentGraphemes
             tb letterSpacing_ baseline_ paint font r in
  drawnTexts (traceOf o)
  = (if Qeq_bool letterSpacing_ 0
        && negb (areGlyphsMissing canvasKit font (text tb))
     then [text tb]
     else segmentGraphemes (text tb))
  /\ forallb (drawsOnLine (top (bounds tb) + baseline_) paint) (traceOf o)
     = true
  /\ leaked (traceOf o) = []
  /\ saveDepth (traceOf o) = 0%Z.
Proof.
  cbv zeta.
  destruct (@runs_tidy unit _ r
              (runs_renderTextWithLetterSpacing tb letterSpacing_ baseline_
                 paint font)
              (keeps_renderTextWithLetterSpacing canvasKit options
                 segmentGraphemes tb letterSpacing_ baseline_ paint font))
    as (D & L & _).
  split; [|split; [|split; assumption]].
  - unfold renderTextWithLetterSpacing.
    destruct (Qeq_bool letterSpacing_ 0 && _); [reflexivity|].
    rewrite traceOf_bind, drawnTexts_app, reduce_renderLetter_draws.
    apply app_nil_r.
  - clear D L. revert r.
    change (emits (drawsOnLine (top (bounds tb) + baseline_) paint)
              (renderTextWithLetterSpacing canvasKit options segmentGraphemes
                 tb letterSpacing_ baseline_ paint font)).
    unfold renderTextWithLetterSpacing.
    destruct (Qeq_bool letterSpacing_ 0 && _).
    + apply emits_call, drawsOnLine_here.
    + apply emits_bind; [|intros _; apply emits_ret].
      apply emits_reduce. intros left_ letter.
      apply drawsOnLine_renderLetter.
Qed.

(** ** PDF tags *)

Lemma noTagNoPath_renderTextNode txt st :
  emits noTagNoPath
        (renderTextNode canvasKit options segmentGraphemes txt st).
Proof.
  unfold renderTextNode, createSkiaFont, renderTextFill, renderTextStroke,
    renderTextShadow, renderTextDecorations, renderTextWithLetterSpacing,
    renderLetter, createPaint.
  emits_go.
Qed.

(** X11.  The content of a container with a PDF tag id (defined and not zero) is
    bracketed: after the effects are applied, [SetPDFTagId(id)] comes
    first, then the text nodes and the other content, and
    [SetPDFTagId(0)] comes last; the text nodes in between set no tag
    themselves. *)
Theorem tagged_content_is_bracketed (paint_ : ElementPaint) (id : Z)
    (r : Renderer) :
  hasPdfTag (container paint_) = Some id ->
  let cont := container paint_ in
  let effects := applyEffects (getEffects paint_ CONTENT) r in
  let texts :=
    forEach (fun child =>
               renderTextNode canvasKit options segmentGraphemes child
                              (styles cont))
            (textNodes cont) (stateOf effects) in
  let other := otherContent renderOtherContent paint_ (stateOf texts) in
  id <> 0%Z
  /\ traceOf (renderNodeContent canvasKit options segmentGraphemes
                renderOtherContent paint_ r)
     = traceOf effects
       ++ [SetPDFTagId id] ++ traceOf texts ++ traceOf other
       ++ [SetPDFTagId 0]
  /\ forallb noTagNoPath (traceOf texts) = true.
Proof.
  intros Htag. cbv zeta. split; [|split].
  - unfold hasPdfTag in Htag.
    destruct (pdfTagNodeId (container paint_)) as [id'|]; [|discriminate].
    destruct (Z.eqb_spec id' 0); [discriminate|]. congruence.
  - unfold renderNodeContent. rewrite Htag.
    rewrite !traceOf_bind, ?stateOf_bind. reflexivity.
  - apply (emits_forEach noTagNoPath). intros child.
    apply noTagNoPath_renderTextNode.
Qed.

(** ** Paths *)

Lemma pathVerbsFrom_counts (h : Handle) (paths : list Path) (i : nat) :
  List.length (filter isMoveTo (pathVerbsFrom h i paths))
  = (if (i =? 0)%nat then (if isEmpty paths then 0 else 1) else 0)%nat
  /\ (List.length (filter isLineTo (pathVerbsFrom h i paths))
      = if (i =? 0)%nat then Nat.pred (List.length paths)
        else List.length paths)
  /\ List.length (filter isCubicTo (pathVerbsFrom h i paths))
     = List.length (filter isBezierCurve paths).
Proof.
  revert i. induction paths as [|p paths IH]; intros i.
  - destruct (i =? 0)%nat; repeat split.
  - cbn [pathVerbsFrom]. rewrite !filter_app, !length_app.
    destruct (IH (S i)) as (Hm & Hl & Hc). rewrite Hm, Hl, Hc.
    cbn [Nat.eqb isEmpty List.length Nat.pred].
    unfold pointVerbs. destruct p; destruct (i =? 0)%nat; cbn; repeat split;
      lia.
Qed.


(** ** Opacity *)

Lemma last_above_base (l : list Q) : last (GlobalAlpha.init ++ l) 1 = last l 1.
Proof.
  unfold GlobalAlpha.init. cbn [app].
  destruct l as [|a l]; [reflexivity|].
  cbn [last]. revert a. induction l as [|b l IH]; intros a; [reflexivity|].
  cbn [last]. destruct l; [reflexivity|]. apply (IH b).
Qed.

(** X13.  Opacities do not compound.  After [applyEffects], from a renderer
    whose two stacks agree, the alpha every colour is resolved with is the
    opacity of the last opacity effect requested (1 when there is none),
    whatever opacity effects come before it in the list. *)
Theorem innermost_opacity_wins (effects : list IElementEffect) (c : Color)
    (r : Renderer) :
  stacksAgree r ->
  let after := stateOf (applyEffects effects r) in
  GlobalAlpha.value (globalAlpha after) = last (opacities effects) 1
  /\ resultOf (parseColorWithAlpha canvasKit c after)
     = multiplyByAlpha (parseColor canvasKit c) (last (opacities effects) 1).
Proof.
  intros Hr. cbv zeta.
  pose proof (applyEffects_agree effects r Hr) as Hs.
  pose proof (f_equal snd Hs) as Hg. cbn [snd stacks] in Hg.
  assert (Hv : GlobalAlpha.value
                 (globalAlpha (stateOf (applyEffects effects r)))
               = last (opacities effects) 1).
  { unfold GlobalAlpha.value. rewrite Hg. apply last_above_base. }
  split; [exact Hv|].
  rewrite parseColorWithAlpha_run. unfold resultOf. cbn [fst]. rewrite Hv.
  reflexivity.
Qed.

End Resources.

(* ===================================================================== *)
(** * The alpha stack and the dash pattern, further                       *)
(* ===================================================================== *)

Lemma GlobalAlpha_pops_undo_pushes (vs : list Q) (a : Q) (s : GlobalAlpha.t) :
  fold_left GlobalAlpha.step
    (map GlobalAlpha.Push vs ++ repeat GlobalAlpha.Pop (List.length vs))
    (a :: s)
  = a :: s.
Proof.
  revert s. induction vs as [|v vs IH] using rev_ind; intros s.
  - reflexivity.
  - rewrite map_app, length_app, Nat.add_comm. cbn [map List.length Nat.add repeat].
    rewrite <- app_assoc. cbn [app].
    rewrite fold_left_app. cbn [fold_left].
    assert (Hpushed : exists s', fold_left GlobalAlpha.step
                                   (map GlobalAlpha.Push vs) (a :: s)
                                 = a :: s').
    { clear IH. revert s. induction vs as [|w vs IHvs]; intros s.
      - exists s. reflexivity.
      - cbn [map fold_left GlobalAlpha.step]. unfold GlobalAlpha.push.
        cbn [app]. apply IHvs. }
    destruct Hpushed as [s' Hs'].
    pose proof (IH s) as Hround. rewrite fold_left_app, Hs' in Hround.
    rewrite Hs'. unfold GlobalAlpha.step at 2 3. unfold GlobalAlpha.push.
    cbn [app]. rewrite GlobalAlpha_pop_top. cbn [snd]. exact Hround.
Qed.

(** X14.  Pushes are undone by as many pops: after any calls on a fresh alpha
    stack, pushing any values and popping as many times gives the stack
    back as it was, and [value] reads what it read before. *)
Theorem GlobalAlpha_balanced_round_trip (ops : list GlobalAlpha.op)
    (vs : list Q) :
  let before := GlobalAlpha.run ops in
  let after :=
    GlobalAlpha.run
      (ops ++ map GlobalAlpha.Push vs
           ++ repeat GlobalAlpha.Pop (List.length vs)) in
  after = before /\ GlobalAlpha.value after = GlobalAlpha.value before.
Proof.
  cbv zeta. unfold GlobalAlpha.run. rewrite fold_left_app.
  destruct (GlobalAlpha_run_keeps_base ops GlobalAlpha.init) as [rest E];
    [exists []; reflexivity|].
  rewrite E, GlobalAlpha_pops_undo_pushes. split; reflexivity.
Qed.

Lemma floor_le (q : Q) : Math_floor q <= q.
Proof. unfold Math_floor. apply Qfloor_le. Qed.

(** For a positive width the dash and the space of the pattern are
    positive, whatever the length of the side. *)
Lemma dashPattern_lengths_positive (style_ : BORDER_STYLE) (width_ length_ : Q) :
  0 < width_ ->
  0 < fst (dashPattern style_ width_ length_)
  /\ 0 < snd (dashPattern style_ width_ length_).
Proof.
  intros Hw.
  destruct (base_lengths_positive style_ width_ Hw) as [Hd Hs].
  unfold dashPattern, balanceDash.
  set (d := baseDashLength style_ width_) in *.
  set (s := baseSpaceLength style_ width_) in *.
  destruct (Qleb length_ (d * 2)) eqn:Hshort; [split; assumption|].
  assert (HL : d * 2 < length_).
  { unfold Qleb in Hshort. destruct (Qlt_le_dec (d * 2) length_);
      [assumption | discriminate]. }
  destruct (Qleb length_ (d * 2 + s)) eqn:Hmid.
  - cbn [fst snd].
    assert (Hm : 0 < length_ / (2 * d + s)).
    { apply Qlt_shift_div_l; lra. }
    split; apply Qmult_lt_0_compat; assumption.
  - assert (Hlong : d * 2 + s < length_).
    { unfold Qleb in Hmid. destruct (Qlt_le_dec (d * 2 + s) length_);
        [assumption | discriminate]. }
    pose proof (numberOfDashes_ge_2 d s length_ Hd Hs Hlong) as Hn.
    pose proof (floor_le ((length_ + s) / (d + s))) as Hfloor.
    set (n := Math_floor ((length_ + s) / (d + s))) in *.
    cbn [fst snd]. split; [exact Hd|].
    destruct (Qleb ((length_ - (n + 1) * d) / n) 0) eqn:Hmax.
    + cbn [orb]. apply Qlt_shift_div_l; [lra|].
      assert (Hfit : n * (d + s) <= length_ + s).
      { apply (Qmult_le_r _ _ (d + s)) in Hfloor; [|lra].
        setoid_replace ((length_ + s) / (d + s) * (d + s))
          with (length_ + s) in Hfloor by (field; lra).
        exact Hfloor. }
      nra.
    + cbn [orb].
      assert (Hpos : 0 < (length_ - (n + 1) * d) / n).
      { unfold Qleb in Hmax.
        destruct (Qlt_le_dec 0 ((length_ - (n + 1) * d) / n));
          [assumption | discriminate]. }
      destruct (Qltb _ _); [|exact Hpos].
      apply Qlt_shift_div_l; [lra|].
      assert (Hfit : n * (d + s) <= length_ + s).
      { apply (Qmult_le_r _ _ (d + s)) in Hfloor; [|lra].
        setoid_replace ((length_ + s) / (d + s) * (d + s))
          with (length_ + s) in Hfloor by (field; lra).
        exact Hfloor. }
      nra.
Qed.

(** The dash effects a trace makes: the intervals and the phase of each
    [MakeDash], in order. *)
Fixpoint dashEffects (tr : Trace) : list (list Q * Q) :=
  match tr with
  | [] => []
  | MakeDash _ intervals phase :: tr' => (intervals, phase) :: dashEffects tr'
  | _ :: tr' => dashEffects tr'
  end.

Lemma dashEffects_app (t1 t2 : Trace) :
  dashEffects (t1 ++ t2) = dashEffects t1 ++ dashEffects t2.
Proof.
  induction t1 as [|c t1 IH]; [reflexivity|].
  destruct c; cbn [app dashEffects]; rewrite IH; reflexivity.
Qed.

Lemma dashEffects_neutral (tr : Trace) :
  forallb neutral tr = true -> dashEffects tr = [].
Proof.
  induction tr as [|c tr IH]; [reflexivity|]. cbn [forallb]. intros H.
  apply andb_prop in H as [Hc Htr].
  destruct c; try discriminate; cbn [dashEffects]; apply IH, Htr.
Qed.

Lemma dashEffects_border canvasKit color_ width_ side curvePoints style_
    (r : Renderer) :
  dashEffects
    (traceOf (renderDashedDottedBorder canvasKit color_ width_ side
                curvePoints style_ r))
  = let pattern :=
      dashPattern style_ width_
        (sideLength (parsePathForBorder curvePoints side) side) in
    [(if isDOTTED style_ then [0; fst pattern + snd pattern]
      else [fst pattern; snd pattern], 0)].
Proof.
  rewrite renderDashedDottedBorder_run, traceOf_mk.
  unfold dashedDottedBorderCalls, dashedDottedBorderBody, paintSetup.
  destruct (has_setAntiAlias canvasKit), style_;
    cbn [isDASHED isDOTTED];
    repeat first
      [ rewrite dashEffects_app
      | rewrite (dashEffects_neutral _ (pathVerbs_neutral _ _))
      | progress cbn [dashEffects app] ];
    reflexivity.
Qed.


(* ===================================================================== *)
(** * The PDF structure tree ([src/pdf/document-structure.ts])            *)
(* ===================================================================== *)

(** [a === b] on strings. *)
Definition strEq (a b : JS.JSString) : bool :=
  if list_eq_dec N.eq_dec a b then true else false.

Lemma strEq_spec (a b : JS.JSString) : reflect (a = b) (strEq a b).
Proof.
  unfold strEq. destruct (list_eq_dec N.eq_dec a b); constructor; assumption.
Qed.

Module DocumentStructure.

(** [PREDEFINED_TAG_IDS] *)
Definition Nothing : Z := 0.
Definition OtherArtifact : Z := -1.
Definition PaginationArtifact : Z := -2.
Definition PaginationHeaderArtifact : Z := -3.
Definition PaginationFooterArtifact : Z := -4.
Definition PaginationWatermarkArtifact : Z := -5.
Definition LayoutArtifact : Z := -6.
Definition PageArtifact : Z := -7.
Definition BackgroundArtifact : Z := -8.

(** The part of a DOM [Element] the module reads: [node] is the identity
    of the object (two values with the same [node] stand for the same DOM
    element), [tagName] holds [element.tagName.toLowerCase()],
    [getAttribute] answers [None] for [null], [children] is
    [Array.from(element.children)] (every child of that list is an element
    node). *)
#[local] Unset Elimination Schemes.
Inductive Element := {
  node : N;
  tagName : JS.JSString;
  getAttribute : JS.JSString -> option JS.JSString;
  classList : list JS.JSString;
  children : list Element
}.
#[local] Set Elimination Schemes.

Definition hasAttribute (element : Element) (name : JS.JSString) : bool :=
  match getAttribute element name with Some _ => true | None => false end.

Definition contains (classes : list JS.JSString) (cls : JS.JSString) : bool :=
  existsb (strEq cls) classes.

Definition shouldSkipElement (element : Element) : bool :=
  let role := getAttribute element (JS.str "role") in
  if existsb (strEq (tagName element))
       [JS.str "head"; JS.str "style"; JS.str "script"; JS.str "meta";
        JS.str "link"; JS.str "title"; JS.str "noscript"; JS.str "template"]
  then true
  else if match role with
          | Some r => strEq r (JS.str "presentation") || strEq r (JS.str "none")
          | None => false
          end
  then true
  else if hasAttribute element (JS.str "hidden") then true
  else false.

Definition isArtifactElement (element : Element) : bool :=
  existsb (contains (classList element))
    [JS.str "decoration"; JS.str "ornament"; JS.str "background";
     JS.str "watermark"; JS.str "separator"].

Definition getArtifactType (element : Element) : Z :=
  let classes := classList element in
  let tag := tagName element in
  if contains classes (JS.str "header") || strEq tag (JS.str "header")
  then PaginationHeaderArtifact
  else if contains classes (JS.str "footer") || strEq tag (JS.str "footer")
  then PaginationFooterArtifact
  else if contains classes (JS.str "watermark")
  then PaginationWatermarkArtifact
  else if contains classes (JS.str "background") || contains classes (JS.str "bg")
  then BackgroundArtifact
  else if contains classes (JS.str "layout")
          || contains classes (JS.str "container")
  then LayoutArtifact
  else if contains classes (JS.str "page") then PageArtifact
  else OtherArtifact.

(** [a || b] on attribute values: the empty string is falsy. *)
Definition orElse (a b : option JS.JSString) : option JS.JSString :=
  match a with
  | Some (_ :: _) => a
  | _ => match b with Some (_ :: _) => b | _ => None end
  end.

(** A [PDFTagAttribute]: [{ owner, name, type, value }], the value a
    string or an integer. *)
Record PDFTagAttribute := {
  a_owner : JS.JSString;
  a_name : JS.JSString;
  a_type : JS.JSString;
  a_value : JS.JSString + Z
}.

(** A [PDFTag]; an absent [children] is the empty list. *)
#[local] Unset Elimination Schemes.
Inductive PDFTag := {
  id : option Z;
  type : JS.JSString;
  alt : option JS.JSString;
  language : option JS.JSString;
  attributes : list PDFTagAttribute;
  tagChildren : list PDFTag
}.
#[local] Set Elimination Schemes.

(** A [Map<Element, number>]: its entries in insertion order, at most one
    for each DOM element. *)
Definition TagIdMap := list (Element * Z).

(** [map.set(element, tagId)]: an element the map holds keeps its place
    and gets the new value, another one is added at the end. *)
Fixpoint Map_set (map_ : TagIdMap) (element : Element) (tagId : Z)
  : TagIdMap :=
  match map_ with
  | [] => [(element, tagId)]
  | (key, value) :: rest =>
      if (node key =? node element)%N then (key, tagId) :: rest
      else (key, value) :: Map_set rest element tagId
  end.

(** [map.get(element)], [None] for [undefined]. *)
Fixpoint Map_get (map_ : TagIdMap) (element : Element) : option Z :=
  match map_ with
  | [] => None
  | (key, value) :: rest =>
      if (node key =? node element)%N then Some value
      else Map_get rest element
  end.

(** [DocumentStructureContext]: the counter and [tagIdMap] ([rootTag] is
    never read). *)
Record DocumentStructureContext := {
  nextId : Z;
  tagIdMap : TagIdMap
}.

Section Processing.

(** [getStructureType] and [createElementAttributes] only read the
    element; what they answer does not bear on the identifiers. *)
Variable getStructureType : Element -> JS.JSString.
Variable createElementAttributes : Element -> list PDFTagAttribute.

(** [processElement]: the tag of the element ([None] for [null]) and the
    context afterwards.  [applyTagIdToElement] writes the same identifier
    to the attribute [data-x-pdf-tag-id] of the element, which nothing
    here reads. *)
Fixpoint processElement (element : Element)
    (context : DocumentStructureContext)
  : option PDFTag * DocumentStructureContext :=
  if shouldSkipElement element then (None, context)
  else
    let '(tagId, structureType, counter) :=
      if isArtifactElement element
      then (getArtifactType element, JS.str "Artifact", nextId context)
      else (nextId context, getStructureType element,
            (nextId context + 1)%Z) in
    let context1 :=
      {| nextId := counter;
         tagIdMap := Map_set (tagIdMap context) element tagId |} in
    let '(childTags, context2) :=
      (fix processChildren (childElements : list Element)
           (ctx : DocumentStructureContext)
         : list PDFTag * DocumentStructureContext :=
         match childElements with
         | [] => ([], ctx)
         | child :: rest =>
             let '(childTag, ctx1) := processElement child ctx in
             let '(tags, ctx2) := processChildren rest ctx1 in
             (match childTag with
              | Some t => t :: tags
              | None => tags
              end, ctx2)
         end) (children element) context1 in
    (Some {| id := Some tagId;
             type := structureType;
             alt := orElse (getAttribute element (JS.str "alt"))
                           (getAttribute element (JS.str "aria-label"));
             language := orElse (getAttribute element (JS.str "lang")) None;
             attributes := createElementAttributes element;
             tagChildren := childTags |},
     context2).

(** The loop over the children, or over an array of elements. *)
Fixpoint processElements (elements : list Element)
    (ctx : DocumentStructureContext)
  : list PDFTag * DocumentStructureContext :=
  match elements with
  | [] => ([], ctx)
  | child :: rest =>
      let '(childTag, ctx1) := processElement child ctx in
      let '(tags, ctx2) := processElements rest ctx1 in
      (match childTag with Some t => t :: tags | None => tags end, ctx2)
  end.

Definition emptyDocument : PDFTag :=
  {| id := Some 0%Z; type := JS.str "Document"; alt := None;
     language := None; attributes := []; tagChildren := [] |}.

(** [generateDocumentStructure], for one element ([inl]) or an array of
    elements ([inr]): the structure and the map. *)
Definition generateDocumentStructure (htmlElement : Element + list Element)
  : PDFTag * TagIdMap :=
  let context := {| nextId := 1%Z; tagIdMap := [] |} in
  match htmlElement with
  | inr elements =>
      let '(tags, ctx) := processElements elements context in
      ({| id := Some 0%Z; type := JS.str "Document"; alt := None;
          language := None; attributes := []; tagChildren := tags |},
       tagIdMap ctx)
  | inl element =>
      match processElement element context with
      | (Some documentStructure, ctx) => (documentStructure, tagIdMap ctx)
      | (None, ctx) => (emptyDocument, tagIdMap ctx)
      end
  end.

End Processing.

(** [getPDFTagForElement] *)
Definition getPDFTagForElement (element : Element) (tagIdMap_ : TagIdMap)
  : option Z :=
  Map_get tagIdMap_ element.

(** [validateTag]: the answer and the set of visited ids afterwards. *)
Fixpoint validateTag (tag : PDFTag) (visitedIds : list Z) : bool * list Z :=
  let duplicate :=
    match id tag with
    | Some i => (0 <? i)%Z && existsb (Z.eqb i) visitedIds
    | None => false
    end in
  if duplicate then (false, visitedIds)
  else
    let visited1 :=
      match id tag with
      | Some i => if (0 <? i)%Z then i :: visitedIds else visitedIds
      | None => visitedIds
      end in
    (fix validateChildren (cs : list PDFTag) (visited : list Z)
       : bool * list Z :=
       match cs with
       | [] => (true, visited)
       | child :: rest =>
           let '(ok, visited') := validateTag child visited in
           if ok then validateChildren rest visited' else (false, visited')
       end) (tagChildren tag) visited1.

Definition validatePDFStructure (structure : PDFTag) : bool :=
  fst (validateTag structure []).

(** The loop of [validateTag] over the children. *)
Fixpoint validateTags (cs : list PDFTag) (visited : list Z) : bool * list Z :=
  match cs with
  | [] => (true, visited)
  | child :: rest =>
      let '(ok, visited') := validateTag child visited in
      if ok then validateTags rest visited' else (false, visited')
  end.

(** The identifiers of a structure in document order, and those that
    stand for content (the positive ones). *)
Fixpoint tagIds (tag : PDFTag) : list Z :=
  match id tag with Some i => [i] | None => [] end
  ++ flat_map tagIds (tagChildren tag).

Definition contentIds (tag : PDFTag) : list Z :=
  filter (fun i => (0 <? i)%Z) (tagIds tag).

(** [first], [first + 1], ..., one for each entry of [count]. *)
Fixpoint countFrom (first : Z) (count : nat) : list Z :=
  match count with
  | O => []
  | S count' => first :: countFrom (first + 1) count'
  end.

(** The map after the given [set] calls, made in order. *)
Definition setAll (map_ : TagIdMap) (stamps : list (Element * Z)) : TagIdMap :=
  fold_left (fun m stamp => Map_set m (fst stamp) (snd stamp)) stamps map_.

(** The elements [processElement] makes a tag for, in document order: the
    element and its descendants, without the elements skipped and what
    lies below them. *)
Fixpoint tagged (element : Element) : list Element :=
  if shouldSkipElement element then []
  else element :: flat_map tagged (children element).

Definition taggedOf (htmlElement : Element + list Element) : list Element :=
  match htmlElement with
  | inl element => tagged element
  | inr elements => flat_map tagged elements
  end.

(** The identifiers of the tags made for elements, in document order: all
    those of the structure, but for the [Document] root that
    [generateDocumentStructure] adds for an array and for a skipped
    element. *)
Definition elementTagIds (htmlElement : Element + list Element)
    (structure : PDFTag) : list Z :=
  match htmlElement with
  | inl element =>
      if shouldSkipElement element then [] else tagIds structure
  | inr _ => flat_map tagIds (tagChildren structure)
  end.

(** ** Properties *)

Lemma Element_tree_ind (P : Element -> Prop) :
  (forall nd tag attr classes cs,
      Forall P cs -> P (Build_Element nd tag attr classes cs)) ->
  forall e, P e.
Proof.
  intros H. fix IH 1. intros [nd tag attr classes cs]. apply H.
  induction cs as [|c cs IHcs]; constructor; [apply IH | exact IHcs].
Qed.

Lemma PDFTag_tree_ind (P : PDFTag -> Prop) :
  (forall i ty a l attrs cs,
      Forall P cs -> P (Build_PDFTag i ty a l attrs cs)) ->
  forall t, P t.
Proof.
  intros H. fix IH 1. intros [i ty a l attrs cs]. apply H.
  induction cs as [|c cs IHcs]; constructor; [apply IH | exact IHcs].
Qed.

Lemma getArtifactType_negative (element : Element) :
  (-8 <= getArtifactType element <= -1)%Z.
Proof.
  unfold getArtifactType.
  repeat match goal with
         | |- context [if ?b then _ else _] => destruct b
         end;
    cbv; split; discriminate.
Qed.

(** The identifiers of the tag [processElement] answers, if any. *)
Definition idsOf (t : option PDFTag) : list Z :=
  match t with Some t' => tagIds t' | None => [] end.

Definition positive (ids : list Z) : list Z :=
  filter (fun i => (0 <? i)%Z) ids.

Lemma countFrom_app (first : Z) (n m : nat) :
  countFrom first (n + m) =
  countFrom first n ++ countFrom (first + Z.of_nat n) m.
Proof.
  revert first. induction n as [|n IH]; intros first.
  - cbn [Nat.add countFrom app]. rewrite Z.add_0_r. reflexivity.
  - cbn [Nat.add countFrom app]. rewrite IH. do 3 f_equal. lia.
Qed.

Lemma countFrom_bounds (first : Z) (n : nat) (i : Z) :
  In i (countFrom first n) -> (first <= i < first + Z.of_nat n)%Z.
Proof.
  revert first. induction n as [|n IH]; intros first; [intros []|].
  cbn [countFrom]. intros [<- | Hin]; [lia|].
  specialize (IH _ Hin). lia.
Qed.

Lemma countFrom_NoDup (first : Z) (n : nat) : NoDup (countFrom first n).
Proof.
  revert first. induction n as [|n IH]; intros first; constructor.
  - intros Hin. apply countFrom_bounds in Hin. lia.
  - apply IH.
Qed.

Section ProcessingFacts.

Variable getStructureType : Element -> JS.JSString.
Variable createElementAttributes : Element -> list PDFTagAttribute.

Local Notation "'process'" :=
  (processElement getStructureType createElementAttributes).
Local Notation "'processAll'" :=
  (processElements getStructureType createElementAttributes).

Lemma processElement_unfold (element : Element)
    (context : DocumentStructureContext) :
  process element context =
  if shouldSkipElement element then (None, context)
  else
    let '(tagId, structureType, counter) :=
      if isArtifactElement element
      then (getArtifactType element, JS.str "Artifact", nextId context)
      else (nextId context, getStructureType element,
            (nextId context + 1)%Z) in
    let '(childTags, context2) :=
      processAll (children element)
        {| nextId := counter;
           tagIdMap := Map_set (tagIdMap context) element tagId |} in
    (Some {| id := Some tagId;
             type := structureType;
             alt := orElse (getAttribute element (JS.str "alt"))
                           (getAttribute element (JS.str "aria-label"));
             language := orElse (getAttribute element (JS.str "lang")) None;
             attributes := createElementAttributes element;
             tagChildren := childTags |},
     context2).
Proof.
  destruct element as [nd tag attr classes cs].
  cbn [processElement children].
  destruct (shouldSkipElement _); [reflexivity|].
  destruct (isArtifactElement _);
    match goal with
    | |- (let '(_, _) := ?f cs ?c in _) = (let '(_, _) := processAll cs ?c in _) =>
        replace (f cs c) with (processAll cs c); [reflexivity|];
        generalize c; induction cs as [|child rest IH]; intros c0;
        [reflexivity|]; cbn [processElements];
        destruct (process child c0) as [childTag ctx1]; rewrite IH;
        reflexivity
    end.
Qed.

Lemma tagged_unfold (element : Element) :
  tagged element =
  if shouldSkipElement element then []
  else element :: flat_map tagged (children element).
Proof. destruct element. reflexivity. Qed.

(** What one call of [processElement] does to the counter and to the map,
    for an element and for a list of elements: [stamps] are the [set]
    calls it makes, in order. *)
Definition numbered (tags : list Z) (elements : list Element)
    (stamps : list (Element * Z))
    (before after : DocumentStructureContext) : Prop :=
  positive tags = countFrom (nextId before) (List.length (positive tags))
  /\ nextId after = (nextId before + Z.of_nat (List.length (positive tags)))%Z
  /\ tagIdMap after = setAll (tagIdMap before) stamps
  /\ stamps = combine elements tags
  /\ List.length elements = List.length tags
  /\ Forall (fun i => i <> 0%Z) tags.

Lemma numbered_nil (context : DocumentStructureContext) :
  numbered [] [] [] context context.
Proof.
  unfold numbered. cbn. rewrite Z.add_0_r. repeat split.
  constructor.
Qed.

Lemma combine_app {A B} (l1 l2 : list A) (m1 m2 : list B) :
  List.length l1 = List.length m1 ->
  combine (l1 ++ l2) (m1 ++ m2) = combine l1 m1 ++ combine l2 m2.
Proof.
  revert m1. induction l1 as [|a l1 IH]; intros [|b m1] H;
    try discriminate; [reflexivity|].
  cbn [app combine]. rewrite IH; [reflexivity|]. cbn in H. lia.
Qed.

Lemma numbered_app tags1 tags2 elements1 elements2 stamps1 stamps2 c0 c1 c2 :
  numbered tags1 elements1 stamps1 c0 c1 ->
  numbered tags2 elements2 stamps2 c1 c2 ->
  numbered (tags1 ++ tags2) (elements1 ++ elements2) (stamps1 ++ stamps2)
           c0 c2.
Proof.
  intros (P1 & N1 & M1 & S1 & L1 & Z1) (P2 & N2 & M2 & S2 & L2 & Z2).
  unfold numbered, positive in *. rewrite filter_app, length_app.
  repeat split.
  - rewrite countFrom_app, <- P1, <- N1, <- P2. reflexivity.
  - rewrite N2, N1. lia.
  - rewrite M2, M1. unfold setAll. rewrite fold_left_app. reflexivity.
  - rewrite S1, S2, combine_app by exact L1. reflexivity.
  - rewrite !length_app, L1, L2. reflexivity.
  - apply Forall_app. split; assumption.
Qed.

Lemma processElement_numbered (element : Element) :
  forall context,
    (0 < nextId context)%Z ->
    exists stamps,
      numbered (idsOf (fst (process element context))) (tagged element)
               stamps context (snd (process element context)).
Proof.
  induction element as [nd tag attr classes cs IH] using Element_tree_ind.
  intros context Hpos. rewrite processElement_unfold, tagged_unfold.
  destruct (shouldSkipElement _); [exists []; apply numbered_nil|].
  cbn [children]. set (element := Build_Element nd tag attr classes cs).
  assert (Hall : forall c0, (0 < nextId c0)%Z ->
            exists stamps,
              numbered (flat_map tagIds (fst (processAll cs c0)))
                       (flat_map tagged cs) stamps c0
                       (snd (processAll cs c0))).
  { clear Hpos context. induction cs as [|child rest IHrest]; intros c0 Hc0.
    - exists []. apply numbered_nil.
    - inversion IH as [|? ? Hchild Hrest]; subst.
      cbn [processElements flat_map].
      destruct (Hchild c0 Hc0) as [stamps1 H1].
      destruct (process child c0) as [childTag ctx1]. cbn [fst snd] in H1.
      assert (Hc1 : (0 < nextId ctx1)%Z).
      { destruct H1 as (_ & N1 & _). lia. }
      destruct (IHrest Hrest ctx1 Hc1) as [stamps2 H2].
      destruct (processAll rest ctx1) as [tags ctx2]. cbn [fst snd] in *.
      exists (stamps1 ++ stamps2).
      replace (flat_map tagIds
                 match childTag with Some t => t :: tags | None => tags end)
        with (idsOf childTag ++ flat_map tagIds tags)
        by (destruct childTag; reflexivity).
      apply numbered_app with (c1 := ctx1); assumption. }
  destruct (isArtifactElement element).
  - pose proof (getArtifactType_negative element) as Hneg.
    set (c1 := {| nextId := nextId context;
                  tagIdMap := Map_set (tagIdMap context) element
                                      (getArtifactType element) |}).
    destruct (Hall c1 Hpos) as [stamps H].
    destruct (processAll cs c1) as [tags ctx2].
    cbn [fst snd idsOf tagIds id tagChildren] in *.
    exists ([(element, getArtifactType element)] ++ stamps).
    change (numbered ([getArtifactType element] ++ flat_map tagIds tags)
                     ([element] ++ flat_map tagged cs)
                     ([(element, getArtifactType element)] ++ stamps)
                     context ctx2).
    apply numbered_app with (c1 := c1); [|exact H].
    unfold numbered, positive. cbn [filter].
    replace (0 <? getArtifactType element)%Z with false
      by (symmetry; apply Z.ltb_ge; lia).
    cbn. rewrite Z.add_0_r. repeat split.
    constructor; [lia | constructor].
  - set (c1 := {| nextId := (nextId context + 1)%Z;
                  tagIdMap := Map_set (tagIdMap context) element
                                      (nextId context) |}).
    assert (Hc1 : (0 < nextId c1)%Z) by (cbn; lia).
    destruct (Hall c1 Hc1) as [stamps H].
    destruct (processAll cs c1) as [tags ctx2].
    cbn [fst snd idsOf tagIds id tagChildren] in *.
    exists ([(element, nextId context)] ++ stamps).
    change (numbered ([nextId context] ++ flat_map tagIds tags)
                     ([element] ++ flat_map tagged cs)
                     ([(element, nextId context)] ++ stamps)
                     context ctx2).
    apply numbered_app with (c1 := c1); [|exact H].
    unfold numbered, positive. cbn [filter].
    replace (0 <? nextId context)%Z with true
      by (symmetry; apply Z.ltb_lt; lia).
    cbn. repeat split. constructor; [lia | constructor].
Qed.

Lemma processElements_numbered (elements : list Element) :
  forall context,
    (0 < nextId context)%Z ->
    exists stamps,
      numbered (flat_map tagIds (fst (processAll elements context)))
               (flat_map tagged elements) stamps
               context (snd (processAll elements context)).
Proof.
  induction elements as [|child rest IH]; intros c0 Hc0.
  - exists []. apply numbered_nil.
  - cbn [processElements flat_map].
    destruct (processElement_numbered child c0 Hc0) as [stamps1 H1].
    destruct (process child c0) as [childTag ctx1]. cbn [fst snd] in H1.
    assert (Hc1 : (0 < nextId ctx1)%Z).
    { destruct H1 as (_ & N1 & _). lia. }
    destruct (IH ctx1 Hc1) as [stamps2 H2].
    destruct (processAll rest ctx1) as [tags ctx2]. cbn [fst snd] in *.
    exists (stamps1 ++ stamps2).
    replace (flat_map tagIds
               match childTag with Some t => t :: tags | None => tags end)
      with (idsOf childTag ++ flat_map tagIds tags)
      by (destruct childTag; reflexivity).
    apply numbered_app with (c1 := ctx1); assumption.
Qed.

Lemma validateTag_unfold (tag : PDFTag) (visitedIds : list Z) :
  validateTag tag visitedIds =
  if match id tag with
     | Some i => (0 <? i)%Z && existsb (Z.eqb i) visitedIds
     | None => false
     end
  then (false, visitedIds)
  else validateTags (tagChildren tag)
         match id tag with
         | Some i => if (0 <? i)%Z then i :: visitedIds else visitedIds
         | None => visitedIds
         end.
Proof.
  destruct tag as [i ty a l attrs cs]. cbn [validateTag id tagChildren].
  destruct (match i with Some _ => _ | None => _ end); [reflexivity|].
  generalize (match i with
              | Some i0 => if (0 <? i0)%Z then i0 :: visitedIds else visitedIds
              | None => visitedIds
              end).
  induction cs as [|c cs IH]; intros v; [reflexivity|].
  cbn [validateTags]. destruct (validateTag c v) as [[] v']; [apply IH|].
  reflexivity.
Qed.

Lemma NoDup_app_disjoint {A} (l1 l2 : list A) :
  NoDup (l1 ++ l2) ->
  NoDup l1 /\ NoDup l2 /\ (forall a, In a l1 -> ~ In a l2).
Proof.
  induction l1 as [|x l1 IH]; cbn [app]; intros H.
  - repeat split; [constructor | exact H | intros a []].
  - inversion H as [|? ? Hx Hrest]; subst.
    destruct (IH Hrest) as (N1 & N2 & D). repeat split.
    + constructor; [|exact N1]. intros Hin. apply Hx, in_or_app. left.
      exact Hin.
    + exact N2.
    + intros a [<- | Hin]; [|apply D, Hin].
      intros Hin2. apply Hx, in_or_app. right. exact Hin2.
Qed.

Lemma existsb_absent (i : Z) (visited : list Z) :
  ~ In i visited -> existsb (Z.eqb i) visited = false.
Proof.
  intros Hnot. destruct (existsb (Z.eqb i) visited) eqn:E; [|reflexivity].
  apply existsb_exists in E as (j & Hin & Heq). apply Z.eqb_eq in Heq.
  subst j. contradiction.
Qed.

(** A structure whose positive identifiers are pairwise distinct, and
    distinct from those already visited, passes [validateTag], which
    visits them in document order. *)
Lemma validateTag_distinct (tag : PDFTag) :
  forall visited,
    NoDup (positive (tagIds tag)) ->
    (forall i, In i (positive (tagIds tag)) -> ~ In i visited) ->
    validateTag tag visited = (true, rev (positive (tagIds tag)) ++ visited).
Proof.
  induction tag as [i ty a l attrs cs IH] using PDFTag_tree_ind.
  intros visited Hnd Hfresh. rewrite validateTag_unfold.
  cbn [tagIds id tagChildren] in *. unfold positive in *.
  rewrite filter_app in *.
  set (own := filter (fun i0 => (0 <? i0)%Z)
                     match i with Some i0 => [i0] | None => [] end) in *.
  destruct (NoDup_app_disjoint _ _ Hnd) as (Nown & Ncs & Dis).
  assert (Hown :
            match i with
            | Some i0 => (0 <? i0)%Z && existsb (Z.eqb i0) visited
            | None => false
            end = false
            /\ match i with
               | Some i0 => if (0 <? i0)%Z then i0 :: visited else visited
               | None => visited
               end = rev own ++ visited).
  { subst own. destruct i as [i0|]; [|split; reflexivity].
    cbn [filter] in *. destruct (0 <? i0)%Z eqn:E; [|split; reflexivity].
    rewrite existsb_absent; [split; reflexivity|].
    apply Hfresh. left. reflexivity. }
  destruct Hown as [Hok Hvisited]. rewrite Hok, Hvisited.
  assert (Hlist : forall v,
            NoDup (filter (fun i0 => (0 <? i0)%Z) (flat_map tagIds cs)) ->
            (forall j, In j (filter (fun i0 => (0 <? i0)%Z)
                                    (flat_map tagIds cs)) -> ~ In j v) ->
            validateTags cs v
            = (true, rev (filter (fun i0 => (0 <? i0)%Z)
                                 (flat_map tagIds cs)) ++ v)).
  { clear Hnd Hfresh Nown Ncs Dis Hvisited Hok own.
    induction cs as [|c cs IHcs]; intros v Hn Hf; [reflexivity|].
    inversion IH as [|? ? Hc Hrest]; subst.
    cbn [flat_map validateTags] in *. rewrite filter_app in *.
    destruct (NoDup_app_disjoint _ _ Hn) as (Nc & Nrest & Dcr).
    rewrite (Hc v Nc); [|intros j Hj; apply Hf, in_or_app; left; exact Hj].
    rewrite (IHcs Hrest); [rewrite rev_app_distr, app_assoc; reflexivity
                          | exact Nrest |].
    intros j Hj Hin. apply in_app_or in Hin as [Hin | Hin].
    - apply in_rev in Hin. exact (Dcr j Hin Hj).
    - exact (Hf j (in_or_app _ _ _ (or_intror Hj)) Hin). }
  rewrite Hlist; [rewrite rev_app_distr, app_assoc; reflexivity | exact Ncs |].
  intros j Hj Hin. apply in_app_or in Hin as [Hin | Hin].
  - apply in_rev in Hin. exact (Dis j Hin Hj).
  - exact (Hfresh j (in_or_app _ _ _ (or_intror Hj)) Hin).
Qed.

Lemma generated_ids (htmlElement : Element + list Element) :
  let result :=
    generateDocumentStructure getStructureType createElementAttributes
                              htmlElement in
  let elements := taggedOf htmlElement in
  let ids := elementTagIds htmlElement (fst result) in
  positive (tagIds (fst result))
  = countFrom 1 (List.length (positive (tagIds (fst result))))
  /\ List.length elements = List.length ids
  /\ Forall (fun i => i <> 0%Z) ids
  /\ snd result = setAll [] (combine elements ids).
Proof.
  cbv zeta. unfold generateDocumentStructure, taggedOf, elementTagIds.
  set (context := {| nextId := 1%Z; tagIdMap := [] |}).
  assert (Hpos : (0 < nextId context)%Z) by (cbn; lia).
  destruct htmlElement as [element | elements].
  - destruct (processElement_numbered element context Hpos)
      as [stamps (P & N & M & S & L & Z0)].
    pose proof (processElement_unfold element context) as Hun.
    rewrite tagged_unfold in *.
    destruct (shouldSkipElement element) eqn:Hskip.
    + rewrite Hun. cbn. repeat split. constructor.
    + destruct (process element context) as [[t|] ctx].
      * cbn [fst snd idsOf] in *. rewrite M, S.
        repeat split; assumption.
      * exfalso. destruct (isArtifactElement element);
          destruct (processAll _ _); discriminate.
  - destruct (processElements_numbered elements context Hpos)
      as [stamps (P & N & M & S & L & Z0)].
    destruct (processAll elements context) as [tags ctx].
    cbn [fst snd tagIds id tagChildren app] in *. rewrite M, S.
    cbn [positive filter Z.ltb Z.compare].
    repeat split; assumption.
Qed.

Lemma map_fst_combine {A B} (l : list A) (m : list B) :
  List.length l = List.length m -> map fst (combine l m) = l.
Proof.
  revert m. induction l as [|a l IH]; intros [|b m] H;
    try discriminate; [reflexivity|].
  cbn [combine map fst]. f_equal. apply IH. cbn in H. lia.
Qed.

(** A [set] for an element the map does not hold adds an entry. *)
Lemma Map_set_fresh (map_ : TagIdMap) (element : Element) (tagId : Z) :
  ~ In (node element) (map (fun entry => node (fst entry)) map_) ->
  Map_set map_ element tagId = map_ ++ [(element, tagId)].
Proof.
  induction map_ as [|[key value] rest IH]; [reflexivity|].
  cbn [map fst In Map_set app]. intros Hfresh.
  destruct (N.eqb_spec (node key) (node element)) as [E | _].
  - exfalso. apply Hfresh. left. exact E.
  - rewrite IH; [reflexivity|]. intros Hin. apply Hfresh. right. exact Hin.
Qed.

(** [set] calls for elements that are pairwise distinct, and that the map
    does not hold, add their entries in order. *)
Lemma setAll_distinct (stamps : list (Element * Z)) :
  forall map_,
    NoDup (map (fun entry => node (fst entry)) (map_ ++ stamps)) ->
    setAll map_ stamps = map_ ++ stamps.
Proof.
  induction stamps as [|[element tagId] stamps IH]; intros map_ Hnd.
  - cbn. rewrite app_nil_r. reflexivity.
  - unfold setAll. cbn [fold_left fst snd]. fold (setAll (Map_set map_ element tagId) stamps).
    rewrite Map_set_fresh.
    + rewrite IH; rewrite <- app_assoc; [reflexivity | exact Hnd].
    + rewrite map_app in Hnd. cbn [map fst] in Hnd.
      apply NoDup_remove_2 in Hnd. intros Hin. apply Hnd, in_or_app.
      left. exact Hin.
Qed.

(** In a map of pairwise distinct elements, [get] reads each element's
    own value. *)
Lemma Map_get_combine (elements : list Element) :
  forall ids,
    NoDup (map node elements) ->
    List.length elements = List.length ids ->
    map (Map_get (combine elements ids)) elements = map Some ids.
Proof.
  induction elements as [|element elements IH]; intros [|i ids] Hnd Hlen;
    try discriminate; [reflexivity|].
  cbn [map combine Map_get]. rewrite N.eqb_refl. f_equal.
  inversion Hnd as [|? ? Hfresh Hrest]; subst.
  rewrite <- (IH ids Hrest) by (cbn in Hlen; lia).
  apply map_ext_in. intros other Hin.
  destruct (N.eqb_spec (node element) (node other)) as [E | _];
    [|reflexivity].
  exfalso. apply Hfresh. rewrite E. apply in_map, Hin.
Qed.

(** X17.  The elements that stand for content are numbered 1, 2, 3, ... in
    document order: read in that order, the positive identifiers of the
    structure [generateDocumentStructure] answers, for one element or for
    an array of elements, are the first whole numbers, each once.  Skipped
    elements and artifacts take no number. *)
Theorem content_tags_numbered_in_document_order
    (htmlElement : Element + list Element) :
  let structure :=
    fst (generateDocumentStructure getStructureType createElementAttributes
                                   htmlElement) in
  contentIds structure
  = countFrom 1 (List.length (contentIds structure)).
Proof. exact (proj1 (generated_ids htmlElement)). Qed.

(** X18.  Every structure [generateDocumentStructure] answers passes
    [validatePDFStructure]: no positive identifier occurs twice. *)
Theorem generated_structure_is_valid (htmlElement : Element + list Element) :
  validatePDFStructure
    (fst (generateDocumentStructure getStructureType createElementAttributes
                                    htmlElement)) = true.
Proof.
  destruct (generated_ids htmlElement) as (Hids & _).
  cbv zeta in Hids. unfold validatePDFStructure.
  rewrite validateTag_distinct; [reflexivity | |intros i _ []].
  rewrite Hids. apply countFrom_NoDup.
Qed.

(** X19.  [tagIdMap] is what the [set] calls for the tagged elements make of
    an empty map, the calls taken in document order, each with the
    identifier of the element's tag in the structure; no such identifier
    is 0, which the renderer takes for "no tag".  When the elements tagged
    are pairwise distinct DOM elements, as those of one tree are, the map
    holds one entry for each of them, in document order, and
    [getPDFTagForElement] answers for each the identifier of its tag.  (An
    element met twice, in an array that repeats it or holds it beside one
    of its ancestors, has one entry, with the last identifier it got.) *)
Theorem tagIdMap_matches_structure (htmlElement : Element + list Element) :
  let result :=
    generateDocumentStructure getStructureType createElementAttributes
                              htmlElement in
  let elements := taggedOf htmlElement in
  let ids := elementTagIds htmlElement (fst result) in
  List.length elements = List.length ids
  /\ Forall (fun i => i <> 0%Z) ids
  /\ snd result = setAll [] (combine elements ids)
  /\ (NoDup (map node elements) ->
      snd result = combine elements ids
      /\ map (fun element => getPDFTagForElement element (snd result))
             elements
         = map Some ids).
Proof.
  cbv zeta.
  destruct (generated_ids htmlElement) as (_ & Hlen & Hnz & Hmap).
  cbv zeta in *.
  set (elements := taggedOf htmlElement) in *.
  set (ids := elementTagIds htmlElement _) in *.
  split; [exact Hlen | split; [exact Hnz | split; [exact Hmap|]]].
  intros Hnd.
  assert (Hentries :
            snd (generateDocumentStructure getStructureType
                   createElementAttributes htmlElement)
            = combine elements ids).
  { rewrite Hmap. rewrite setAll_distinct; [reflexivity|].
    cbn [app]. rewrite <- map_map.
    rewrite map_fst_combine by exact Hlen. exact Hnd. }
  split; [exact Hentries|].
  rewrite Hentries. unfold getPDFTagForElement.
  apply Map_get_combine; assumption.
Qed.

End ProcessingFacts.

End DocumentStructure.

(* ===================================================================== *)
(** * Words and lines of text ([src/css/layout/text.ts])                  *)
(* ===================================================================== *)

Module TextLayout.

(** In [breakWords] a string is read through [toCodePoints] and written
    through [fromCodePoint]: a string is the list of its code points. *)
Definition CodePoints := list N.

Definition wordSeparators : list N :=
  [0x0020; 0x00a0; 0x1361; 0x10100; 0x10101; 0x1039; 0x1091]%N.

(** [wordSeparators.indexOf(codePoint) === -1] *)
Definition isWordSeparator (codePoint : N) : bool :=
  existsb (N.eqb codePoint) wordSeparators.

(** One turn of [codePoints.forEach]: the word under construction and the
    words pushed so far. *)
Definition breakStep (state : CodePoints * list CodePoints) (codePoint : N)
  : CodePoints * list CodePoints :=
  let '(word, words) := state in
  if negb (isWordSeparator codePoint) then (word ++ [codePoint], words)
  else
    let words1 := if negb (isEmpty word) then words ++ [word] else words in
    ([], words1 ++ [[codePoint]]).

(** The body of the [while] loop for one break value. *)
Definition breakValue (words : list CodePoints) (value : CodePoints)
  : list CodePoints :=
  let '(word, words1) := fold_left breakStep value ([], words) in
  if negb (isEmpty word) then words1 ++ [word] else words1.

(** [breakWords], from the values the line breaker answers
    ([bk.value.slice()] for every break that has a value, in order). *)
Definition breakWords (breaks : list CodePoints) : list CodePoints :=
  fold_left breakValue breaks [].

(** [Math.min] and [Math.max] *)
Definition Math_min (a b : Q) : Q := if Qlt_le_dec b a then b else a.
Definition Math_max (a b : Q) : Q := if Qlt_le_dec a b then b else a.

Definition unionBounds (bounds1 bounds2 : Bounds) : Bounds :=
  {| left := Math_min (left bounds1) (left bounds2);
     top := Math_min (top bounds1) (top bounds2);
     width := Math_max (left bounds1 + width bounds1)
                       (left bounds2 + width bounds2)
              - Math_min (left bounds1) (left bounds2);
     height := Math_max (top bounds1 + height bounds1)
                        (top bounds2 + height bounds2)
               - Math_min (top bounds1) (top bounds2) |}.

(** [class TextBounds]; a font is known by its native object, [None] is
    [undefined]. *)
Record TextBounds := {
  text : JS.JSString;
  bounds : Bounds;
  font : option Handle
}.

(** [currentFont === tb.font] *)
Definition sameFont (a b : option Handle) : bool :=
  match a, b with
  | Some x, Some y => (x =? y)%N
  | None, None => true
  | _, _ => false
  end.

(** Modelled from the spec: [Bounds.EMPTY] ([src/css/layout/bounds.ts]) is
    not among the source files; it is the box with four zeros. *)
Definition Bounds_EMPTY : Bounds :=
  {| left := 0; top := 0; width := 0; height := 0 |}.

(** The variables of [combineLines]. *)
Record Lines := {
  combined : list TextBounds;
  currentText : JS.JSString;
  currentBounds : Bounds;
  currentFont : option Handle
}.

(** One turn of [textBounds.forEach]. *)
Definition combineStep (l : Lines) (tb : TextBounds) : Lines :=
  if isEmpty (currentText l) then
    {| combined := combined l;
       currentText := text tb;
       currentBounds := bounds tb;
       currentFont := font tb |}
  else if Qgtb (top (currentBounds l) + height (currentBounds l))
               (top (bounds tb))
          && sameFont (currentFont l) (font tb) then
    {| combined := combined l;
       currentText := currentText l ++ text tb;
       currentBounds := unionBounds (currentBounds l) (bounds tb);
       currentFont := currentFont l |}
  else
    {| combined := combined l
                   ++ [{| text := currentText l;
                          bounds := currentBounds l;
                          font := currentFont l |}];
       currentText := text tb;
       currentBounds := bounds tb;
       currentFont := font tb |}.

Definition finish (l : Lines) : list TextBounds :=
  if negb (isEmpty (currentText l)) then
    combined l ++ [{| text := currentText l;
                      bounds := currentBounds l;
                      font := currentFont l |}]
  else combined l.

Definition combineLines (textBounds : list TextBounds) : list TextBounds :=
  finish (fold_left combineStep textBounds
            {| combined := [];
               currentText := [];
               currentBounds := Bounds_EMPTY;
               currentFont := None |}).

(** ** Properties *)

(** A word as [breakWords] answers them: one separator alone, or code
    points none of which is a separator, at least one. *)
Definition wellFormedWord (w : CodePoints) : Prop :=
  w <> []
  /\ ((exists c, w = [c] /\ isWordSeparator c = true)
      \/ forallb (fun c => negb (isWordSeparator c)) w = true).

Definition plainSoFar (w : CodePoints) : Prop :=
  forallb (fun c => negb (isWordSeparator c)) w = true.

Lemma breakStep_invariant (state : CodePoints * list CodePoints)
    (codePoint : N) :
  Forall wellFormedWord (snd state) -> plainSoFar (fst state) ->
  List.concat (snd (breakStep state codePoint))
  ++ fst (breakStep state codePoint)
  = (List.concat (snd state) ++ fst state) ++ [codePoint]
  /\ Forall wellFormedWord (snd (breakStep state codePoint))
  /\ plainSoFar (fst (breakStep state codePoint)).
Proof.
  destruct state as [word words]. cbn [fst snd]. intros Hne Hplain.
  unfold breakStep. destruct (isWordSeparator codePoint) eqn:Hsep;
    cbn [negb fst snd].
  - assert (Hone : wellFormedWord [codePoint]).
    { split; [discriminate|]. left. exists codePoint. split; trivial. }
    destruct word as [|c word]; cbn [isEmpty negb].
    + rewrite concat_app. cbn. rewrite !app_nil_r.
      split; [reflexivity | split; [|reflexivity]].
      apply Forall_app. split; [exact Hne|].
      constructor; [exact Hone | constructor].
    + rewrite !concat_app. cbn. rewrite !app_nil_r.
      split; [reflexivity | split; [|reflexivity]].
      apply Forall_app. split; [|constructor; [exact Hone | constructor]].
      apply Forall_app. split; [exact Hne|].
      constructor; [|constructor].
      split; [discriminate | right; exact Hplain].
  - split; [rewrite app_assoc; reflexivity | split; [exact Hne|]].
    unfold plainSoFar in *. rewrite forallb_app, Hplain.
    cbn [forallb andb]. rewrite Hsep. reflexivity.
Qed.

Lemma breakSteps_invariant (value : CodePoints)
    (state : CodePoints * list CodePoints) :
  Forall wellFormedWord (snd state) -> plainSoFar (fst state) ->
  List.concat (snd (fold_left breakStep value state))
  ++ fst (fold_left breakStep value state)
  = (List.concat (snd state) ++ fst state) ++ value
  /\ Forall wellFormedWord (snd (fold_left breakStep value state))
  /\ plainSoFar (fst (fold_left breakStep value state)).
Proof.
  revert state. induction value as [|c value IH]; intros state Hne Hplain.
  - cbn. rewrite app_nil_r. split; [reflexivity | split; assumption].
  - cbn [fold_left].
    destruct (breakStep_invariant state c Hne Hplain) as (Hc & Hne' & Hp').
    destruct (IH _ Hne' Hp') as (Hv & Hne'' & Hp'').
    split; [|split; assumption].
    rewrite Hv, Hc, <- !app_assoc. reflexivity.
Qed.

Lemma breakValue_invariant (words : list CodePoints) (value : CodePoints) :
  Forall wellFormedWord words ->
  List.concat (breakValue words value) = List.concat words ++ value
  /\ Forall wellFormedWord (breakValue words value).
Proof.
  intros Hne. unfold breakValue.
  destruct (breakSteps_invariant value ([], words) Hne) as (Hc & Hne' & Hp);
    [reflexivity|].
  destruct (fold_left breakStep value ([], words)) as [word words1].
  cbn [fst snd] in *. rewrite app_nil_r in Hc.
  destruct word as [|c word]; cbn [isEmpty negb].
  - rewrite app_nil_r in Hc. split; assumption.
  - rewrite concat_app. cbn. rewrite app_nil_r. split; [exact Hc|].
    apply Forall_app. split; [exact Hne'|]. constructor; [|constructor].
    split; [discriminate | right; exact Hp].
Qed.

(** X20.  [breakWords] loses nothing and invents nothing: the words it answers,
    put back together, are the break values put together; no word is
    empty; and a word separator is always a word of its own, never part
    of a longer word. *)
Theorem breakWords_round_trip (breaks : list CodePoints) :
  List.concat (breakWords breaks) = List.concat breaks
  /\ Forall wellFormedWord (breakWords breaks).
Proof.
  unfold breakWords.
  assert (H : forall words,
             Forall wellFormedWord words ->
             List.concat (fold_left breakValue breaks words)
             = List.concat words ++ List.concat breaks
             /\ Forall wellFormedWord (fold_left breakValue breaks words)).
  { induction breaks as [|value breaks IH]; intros words Hne.
    - cbn. rewrite app_nil_r. split; [reflexivity | exact Hne].
    - cbn [fold_left List.concat].
      destruct (breakValue_invariant words value Hne) as [Hc Hne'].
      destruct (IH _ Hne') as [Hb Hne'']. split; [|exact Hne''].
      rewrite Hb, Hc, app_assoc. reflexivity. }
  apply (H []). constructor.
Qed.

(** What the loop of [combineLines] maintains: the text seen so far is
    the text pushed followed by the current text, and no pushed line is
    empty. *)
Definition linesKeep (seen : list TextBounds) (l : Lines) : Prop :=
  List.concat (map text (combined l)) ++ currentText l
  = List.concat (map text seen)
  /\ Forall (fun tb => text tb <> []) (combined l).

Lemma combineStep_keeps (seen : list TextBounds) (l : Lines)
    (tb : TextBounds) :
  linesKeep seen l -> linesKeep (seen ++ [tb]) (combineStep l tb).
Proof.
  intros (Htext & Hne). unfold combineStep, linesKeep.
  rewrite map_app, concat_app. cbn [map List.concat]. rewrite app_nil_r.
  destruct (currentText l) as [|c cur] eqn:Hcur; cbn [isEmpty].
  - cbn [combined currentText currentBounds]. rewrite app_nil_r in Htext.
    rewrite Htext. split; [reflexivity | exact Hne].
  - destruct (Qgtb _ _ && sameFont _ _);
      cbn [combined currentText currentBounds].
    + rewrite <- Htext, <- !app_assoc. split; [reflexivity | exact Hne].
    + rewrite map_app, concat_app. cbn [map List.concat text].
      rewrite app_nil_r, <- Htext. split; [reflexivity|].
      apply Forall_app. split; [exact Hne|]. repeat constructor.
      cbn [text]. discriminate.
Qed.

(** X22.  [combineLines] keeps the text: the lines it answers, read in order,
    spell what the boxes given spell, and no line it answers is empty. *)
Theorem combineLines_keeps_text (textBounds : list TextBounds) :
  List.concat (map text (combineLines textBounds)) = List.concat (map text textBounds)
  /\ Forall (fun tb => text tb <> []) (combineLines textBounds).
Proof.
  unfold combineLines.
  assert (H : forall rest seen l,
             linesKeep seen l ->
             linesKeep (seen ++ rest) (fold_left combineStep rest l)).
  { induction rest as [|tb rest IH]; intros seen l Hl.
    - rewrite app_nil_r. exact Hl.
    - cbn [fold_left].
      replace (seen ++ tb :: rest) with ((seen ++ [tb]) ++ rest)
        by (rewrite <- app_assoc; reflexivity).
      apply IH, combineStep_keeps, Hl. }
  specialize (H textBounds []
                {| combined := []; currentText := [];
                   currentBounds := Bounds_EMPTY; currentFont := None |}).
  cbn [app] in H.
  destruct H as (Htext & Hne).
  { split; [reflexivity | constructor]. }
  set (l := fold_left combineStep textBounds _) in *.
  unfold finish. destruct (currentText l) as [|c cur] eqn:Hcur;
    cbn [isEmpty negb].
  - rewrite app_nil_r in Htext. split; [exact Htext | exact Hne].
  - rewrite map_app, concat_app. cbn [map List.concat text].
    rewrite app_nil_r. split; [exact Htext|].
    apply Forall_app. split; [exact Hne|]. repeat constructor.
    cbn [text]. discriminate.
Qed.

End TextLayout.

(* ===================================================================== *)
(** * Fallback fonts ([src/pdf/font-fallback.ts],                         *)
(**   [src/fonts/font-enumeration.ts], [src/fonts/font-collection.ts])    *)
(* ===================================================================== *)

Module FontFallback.

(** [UnicodeCharacterBucket], also the keys of [IFallbackFontConfig] that
    [FallbackFontProvider] reads. *)
Inductive UnicodeCharacterBucket := cjk | emoji | symbol | unicode.

Definition bucketEq (a b : UnicodeCharacterBucket) : bool :=
  match a, b with
  | cjk, cjk | emoji, emoji | symbol, symbol | unicode, unicode => true
  | _, _ => false
  end.

Lemma bucket_eq_dec (a b : UnicodeCharacterBucket) : {a = b} + {a <> b}.
Proof. decide equality. Defined.

Lemma bucketEq_spec (a b : UnicodeCharacterBucket) :
  reflect (a = b) (bucketEq a b).
Proof. destruct a, b; constructor; congruence. Qed.

(** A character class range of a regular expression without the [u] flag:
    it is tested against single UTF-16 code units. *)
Definition inRange (first last_ : N) (codeUnit : N) : bool :=
  (first <=? codeUnit)%N && (codeUnit <=? last_)%N.

(** [/[\u4e00-\u9faf]/.test(text)] *)
Definition hasCJK (text : JS.JSString) : bool :=
  existsb (inRange 0x4e00 0x9faf) text.

(** [/[\u20A0-\u20CF\u2190-\u21FF\u2300-\u23FF\u2500-\u27BF]/] *)
Definition hasProviderSymbol (text : JS.JSString) : bool :=
  existsb (fun c => inRange 0x20A0 0x20CF c || inRange 0x2190 0x21FF c
                    || inRange 0x2300 0x23FF c || inRange 0x2500 0x27BF c)
          text.

(** [/[\u2600-\u26FF\u2700-\u27BF]/] *)
Definition hasEnumerationSymbol (text : JS.JSString) : bool :=
  existsb (fun c => inRange 0x2600 0x26FF c || inRange 0x2700 0x27BF c) text.

(** A native font manager: the object and the font data it was made
    from. *)
Record FontMgr := {
  mgrHandle : Handle;
  mgrData : list N
}.

(** [IFallbackFont]; an [ArrayBuffer] is known by a number. *)
Record IFallbackFont := {
  family : JS.JSString;
  fontBuffers : list N
}.

(** The fields of [SkiaFallbackFontCollection] ([_cache]), the allocator
    of native font managers, and the calls of [FontMgr.FromData] made so
    far, each with whether it answered a manager. *)
Record Collection := {
  _cache : UnicodeCharacterBucket -> option FontMgr;
  nextMgr : Handle;
  fromDataCalls : list (UnicodeCharacterBucket * bool)
}.

Definition newCollection (firstMgr : Handle) : Collection :=
  {| _cache := fun _ => None; nextMgr := firstMgr; fromDataCalls := [] |}.

Section Provider.

(** [emojiRegex().test(text)] of the package [emoji-regex-xs]. *)
Variable isEmoji : JS.JSString -> bool.

(** [fallbackFontConfig[key]], [None] when the key is absent. *)
Variable fallbackFontConfig :
  UnicodeCharacterBucket -> option (list IFallbackFont).

(** Whether [FontMgr.FromData] answers a manager for the buffers given,
    what a manager made from given data matches for a family name
    ([matchFamilyStyle], the style being [{}] throughout), and the glyph
    ids of a typeface. *)
Variable fromDataWorks : list N -> bool.
Variable matchFamilyStyle : list N -> JS.JSString -> option Typeface.
Variable getGlyphIDs : Typeface -> JS.JSString -> list N.

(** [this.fallbackFontConfig[key] ?? []] *)
Definition configured (key : UnicodeCharacterBucket) : list IFallbackFont :=
  match fallbackFontConfig key with Some fonts => fonts | None => [] end.

Definition getFontManager (key : UnicodeCharacterBucket) (s : Collection)
  : option FontMgr * Collection :=
  match _cache s key with
  | Some fontMgr => (Some fontMgr, s)
  | None =>
      let fontBuffers_ := flat_map fontBuffers (configured key) in
      if fromDataWorks fontBuffers_ then
        let newFontMgr :=
          {| mgrHandle := nextMgr s; mgrData := fontBuffers_ |} in
        (Some newFontMgr,
         {| _cache := fun k => if bucketEq k key then Some newFontMgr
                               else _cache s k;
            nextMgr := N.succ (nextMgr s);
            fromDataCalls := fromDataCalls s ++ [(key, true)] |})
      else
        (None,
         {| _cache := _cache s;
            nextMgr := nextMgr s;
            fromDataCalls := fromDataCalls s ++ [(key, false)] |})
  end.

(** [glyphIDs.length > 0 && glyphIDs[0] !== 0] *)
Definition coversFirstGlyph (typeface : Typeface) (text : JS.JSString)
  : bool :=
  match getGlyphIDs typeface text with
  | [] => false
  | first :: _ => negb (first =? 0)%N
  end.

(** The [for] loop over the family names. *)
Fixpoint firstCovering (fontMgr : FontMgr) (familyNames : list JS.JSString)
    (text : JS.JSString) : option Typeface :=
  match familyNames with
  | [] => None
  | familyName :: rest =>
      match matchFamilyStyle (mgrData fontMgr) familyName with
      | Some typeface =>
          if coversFirstGlyph typeface text then Some typeface
          else firstCovering fontMgr rest text
      | None => firstCovering fontMgr rest text
      end
  end.

(** [SkiaFallbackFontCollection.getFallbackFontTypeface] *)
Definition collectionTypeface (key : UnicodeCharacterBucket)
    (text : JS.JSString) (s : Collection) : option Typeface * Collection :=
  match getFontManager key s with
  | (None, s') => (None, s')
  | (Some fontMgr, s') =>
      (firstCovering fontMgr (map family (configured key)) text, s')
  end.

(** The bucket [FallbackFontProvider.getFallbackFontTypeface] looks in. *)
Definition providerBucket (text : JS.JSString) : UnicodeCharacterBucket :=
  if hasCJK text then cjk
  else if isEmoji text then emoji
  else if hasProviderSymbol text then symbol
  else unicode.

(** [FallbackFontProvider.getFallbackFontTypeface] *)
Definition getFallbackFontTypeface (text : JS.JSString) (s : Collection)
  : option Typeface * Collection :=
  collectionTypeface (providerBucket text) text s.

(** [getUnicodeCharacterBucket] of [src/fonts/font-enumeration.ts]. *)
Definition getUnicodeCharacterBucket (text : JS.JSString)
  : UnicodeCharacterBucket :=
  if hasCJK text then cjk
  else if isEmoji text then emoji
  else if hasEnumerationSymbol text then symbol
  else unicode.

(** The lookups of a list of texts, one after the other. *)
Definition lookups (texts : list JS.JSString) (s : Collection) : Collection :=
  fold_left (fun s' text => snd (getFallbackFontTypeface text s')) texts s.

(** ** Properties *)

Lemma hasEnumerationSymbol_provider (text : JS.JSString) :
  hasEnumerationSymbol text = true -> hasProviderSymbol text = true.
Proof.
  unfold hasEnumerationSymbol, hasProviderSymbol. rewrite !existsb_exists.
  intros (c & Hin & Hc). exists c. split; [exact Hin|].
  unfold inRange in *.
  apply orb_true_iff in Hc as [Hc | Hc];
    apply andb_true_iff in Hc as [Hlo Hhi];
    apply N.leb_le in Hlo; apply N.leb_le in Hhi;
    rewrite !orb_true_iff; right; apply andb_true_iff;
    split; apply N.leb_le; lia.
Qed.

(** X24.  The two classifiers of a text, the one the provider of fallback
    typefaces looks fonts up with and the one missing glyphs are reported
    with, agree on every text the second does not call [unicode]; where
    they differ, the provider looks among the symbol fonts for a text
    reported under [unicode]: a text with no CJK ideograph and no emoji
    that has a code unit in U+20A0-20CF, U+2190-21FF, U+2300-23FF or
    U+2500-25FF and none in U+2600-27BF. *)
Theorem buckets_agree_but_for_symbols (text : JS.JSString) :
  (getUnicodeCharacterBucket text <> unicode ->
   providerBucket text = getUnicodeCharacterBucket text)
  /\ (providerBucket text = getUnicodeCharacterBucket text
      \/ (providerBucket text = symbol
          /\ getUnicodeCharacterBucket text = unicode
          /\ hasCJK text = false /\ isEmoji text = false
          /\ hasProviderSymbol text = true
          /\ hasEnumerationSymbol text = false)).
Proof.
  unfold providerBucket, getUnicodeCharacterBucket.
  pose proof (hasEnumerationSymbol_provider text) as Himp.
  destruct (hasCJK text); [split; [reflexivity | left; reflexivity]|].
  destruct (isEmoji text); [split; [reflexivity | left; reflexivity]|].
  destruct (hasEnumerationSymbol text).
  - rewrite Himp by reflexivity. split; [reflexivity | left; reflexivity].
  - destruct (hasProviderSymbol text).
    + split; [intros H; contradiction H; reflexivity|].
      right. repeat split.
    + split; [reflexivity | left; reflexivity].
Qed.

Lemma firstCovering_spec (fontMgr : FontMgr) (familyNames : list JS.JSString)
    (text : JS.JSString) :
  match firstCovering fontMgr familyNames text with
  | Some typeface =>
      exists before familyName after,
        familyNames = before ++ familyName :: after
        /\ matchFamilyStyle (mgrData fontMgr) familyName = Some typeface
        /\ coversFirstGlyph typeface text = true
        /\ Forall (fun name =>
                     match matchFamilyStyle (mgrData fontMgr) name with
                     | Some t => coversFirstGlyph t text = false
                     | None => True
                     end) before
  | None =>
      Forall (fun name =>
                match matchFamilyStyle (mgrData fontMgr) name with
                | Some t => coversFirstGlyph t text = false
                | None => True
                end) familyNames
  end.
Proof.
  induction familyNames as [|name rest IH]; cbn [firstCovering].
  - constructor.
  - destruct (matchFamilyStyle (mgrData fontMgr) name) as [t|] eqn:Hmatch.
    + destruct (coversFirstGlyph t text) eqn:Hcov.
      * exists [], name, rest. repeat split; try assumption. constructor.
      * destruct (firstCovering fontMgr rest text) as [t'|].
        -- destruct IH as (before & fam & after & -> & Hm & Hc & Hb).
           exists (name :: before), fam, after. repeat split; try assumption.
           constructor; [rewrite Hmatch; exact Hcov | exact Hb].
        -- constructor; [rewrite Hmatch; exact Hcov | exact IH].
    + destruct (firstCovering fontMgr rest text) as [t'|].
      * destruct IH as (before & fam & after & -> & Hm & Hc & Hb).
        exists (name :: before), fam, after. repeat split; try assumption.
        constructor; [rewrite Hmatch; exact I | exact Hb].
      * constructor; [rewrite Hmatch; exact I | exact IH].
Qed.

(** X25.  A typeface [FallbackFontProvider.getFallbackFontTypeface] answers for
    a text is the one the manager of the text's bucket matches for the
    first family of that bucket's configuration, in its order, whose
    typeface has glyphs for the text the first of which is not 0.  Only
    the first glyph is looked at. *)
Theorem fallback_typeface_covers_first_glyph (text : JS.JSString)
    (s : Collection) (typeface : Typeface) :
  fst (getFallbackFontTypeface text s) = Some typeface ->
  exists fontMgr before familyName after,
    fst (getFontManager (providerBucket text) s) = Some fontMgr
    /\ map family (configured (providerBucket text))
       = before ++ familyName :: after
    /\ matchFamilyStyle (mgrData fontMgr) familyName = Some typeface
    /\ (exists first rest,
           getGlyphIDs typeface text = first :: rest /\ first <> 0%N)
    /\ Forall (fun name =>
                 match matchFamilyStyle (mgrData fontMgr) name with
                 | Some t => coversFirstGlyph t text = false
                 | None => True
                 end) before.
Proof.
  unfold getFallbackFontTypeface, collectionTypeface.
  destruct (getFontManager (providerBucket text) s) as [[fontMgr|] s'];
    cbn [fst]; [|discriminate].
  intros Hfound.
  pose proof (firstCovering_spec fontMgr
                (map family (configured (providerBucket text))) text) as H.
  rewrite Hfound in H.
  destruct H as (before & fam & after & Hsplit & Hm & Hc & Hb).
  exists fontMgr, before, fam, after. repeat split; try assumption.
  unfold coversFirstGlyph in Hc.
  destruct (getGlyphIDs typeface text) as [|first rest]; [discriminate|].
  exists first, rest. split; [reflexivity|].
  apply negb_true_iff, N.eqb_neq in Hc. exact Hc.
Qed.

(** What the cache and the record of [FromData] calls have to do with
    each other. *)
Definition built (s : Collection) : list UnicodeCharacterBucket :=
  map fst (filter snd (fromDataCalls s)).

Definition cacheSound (s : Collection) : Prop :=
  NoDup (built s)
  /\ (forall key, _cache s key = None <-> ~ In key (built s)).

Lemma getFontManager_sound (key : UnicodeCharacterBucket) (s : Collection) :
  cacheSound s -> cacheSound (snd (getFontManager key s)).
Proof.
  intros [Hnd Hcache]. unfold getFontManager.
  destruct (_cache s key) as [m|] eqn:Hkey; [split; assumption|].
  destruct (fromDataWorks _); cbn [snd]; unfold cacheSound, built;
    cbn [_cache fromDataCalls]; rewrite filter_app, map_app; cbn;
    rewrite ?app_nil_r; [|split; assumption].
  split.
  - apply NoDup_app; [exact Hnd | repeat constructor; intros [] |].
    intros k Hin [Heq | []]. subst k.
    apply (proj1 (Hcache key)); assumption.
  - intros k. destruct (bucketEq_spec k key) as [-> | Hne].
    + split; [discriminate|]. intros Hnot. exfalso. apply Hnot.
      apply in_or_app. right. left. reflexivity.
    + rewrite Hcache. split; intros Hnot Hin; apply Hnot.
      * apply in_app_or in Hin as [Hin | [Heq | []]]; [exact Hin|].
        congruence.
      * apply in_or_app. left. exact Hin.
Qed.

(** X26.  Whatever texts are looked up, and in whatever order, a font manager
    is made at most once for each bucket: among the calls of
    [FontMgr.FromData] that answered a manager no bucket occurs twice, and
    a bucket has a cached manager exactly when such a call was made for
    it.  (A call that answers no manager is repeated at the next lookup.) *)
Theorem font_manager_made_once_per_bucket (texts : list JS.JSString)
    (firstMgr : Handle) :
  let s := lookups texts (newCollection firstMgr) in
  NoDup (built s)
  /\ (forall key, _cache s key <> None <-> In key (built s)).
Proof.
  cbv zeta.
  assert (H : forall s, cacheSound s -> cacheSound (lookups texts s)).
  { unfold lookups. induction texts as [|text texts IH]; intros s Hs;
      [exact Hs|].
    cbn [fold_left]. apply IH. unfold getFallbackFontTypeface,
      collectionTypeface.
    pose proof (getFontManager_sound (providerBucket text) s Hs) as Hm.
    destruct (getFontManager (providerBucket text) s) as [[m|] s'];
      exact Hm. }
  destruct (H (newCollection firstMgr)) as [Hnd Hcache].
  { split; [constructor|]. intros key. split; [intros _ []|reflexivity]. }
  split; [exact Hnd|]. intros key. specialize (Hcache key).
  destruct (_cache _ key) as [m|].
  - split; [|discriminate]. intros _.
    destruct (in_dec bucket_eq_dec key
                     (built (lookups texts (newCollection firstMgr))))
      as [Hin | Hnot]; [exact Hin|].
    apply (proj2 Hcache) in Hnot. discriminate.
  - split; [intros Hne; contradiction Hne; reflexivity|].
    intros Hin. exfalso. apply (proj1 Hcache); [reflexivity | exact Hin].
Qed.

End Provider.

(** The euro sign is a symbol for the provider and plain [unicode] for
    the report of missing glyphs, whatever the emoji test says of other
    texts. *)
Example euro_sign_buckets :
  providerBucket (fun _ => false) [0x20AC%N] = symbol
  /\ getUnicodeCharacterBucket (fun _ => false) [0x20AC%N] = unicode.
Proof. split; reflexivity. Qed.

End FontFallback.

Module FontCollection.

Import FontFallback.

(** [FontFamilyClass] *)
Inductive FontFamilyClass :=
| serif | sans_serif | monospace | cursive | fantasy | fangsong.

Definition classEq (a b : FontFamilyClass) : bool :=
  match a, b with
  | serif, serif | sans_serif, sans_serif | monospace, monospace
  | cursive, cursive | fantasy, fantasy | fangsong, fangsong => true
  | _, _ => false
  end.

(** The fields of [SkiaFontCollection] that hold family names: the set
    [families] (in insertion order) and the two maps. *)
Record SkiaFontCollection := {
  families : list JS.JSString;
  defaultFonts : FontFamilyClass -> option (list JS.JSString);
  fallbackFonts : UnicodeCharacterBucket -> option (list JS.JSString)
}.

(** [new SkiaFontCollection(canvasKit)] *)
Definition newFontCollection : SkiaFontCollection :=
  {| families := [];
     defaultFonts := fun _ => None;
     fallbackFonts := fun _ => None |}.

(** [this.families.has(family)] *)
Definition has (set : list JS.JSString) (family_ : JS.JSString) : bool :=
  existsb (strEq family_) set.

(** [addFont]: [this.families.add(family)]. *)
Definition addFont (family_ : JS.JSString) (s : SkiaFontCollection)
  : SkiaFontCollection :=
  {| families := if has (families s) family_ then families s
                 else families s ++ [family_];
     defaultFonts := defaultFonts s;
     fallbackFonts := fallbackFonts s |}.

(** [setDefaultFonts]; [None] when it throws. *)
Definition setDefaultFonts (fontFamilyClass : FontFamilyClass)
    (families_ : list JS.JSString) (s : SkiaFontCollection)
  : option SkiaFontCollection :=
  let families1 := filter (has (families s)) families_ in
  if isEmpty families1 then None
  else Some {| families := families s;
               defaultFonts := fun c => if classEq c fontFamilyClass
                                        then Some families1
                                        else defaultFonts s c;
               fallbackFonts := fallbackFonts s |}.

(** [setFallbackFonts]; [None] when it throws. *)
Definition setFallbackFonts (unicodeCharacterBucket : UnicodeCharacterBucket)
    (families_ : list JS.JSString) (s : SkiaFontCollection)
  : option SkiaFontCollection :=
  let families1 := filter (has (families s)) families_ in
  if isEmpty families1 then None
  else Some {| families := families s;
               defaultFonts := defaultFonts s;
               fallbackFonts := fun b => if bucketEq b unicodeCharacterBucket
                                         then Some families1
                                         else fallbackFonts s b |}.

(** [clearResources], as far as these fields go. *)
Definition clearResources (_ : SkiaFontCollection) : SkiaFontCollection :=
  newFontCollection.

(** [getFallbackFontFamilies] *)
Definition getFallbackFontFamilies (familyClasses : list FontFamilyClass)
    (s : SkiaFontCollection) : list JS.JSString :=
  flat_map (fun familyClass =>
              match defaultFonts s familyClass with
              | Some families_ => families_
              | None => []
              end) familyClasses.

(** A call on the collection from outside. *)
Inductive Request :=
| AddFont (family_ : JS.JSString)
| SetDefaultFonts (fontFamilyClass : FontFamilyClass)
    (families_ : list JS.JSString)
| SetFallbackFonts (unicodeCharacterBucket : UnicodeCharacterBucket)
    (families_ : list JS.JSString)
| ClearResources.

(** The collection after a request; a request that throws has written
    nothing. *)
Definition serve (s : SkiaFontCollection) (request : Request)
  : SkiaFontCollection :=
  match request with
  | AddFont family_ => addFont family_ s
  | SetDefaultFonts c fams =>
      match setDefaultFonts c fams s with Some s' => s' | None => s end
  | SetFallbackFonts b fams =>
      match setFallbackFonts b fams s with Some s' => s' | None => s end
  | ClearResources => clearResources s
  end.

Definition served (requests : list Request) : SkiaFontCollection :=
  fold_left serve requests newFontCollection.

(** Every list of a map is not empty and names registered families
    only. *)
Definition registeredOnly (s : SkiaFontCollection) : Prop :=
  (forall c fams, defaultFonts s c = Some fams ->
     fams <> [] /\ Forall (fun f => has (families s) f = true) fams)
  /\ (forall b fams, fallbackFonts s b = Some fams ->
        fams <> [] /\ Forall (fun f => has (families s) f = true) fams).

Lemma has_addFont (s : SkiaFontCollection) (family_ f : JS.JSString) :
  has (families s) f = true -> has (families (addFont family_ s)) f = true.
Proof.
  intros H. cbn [addFont families].
  destruct (has (families s) family_); [exact H|].
  unfold has in *. rewrite existsb_app, H. reflexivity.
Qed.

Lemma filter_registered (set fams : list JS.JSString) :
  Forall (fun f => has set f = true) (filter (has set) fams).
Proof.
  apply Forall_forall. intros f Hin. apply filter_In in Hin. apply Hin.
Qed.

Lemma serve_registeredOnly (s : SkiaFontCollection) (request : Request) :
  registeredOnly s -> registeredOnly (serve s request).
Proof.
  intros [Hd Hf]. destruct request as [fam | c fams | b fams |];
    cbn [serve].
  - split; [intros c fams Hc; destruct (Hd c fams Hc) as [Hne Hall]
           | intros b fams Hb; destruct (Hf b fams Hb) as [Hne Hall]];
      (split; [exact Hne|]); eapply Forall_impl; [|exact Hall| |exact Hall];
      cbv beta; intros f Hhas;
      apply (has_addFont s fam f Hhas).
  - unfold setDefaultFonts.
    destruct (filter (has (families s)) fams) as [|f0 kept] eqn:Hkept;
      cbn [isEmpty]; [split; assumption|].
    split; [|exact Hf]. cbn [defaultFonts families]. intros c' fams' Hc'.
    destruct (classEq c' c); [|exact (Hd c' fams' Hc')].
    injection Hc' as <-. split; [discriminate|].
    rewrite <- Hkept. apply filter_registered.
  - unfold setFallbackFonts.
    destruct (filter (has (families s)) fams) as [|f0 kept] eqn:Hkept;
      cbn [isEmpty]; [split; assumption|].
    split; [exact Hd|]. cbn [fallbackFonts families]. intros b' fams' Hb'.
    destruct (bucketEq b' b); [|exact (Hf b' fams' Hb')].
    injection Hb' as <-. split; [discriminate|].
    rewrite <- Hkept. apply filter_registered.
  - split; intros ? ? H; discriminate.
Qed.

(** X27.  Whatever fonts are added, defaults and fallbacks set (whether or not
    the call throws) and resources cleared, and in whatever order: the maps
    of default and of fallback families hold no empty list and name only
    families that are registered at that moment, so the families
    [getFallbackFontFamilies] answers are all registered. *)
Theorem default_families_are_registered (requests : list Request)
    (familyClasses : list FontFamilyClass) :
  let s := served requests in
  registeredOnly s
  /\ Forall (fun f => has (families s) f = true)
            (getFallbackFontFamilies familyClasses s).
Proof.
  cbv zeta.
  assert (H : registeredOnly (served requests)).
  { unfold served.
    assert (Hgen : forall s, registeredOnly s ->
                             registeredOnly (fold_left serve requests s)).
    { induction requests as [|request requests IH]; intros s Hs;
        [exact Hs|].
      cbn [fold_left]. apply IH, serve_registeredOnly, Hs. }
    apply Hgen. split; intros ? ? H; discriminate. }
  split; [exact H|]. destruct H as [Hd _].
  unfold getFallbackFontFamilies.
  induction familyClasses as [|c cs IH]; cbn [flat_map]; [constructor|].
  apply Forall_app. split; [|exact IH].
  destruct (defaultFonts (served requests) c) as [fams|] eqn:Hc;
    [apply (Hd c fams Hc) | constructor].
Qed.

End FontCollection.

(* ===================================================================== *)
(** * Further concrete inputs                                             *)
(* ===================================================================== *)

Module Scene.

(** A linear gradient across [Sample.box], left to right. *)
Definition direction : Q * Q * Q * Q * Q := (100, 10, 110, 30, 30).

(** A layer over a box without width. *)
Definition flatRendering : BackgroundRendering :=
  {| br_path := [Sample.corner 10 20; Sample.corner 10 40];
     br_x := 10; br_y := 20; br_width := 0; br_height := 20 |}.

(** [Sample.plainStyles] with the background layers given. *)
Definition layeredStyles (layers : list BackgroundImage)
  : CSSParsedDeclaration :=
  {| isVisible := true;
     backgroundColor := Sample.gray;
     backgroundImage := layers;
     backgroundClip0 := PADDING_BOX;
     boxShadow := [];
     borderTop := Sample.noBorder; borderRight := Sample.noBorder;
     borderBottom := Sample.noBorder; borderLeft := Sample.noBorder;
     s_color := Sample.red;
     letterSpacing := 0;
     textShadow := [];
     paintOrder := [FILL; STROKE; MARKERS];
     textDecorationLine := [];
     textDecorationColor := None;
     webkitTextStrokeWidth := 0;
     webkitTextStrokeColor := Sample.red;
     fontSize := 16;
     matchedTypeface := Some 3%N;
     baseline := 12;
     middle := 6 |}.

(** An image, a linear gradient and an elliptical radial gradient. *)
Definition layered : ElementContainer :=
  Sample.containerOf
    (layeredStyles
       [CSSURLImage Sample.rendering true;
        LinearGradient Sample.rendering direction Sample.stops;
        RadialGradient Sample.rendering 50 10 (50, 10) Sample.stops])
    [] 9.

(** A container with the PDF tag 5 and the text "Hi". *)
Definition tagged : ElementPaint :=
  {| container :=
       {| styles := Sample.plainStyles;
          textNodes := [Sample.textNode];
          c_bounds := Sample.box;
          pdfTagNodeId := Some 5%Z;
          containerId := 10 |};
     curves := Sample.boxCurves;
     getEffects := fun _ => [OpacityEffect (1 # 2)] |}.

(** One CJK fallback family whose typeface 7 has a glyph for every code
    unit. *)
Definition fallbackFontConfig (key : FontFallback.UnicodeCharacterBucket)
  : option (list FontFallback.IFallbackFont) :=
  match key with
  | FontFallback.cjk =>
      Some [{| FontFallback.family := JS.str "Noto Sans SC";
               FontFallback.fontBuffers := [1%N] |}]
  | _ => None
  end.

Definition matchFamilyStyle (data : list N) (familyName : JS.JSString)
  : option Typeface :=
  match data with
  | [] => None
  | _ :: _ => if strEq familyName (JS.str "Noto Sans SC") then Some 7%N
              else None
  end.

(** A DOM element without attributes. *)
Definition element (nd : N) (tag : JS.JSString) (classes : list JS.JSString)
    (cs : list DocumentStructure.Element) : DocumentStructure.Element :=
  {| DocumentStructure.node := nd;
     DocumentStructure.tagName := tag;
     DocumentStructure.getAttribute := fun _ => None;
     DocumentStructure.classList := classes;
     DocumentStructure.children := cs |}.

(** A paragraph inside a decoration. *)
Definition paragraph : DocumentStructure.Element :=
  element 7 (JS.str "p") [] [].

(** [html] with a [head], which is skipped with its [title], and a [body]
    that holds a heading and a decoration, an artifact, around the
    paragraph. *)
Definition page : DocumentStructure.Element :=
  element 1 (JS.str "html") []
    [element 2 (JS.str "head") [] [element 3 (JS.str "title") [] []];
     element 4 (JS.str "body") []
       [element 5 (JS.str "h1") [] [];
        element 6 (JS.str "div") [JS.str "decoration"] [paragraph]]].

End Scene.

Lemma renderBackgroundImage_tidy_witness :
  let o := renderBackgroundImage Sample.canvasKit Scene.layered
             (newRenderer 0) in
  saveDepth (traceOf o) = 0%Z
  /\ leaked (traceOf o) = []
  /\ stacks (stateOf o) = stacks (newRenderer 0).
Proof.
  apply (renderBackgroundImage_tidy Sample.canvasKit Scene.layered
           (newRenderer 0)).
  reflexivity.
Defined.

Lemma linearGradient_shader_dropped_witness :
  let o := renderLinearGradientLayer Sample.canvasKit Scene.flatRendering
             Scene.direction Sample.stops (newRenderer 0) in
  traceOf o =
    [MakeLinearGradient 0 [10; 30] [110; 30]
       (map (fun s => parseColor Sample.canvasKit (cs_color s))
            (Sample.stops 100))
       (map cs_stop (Sample.stops 100))]
  /\ leaked (traceOf o) = [0%N]
  /\ existsb isDraw (traceOf o) = false.
Proof.
  apply (linearGradient_shader_dropped Sample.canvasKit Scene.flatRendering
           100 10 110 30 30 Sample.stops (newRenderer 0)).
  reflexivity.
Defined.



Lemma tagged_content_is_bracketed_witness :
  let r := newRenderer 0 in
  let cont := container Scene.tagged in
  let effects := applyEffects (getEffects Scene.tagged CONTENT) r in
  let texts :=
    forEach (fun child =>
               renderTextNode Sample.canvasKit Sample.options
                 Sample.segmentGraphemes child (styles cont))
            (textNodes cont) (stateOf effects) in
  let other :=
    otherContent Sample.renderOtherContent Scene.tagged (stateOf texts) in
  5%Z <> 0%Z
  /\ traceOf (renderNodeContent Sample.canvasKit Sample.options
                Sample.segmentGraphemes Sample.renderOtherContent
                Scene.tagged r)
     = traceOf effects
       ++ [SetPDFTagId 5] ++ traceOf texts ++ traceOf other
       ++ [SetPDFTagId 0]
  /\ forallb noTagNoPath (traceOf texts) = true.
Proof.
  apply (tagged_content_is_bracketed Sample.canvasKit Sample.options
           Sample.segmentGraphemes Sample.renderOtherContent Scene.tagged
           5%Z (newRenderer 0)).
  reflexivity.
Defined.

Lemma innermost_opacity_wins_witness :
  let after :=
    stateOf (applyEffects [OpacityEffect (1 # 2); OpacityEffect (1 # 4)]
                          (newRenderer 0)) in
  GlobalAlpha.value (globalAlpha after) = 1 # 4
  /\ resultOf (parseColorWithAlpha Sample.canvasKit Sample.red after)
     = multiplyByAlpha (parseColor Sample.canvasKit Sample.red) (1 # 4).
Proof.
  apply (innermost_opacity_wins Sample.canvasKit
           [OpacityEffect (1 # 2); OpacityEffect (1 # 4)] Sample.red
           (newRenderer 0)).
  reflexivity.
Defined.


Lemma fallback_typeface_covers_first_glyph_witness :
  exists fontMgr before familyName after,
    fst (FontFallback.getFontManager Scene.fallbackFontConfig
           (fun _ => true)
           (FontFallback.providerBucket (fun _ => false) [20013%N])
           (FontFallback.newCollection 0))
    = Some fontMgr
    /\ map FontFallback.family
           (FontFallback.configured Scene.fallbackFontConfig
              (FontFallback.providerBucket (fun _ => false) [20013%N]))
       = before ++ familyName :: after
    /\ Scene.matchFamilyStyle (FontFallback.mgrData fontMgr) familyName
       = Some 7%N
    /\ (exists first rest,
           Font_getGlyphIDs Sample.canvasKit (Some 7%N) [20013%N]
           = first :: rest /\ first <> 0%N)
    /\ Forall (fun name =>
                 match Scene.matchFamilyStyle (FontFallback.mgrData fontMgr)
                         name with
                 | Some t =>
                     FontFallback.coversFirstGlyph
                       (fun tf => Font_getGlyphIDs Sample.canvasKit (Some tf))
                       t [20013%N] = false
                 | None => True
                 end) before.
Proof.
  apply (FontFallback.fallback_typeface_covers_first_glyph
           (fun _ => false) Scene.fallbackFontConfig (fun _ => true)
           Scene.matchFamilyStyle
           (fun tf => Font_getGlyphIDs Sample.canvasKit (Some tf))
           [20013%N] (FontFallback.newCollection 0) 7%N).
  reflexivity.
Defined.

(** On [Scene.page] the map holds the five tagged elements in document
    order, the decoration with the identifier of an artifact; an array
    that holds the paragraph twice gives two tags, numbered 1 and 2, and
    one entry, with 2. *)
Lemma tagIdMap_matches_structure_witness :
  let generate :=
    DocumentStructure.generateDocumentStructure
      DocumentStructure.tagName (fun _ => []) in
  let entries (map_ : DocumentStructure.TagIdMap) :=
    map (fun entry => (DocumentStructure.node (fst entry), snd entry)) map_ in
  NoDup (map DocumentStructure.node
             (DocumentStructure.taggedOf (inl Scene.page)))
  /\ entries (snd (generate (inl Scene.page)))
     = [(1%N, 1%Z); (4%N, 2%Z); (5%N, 3%Z); (6%N, (-1)%Z); (7%N, 4%Z)]
  /\ map (fun element =>
            DocumentStructure.getPDFTagForElement element
              (snd (generate (inl Scene.page))))
         (DocumentStructure.taggedOf (inl Scene.page))
     = map Some [1; 2; 3; -1; 4]%Z
  /\ DocumentStructure.tagIds
       (fst (generate (inr [Scene.paragraph; Scene.paragraph])))
     = [0; 1; 2]%Z
  /\ entries (snd (generate (inr [Scene.paragraph; Scene.paragraph])))
     = [(7%N, 2%Z)].
Proof.
  cbv zeta.
  assert (Hnd : NoDup (map DocumentStructure.node
                         (DocumentStructure.taggedOf (inl Scene.page)))).
  { vm_compute. repeat constructor; cbn; intuition discriminate. }
  split; [exact Hnd|].
  destruct (DocumentStructure.tagIdMap_matches_structure
              DocumentStructure.tagName (fun _ => []) (inl Scene.page))
    as (_ & _ & _ & Hdistinct).
  destruct (Hdistinct Hnd) as [Hentries Hget].
  split; [rewrite Hentries; reflexivity|].
  split; [rewrite Hget; reflexivity|].
  split; [reflexivity|].
  destruct (DocumentStructure.tagIdMap_matches_structure
              DocumentStructure.tagName (fun _ => [])
              (inr [Scene.paragraph; Scene.paragraph]))
    as (_ & _ & Hset & _).
  rewrite Hset. reflexivity.
Defined.
